(** * ariautils.midi: a shallow embedding of the MidiDict algorithms

    The development follows [src/ariautils/midi.py]: the message records,
    the tempo-map duration query, the pedal interval builder, the overlap
    and pedal resolvers, the redundant pedal pruner, the instrument filter,
    the note pairer, the stream assembler and its reader, and the filters
    on programs and instruments.  Python integers are [Z],
    Python floats are binary64 primitive floats, Python lists are lists
    (mutated lists are stores accessed by index), dictionaries are [gmap]s
    where only lookups matter and insertion-ordered association lists where
    the iteration order is observable. *)

From Stdlib Require Import ZArith Floats.
From stdpp Require Import gmap strings list sorting.

Local Open Scope Z_scope.
#[local] Set Warnings "-clear-no-such-hyp".

(** ** Python runtime pieces *)

Module Py.

(** Exceptions the modelled code can raise. *)
Inductive exn :=
| IndexError
| KeyError
| NameError
| ZeroDivisionError
| OverflowError
| ValueError.

Inductive result (A : Type) :=
| Ok (a : A)
| Raise (e : exn).
Global Arguments Ok {A} a.
Global Arguments Raise {A} e.

Global Instance result_ret : MRet result := fun A a => Ok a.
Global Instance result_bind : MBind result := fun A B f m =>
  match m with
  | Ok a => f a
  | Raise e => Raise e
  end.

(** [l[i]] for a Python list and a Python integer index: negative indices
    count from the end, anything out of range raises IndexError. *)
Definition getitem {A} (l : list A) (i : Z) : result A :=
  let j := if i <? 0 then i + Z.of_nat (length l) else i in
  if j <? 0 then Raise IndexError
  else match l !! Z.to_nat j with
       | Some x => Ok x
       | None => Raise IndexError
       end.

(** [sorted(l, key=...)] and [list.sort(key=...)]: a stable sort.  [leb a b]
    is [key(a) <= key(b)]; an element is placed before the first element
    of the already sorted tail whose key is not smaller, which keeps the
    original order among equal keys. *)
Section Sorting.
Context {A : Type} (leb : A -> A -> bool).

Fixpoint insert_sorted (x : A) (l : list A) : list A :=
  match l with
  | [] => [x]
  | y :: l' => if leb x y then x :: y :: l' else y :: insert_sorted x l'
  end.

Fixpoint sorted (l : list A) : list A :=
  match l with
  | [] => []
  | x :: l' => insert_sorted x (sorted l')
  end.
End Sorting.

(** Tuple comparison [(a1, a2) <= (b1, b2)] on pairs of integers. *)
Definition pair_leb (a b : Z * Z) : bool :=
  (a.1 <? b.1) || ((a.1 =? b.1) && (a.2 <=? b.2)).

(** [enumerate(l)]. *)
Definition enumerate {A} (l : list A) : list (nat * A) :=
  zip (seq 0 (length l)) l.

(** An insertion-ordered dictionary, for the dictionaries whose iteration
    order the code observes.  [setdefault_update k f d0] is
    [d[k] = f(d[k])] on a [defaultdict] whose factory returns [d0]: an
    existing key is updated in place, a new key goes last. *)
Fixpoint setdefault_update {K V} `{EqDecision K}
    (k : K) (f : V -> V) (d0 : V) (d : list (K * V)) : list (K * V) :=
  match d with
  | [] => [(k, f d0)]
  | (k', v) :: d' =>
      if decide (k' = k) then (k', f v) :: d'
      else (k', v) :: setdefault_update k f d0 d'
  end.

(** Conversion of a Python integer to a float: correctly rounded to the
    nearest binary64 value, OverflowError when it does not fit. *)
Definition float_of_int (z : Z) : result float :=
  let f := SF2Prim (binary_normalize prec emax z 0 false) in
  if is_infinity f then Raise OverflowError else Ok f.

(** [round(x)] of a float with no digits argument: the nearest integer,
    ties to the even one; infinities and NaN raise. *)
Definition round (x : float) : result Z :=
  match Prim2SF x with
  | S754_zero _ => Ok 0
  | S754_finite s m e =>
      let mag :=
        if 0 <=? e then Z.pos m * 2 ^ e
        else
          let d := 2 ^ (- e) in
          let q := Z.pos m / d in
          let r := Z.pos m mod d in
          match 2 * r ?= d with
          | Lt => q
          | Gt => q + 1
          | Eq => if Z.even q then q else q + 1
          end in
      Ok (if s then - mag else mag)
  | S754_infinity _ => Raise OverflowError
  | S754_nan => Raise ValueError
  end.

End Py.

Import Py.

(** ** Message records (the TypedDicts of the module) *)

Record MetaMessage := mkMeta {
  meta_type : string;  (* "text" or "copyright" *)
  meta_data : string
}.

Record TempoMessage := mkTempo {
  tempo_data : Z;
  tempo_tick : Z
}.

Record PedalMessage := mkPedal {
  pedal_data : Z;  (* 0 for off, 1 for on *)
  pedal_tick : Z;
  pedal_channel : Z
}.

Record InstrumentMessage := mkInstrument {
  instrument_data : Z;
  instrument_tick : Z;
  instrument_channel : Z
}.

Record NoteData := mkNoteData {
  pitch : Z;
  start : Z;
  end_ : Z;
  velocity : Z
}.

Record NoteMessage := mkNote {
  note_data : NoteData;
  note_tick : Z;
  note_channel : Z
}.

Global Instance TempoMessage_eq_dec : EqDecision TempoMessage.
Proof. solve_decision. Defined.
Global Instance PedalMessage_eq_dec : EqDecision PedalMessage.
Proof. solve_decision. Defined.
Global Instance InstrumentMessage_eq_dec : EqDecision InstrumentMessage.
Proof. solve_decision. Defined.
Global Instance NoteData_eq_dec : EqDecision NoteData.
Proof. solve_decision. Defined.
Global Instance NoteMessage_eq_dec : EqDecision NoteMessage.
Proof. solve_decision. Defined.

(** The attributes of a [MidiDict] object. *)
Record MidiDict := mkMidiDict {
  meta_msgs : list MetaMessage;
  tempo_msgs : list TempoMessage;
  pedal_msgs : list PedalMessage;
  instrument_msgs : list InstrumentMessage;
  note_msgs : list NoteMessage;
  ticks_per_beat : Z;
  metadata : list (string * string);
  pedal_resolved : bool
}.

Definition set_note_msgs (md : MidiDict) (l : list NoteMessage) : MidiDict :=
  mkMidiDict (meta_msgs md) (tempo_msgs md) (pedal_msgs md)
    (instrument_msgs md) l (ticks_per_beat md) (metadata md)
    (pedal_resolved md).

Definition set_pedal_msgs (md : MidiDict) (l : list PedalMessage) : MidiDict :=
  mkMidiDict (meta_msgs md) (tempo_msgs md) l
    (instrument_msgs md) (note_msgs md) (ticks_per_beat md) (metadata md)
    (pedal_resolved md).

Definition set_pedal_resolved (md : MidiDict) (b : bool) : MidiDict :=
  mkMidiDict (meta_msgs md) (tempo_msgs md) (pedal_msgs md)
    (instrument_msgs md) (note_msgs md) (ticks_per_beat md) (metadata md) b.

Definition DEFAULT_TEMPO_MSG : TempoMessage := mkTempo 500000 0.
Definition DEFAULT_INSTRUMENT_MSG : InstrumentMessage := mkInstrument 0 0 0.

Definition by_tick {A} (tick : A -> Z) (a b : A) : bool := tick a <=? tick b.

(** [MidiDict.__init__]: the note list is sorted by tick, empty tempo and
    instrument lists get their default message. *)
Definition MidiDict_init
    (meta : list MetaMessage) (tempo : list TempoMessage)
    (pedal : list PedalMessage) (instrument : list InstrumentMessage)
    (note : list NoteMessage) (tpb : Z) (md : list (string * string))
  : MidiDict :=
  mkMidiDict meta
    (match tempo with [] => [DEFAULT_TEMPO_MSG] | _ => tempo end)
    pedal
    (match instrument with [] => [DEFAULT_INSTRUMENT_MSG] | _ => instrument end)
    (sorted (by_tick note_tick) note)
    tpb md false.

(** ** Tempo map: [get_duration_ms] *)

(** Modelled from the spec: [tick2second] is imported from the mido package
    and is not under src/.  Section 4.1 gives the seconds of a segment as
    ticks times (microseconds per quarter note over 1e6) over ticks per
    beat; mido computes it as [tick * (tempo * 1e-6 / ticks_per_beat)], all
    in floating point.  The literal is the binary64 value of [1e-6]. *)
Definition tick2second (tick tempo tpb : Z) : result float :=
  ftempo ← float_of_int tempo;
  ftpb ← float_of_int tpb;
  if tpb =? 0 then Raise ZeroDivisionError
  else
    let scale := (ftempo * 0x1.0c6f7a0b5ed8dp-20 / ftpb)%float in
    ftick ← float_of_int tick;
    Ok (ftick * scale)%float.

(** The first loop: the value of [idx] when the loop is left ([None] when
    the list is empty and [idx] was never bound). *)
Fixpoint search_idx (start_tick : Z) (idx : nat) (l : list TempoMessage)
    (last : option nat) : option nat :=
  match l with
  | [] => last
  | curr_msg :: l' =>
      if start_tick <=? tempo_tick curr_msg then Some idx
      else search_idx start_tick (S idx) l' (Some idx)
  end.

(** The loop over [zip(tempo_msgs[idx:], tempo_msgs[idx + 1:])], on the
    state [(duration, curr_tick)]. *)
Fixpoint sum_intervals (end_tick tpb : Z)
    (pairs : list (TempoMessage * TempoMessage))
    (duration : float) (curr_tick : Z) : result (float * Z) :=
  match pairs with
  | [] => Ok (duration, curr_tick)
  | (curr_msg, next_msg) :: rest =>
      let curr_tempo := tempo_data curr_msg in
      let delta_tick :=
        if end_tick <? tempo_tick next_msg then end_tick - curr_tick
        else tempo_tick next_msg - curr_tick in
      d ← tick2second delta_tick curr_tempo tpb;
      let duration := (duration + d)%float in
      if end_tick <? tempo_tick next_msg then Ok (duration, curr_tick)
      else sum_intervals end_tick tpb rest duration (tempo_tick next_msg)
  end.

Definition get_duration_ms (start_tick end_tick : Z)
    (tempo_msgs : list TempoMessage) (ticks_per_beat : Z) : result Z :=
  match search_idx start_tick 0 tempo_msgs None with
  | None => Raise NameError
  | Some idx0 =>
      let idx := if (0 <? idx0)%nat then (idx0 - 1)%nat else idx0 in
      _ ← getitem tempo_msgs (Z.of_nat idx);
      '(duration, curr_tick) ←
        sum_intervals end_tick ticks_per_beat
          (zip (drop idx tempo_msgs) (drop (idx + 1) tempo_msgs))
          0%float start_tick;
      last ← getitem tempo_msgs (-1);
      duration ←
        (if tempo_tick last <? end_tick then
           d ← tick2second (end_tick - curr_tick) (tempo_data last)
                 ticks_per_beat;
           Ok (duration + d)%float
         else Ok duration);
      round (duration * 1000)%float
  end.

(** [MidiDict.tick_to_ms]. *)
Definition tick_to_ms (md : MidiDict) (tick : Z) : result Z :=
  get_duration_ms 0 tick (tempo_msgs md) (ticks_per_beat md).

(** ** Pedal interval builder *)

(** One iteration of the loop over [self.pedal_msgs]; the state is
    [(pedal_status, channel_to_pedal_intervals)]. *)
Definition pedal_interval_step
    (st : gmap Z Z * gmap Z (list (Z * Z))) (pedal_msg : PedalMessage)
  : gmap Z Z * gmap Z (list (Z * Z)) :=
  let '(pedal_status, intervals) := st in
  let tick := pedal_tick pedal_msg in
  let channel := pedal_channel pedal_msg in
  let data := pedal_data pedal_msg in
  match pedal_status !! channel with
  | None =>
      if data =? 1 then (<[channel := tick]> pedal_status, intervals)
      else st
  | Some _start_tick =>
      if data =? 0 then
        (delete channel pedal_status,
         <[channel := default [] (intervals !! channel) ++ [(_start_tick, tick)]]>
           intervals)
      else st
  end.

(** The pedal status and the closed intervals once every pedal message is
    processed. *)
Definition pedal_scan (msgs : list PedalMessage)
  : gmap Z Z * gmap Z (list (Z * Z)) :=
  foldl pedal_interval_step (∅, ∅) msgs.

(** Closing the pedals that are still down: every channel of [pedal_status]
    gets [[start_tick, final_tick]] appended to its list. *)
Definition close_unclosed (final_tick : Z) (pedal_status : gmap Z Z)
    (intervals : gmap Z (list (Z * Z))) : gmap Z (list (Z * Z)) :=
  union_with (fun l1 l2 => Some (l1 ++ l2)) intervals
    ((fun start_tick => [(start_tick, final_tick)]) <$> pedal_status).

(** [MidiDict._build_pedal_intervals]: sorts [self.pedal_msgs] in place and
    returns the intervals of every channel. *)
Definition _build_pedal_intervals (md : MidiDict)
  : result (MidiDict * gmap Z (list (Z * Z))) :=
  let md := set_pedal_msgs md (sorted (by_tick pedal_tick) (pedal_msgs md)) in
  let '(pedal_status, intervals) := pedal_scan (pedal_msgs md) in
  last_note ← getitem (note_msgs md) (-1);
  let final_tick := end_ (note_data last_note) in
  Ok (md, close_unclosed final_tick pedal_status intervals).

(** ** Overlap resolver *)

Global Instance NoteMessage_inhabited : Inhabited NoteMessage :=
  populate (mkNote (mkNoteData 0 0 0 0) 0 0).

(** [msg["data"]["end"] = e] on a note record. *)
Definition set_end (e : Z) (msg : NoteMessage) : NoteMessage :=
  mkNote
    (mkNoteData (pitch (note_data msg)) (start (note_data msg)) e
       (velocity (note_data msg)))
    (note_tick msg) (note_channel msg).

(** The note lists of the code hold references to the records of
    [self.note_msgs]; a reference is the position of the record in that
    list, and [notes !!! i] reads through it. *)
Definition note_start (notes : list NoteMessage) (i : nat) : Z :=
  start (note_data (notes !!! i)).
Definition note_end (notes : list NoteMessage) (i : nat) : Z :=
  end_ (note_data (notes !!! i)).

(** [note_msgs_c]: channel to pitch to note references, both levels in
    insertion order. *)
Definition group_step (notes_c : list (Z * list (Z * list nat)))
    (entry : nat * NoteMessage) : list (Z * list (Z * list nat)) :=
  let '(i, msg) := entry in
  setdefault_update (note_channel msg)
    (setdefault_update (pitch (note_data msg)) (fun l => l ++ [i]) [])
    [] notes_c.

Definition group_notes (notes : list NoteMessage)
  : list (Z * list (Z * list nat)) :=
  foldl group_step [] (enumerate notes).

(** The sort key [(start, end)] of a referenced note. *)
Definition start_end_leb (notes : list NoteMessage) (i j : nat) : bool :=
  pair_leb (note_start notes i, note_end notes i)
           (note_start notes j, note_end notes j).

(** The position [msgs[idx - 1]] denotes in a non-empty list: Python reads
    index -1 as the last position. *)
Definition prev_position (len idx : nat) : nat :=
  match idx with
  | O => (len - 1)%nat
  | S idx' => idx'
  end.

(** The loop [for idx, msg in enumerate(msgs)] over one sorted group; [rest]
    is the part of [msgs] still to visit and [idx] the current index. *)
Fixpoint trim_loop (msgs : list nat) (idx : nat) (rest : list nat)
    (prev_off_tick : Z) (notes : list NoteMessage) : list NoteMessage :=
  match rest with
  | [] => notes
  | msg :: rest' =>
      let on_tick := note_start notes msg in
      let off_tick := note_end notes msg in
      let notes' :=
        if on_tick <? prev_off_tick then
          alter (set_end on_tick) (msgs !!! prev_position (length msgs) idx)
            notes
        else notes in
      trim_loop msgs (S idx) rest' off_tick notes'
  end.

(** The body of the inner loop: sort the group, then trim. *)
Definition resolve_group (notes : list NoteMessage) (group : list nat)
  : list NoteMessage :=
  let msgs := sorted (start_end_leb notes) group in
  trim_loop msgs 0 msgs (-1) notes.

Definition resolve_channel (notes : list NoteMessage)
    (msgs_by_pitch : list (Z * list nat)) : list NoteMessage :=
  foldl (fun notes entry => resolve_group notes entry.2) notes msgs_by_pitch.

Definition resolve_overlaps_notes (notes : list NoteMessage)
  : list NoteMessage :=
  foldl (fun notes entry => resolve_channel notes entry.2) notes
    (group_notes notes).

(** [MidiDict.resolve_overlaps]. *)
Definition resolve_overlaps (md : MidiDict) : MidiDict :=
  set_note_msgs md (resolve_overlaps_notes (note_msgs md)).

(** ** Pedal resolver *)

(** The inner loop over the pedal intervals of the note's channel: the first
    interval with [pedal_start < note_end_tick < pedal_end] extends the
    note. *)
Fixpoint extend_note (note_end_tick : Z) (intervals : list (Z * Z))
    (msg : NoteMessage) : NoteMessage :=
  match intervals with
  | [] => msg
  | (pedal_start, pedal_end) :: rest =>
      if (pedal_start <? note_end_tick) && (note_end_tick <? pedal_end)
      then set_end pedal_end msg
      else extend_note note_end_tick rest msg
  end.

(** [MidiDict.resolve_pedal].  Every note is visited once, through the
    per-channel lists of references, and only the visited record is
    written, so the visit is a map over [self.note_msgs].  The message
    printed when [pedal_resolved] is already set is not modelled. *)
Definition resolve_pedal (md : MidiDict) : result MidiDict :=
  '(md, channel_to_pedal_intervals) ← _build_pedal_intervals md;
  let notes :=
    (fun msg =>
       extend_note (end_ (note_data msg))
         (default [] (channel_to_pedal_intervals !! note_channel msg)) msg)
      <$> note_msgs md in
  let md := resolve_overlaps (set_note_msgs md notes) in
  Ok (set_pedal_resolved md true).

(** ** Redundant pedal pruner *)

(** The [while] loop of [_is_pedal_useful]: [note_start] is the start of the
    note read last, [rest] the notes from [note_idx] on. *)
Fixpoint useful_loop (pedal_start_tick pedal_end_tick note_start : Z)
    (rest : list NoteMessage) : bool :=
  if note_start <=? pedal_end_tick then
    match rest with
    | [] => false
    | note_msg :: rest' =>
        let note_end := end_ (note_data note_msg) in
        if (pedal_start_tick <=? note_end) && (note_end <=? pedal_end_tick)
        then true
        else
          useful_loop pedal_start_tick pedal_end_tick
            (start (note_data note_msg)) rest'
    end
  else false.

Definition _is_pedal_useful (pedal_start_tick pedal_end_tick : Z)
    (note_msgs : list NoteMessage) : result bool :=
  note_msg ← getitem note_msgs 0;
  Ok (useful_loop pedal_start_tick pedal_end_tick
        (start (note_data note_msg)) note_msgs).

(** The state of the loop of [_process_channel_pedals]: the indices marked
    for removal, and [pedal_down_tick] with [pedal_down_msg_idx], which are
    set and cleared together. *)
Definition pedal_loop_state : Type := list nat * option (Z * nat).

Definition process_pedal_msg (channel : Z) (len : nat)
    (note_msgs : list NoteMessage) (st : pedal_loop_state)
    (entry : nat * PedalMessage) : result pedal_loop_state :=
  let '(pedal_msg_idx, pedal_msg) := entry in
  let '(to_remove, pedal_down) := st in
  let pedal_msg_value := pedal_data pedal_msg in
  let pedal_msg_tick := pedal_tick pedal_msg in
  if negb (pedal_channel pedal_msg =? channel) then Ok st
  else
    (* Remove never-closed pedal messages *)
    let to_remove :=
      if (Z.of_nat pedal_msg_idx =? Z.of_nat len - 1) && (pedal_msg_value =? 1)
      then to_remove ++ [pedal_msg_idx]
      else to_remove in
    match pedal_down with
    | None =>
        if pedal_msg_value =? 1
        then Ok (to_remove, Some (pedal_msg_tick, pedal_msg_idx))
        else Ok (to_remove ++ [pedal_msg_idx], None)
    | Some (pedal_down_tick, pedal_down_msg_idx) =>
        if pedal_msg_value =? 1
        then Ok (to_remove ++ [pedal_msg_idx], pedal_down)
        else
          pedal_is_useful ←
            _is_pedal_useful pedal_down_tick pedal_msg_tick note_msgs;
          let to_remove :=
            if pedal_is_useful : bool then to_remove
            else to_remove ++ [pedal_down_msg_idx; pedal_msg_idx] in
          Ok (to_remove, None)
    end.

Fixpoint process_pedal_msgs (channel : Z) (len : nat)
    (note_msgs : list NoteMessage) (st : pedal_loop_state)
    (entries : list (nat * PedalMessage)) : result pedal_loop_state :=
  match entries with
  | [] => Ok st
  | entry :: rest =>
      st ← process_pedal_msg channel len note_msgs st entry;
      process_pedal_msgs channel len note_msgs st rest
  end.

(** [[msg for _idx, msg in enumerate(msgs) if _idx not in to_remove]]. *)
Definition remove_idxs {A} (to_remove : list nat) (msgs : list A) : list A :=
  (filter (fun entry : nat * A => entry.1 ∉ to_remove) (enumerate msgs)).*2.

Definition _process_channel_pedals (channel : Z) (md : MidiDict)
  : result MidiDict :=
  let note_msgs :=
    filter (fun msg => note_channel msg = channel) (note_msgs md) in
  match note_msgs with
  | [] =>
      let to_remove :=
        (filter (fun entry : nat * PedalMessage =>
                   pedal_channel entry.2 = channel)
           (enumerate (pedal_msgs md))).*1 in
      Ok (set_pedal_msgs md (remove_idxs to_remove (pedal_msgs md)))
  | _ =>
      '(to_remove, _) ←
        process_pedal_msgs channel (length (pedal_msgs md)) note_msgs
          ([], None) (enumerate (pedal_msgs md));
      Ok (set_pedal_msgs md (remove_idxs to_remove (pedal_msgs md)))
  end.

Fixpoint process_channels (channels : list Z) (md : MidiDict)
  : result MidiDict :=
  match channels with
  | [] => Ok md
  | channel :: rest =>
      md ← _process_channel_pedals channel md;
      process_channels rest md
  end.

(** [MidiDict.remove_redundant_pedals].  The channels are visited in the
    iteration order of a Python [set], which the language leaves open:
    [set_iter] lists the distinct elements of its argument in that order. *)
Definition remove_redundant_pedals (set_iter : list Z -> list Z)
    (md : MidiDict) : result MidiDict :=
  process_channels (set_iter (pedal_channel <$> pedal_msgs md)) md.

(** What is asked of [set_iter]: every element once. *)
Definition is_set_iter (set_iter : list Z -> list Z) : Prop :=
  forall l, NoDup (set_iter l) /\ forall x, x ∈ set_iter l <-> x ∈ l.

(** ** Instrument filter *)

Definition range (lo hi : Z) : list Z :=
  (fun i => lo + Z.of_nat i) <$> seq 0 (Z.to_nat (hi - lo)).

(** [MidiDict.get_program_to_instrument]. *)
Definition PROGRAM_TO_INSTRUMENT : gmap Z string :=
  list_to_map
    (((fun i => (i, "piano"%string)) <$> range 0 (7 + 1))
     ++ ((fun i => (i, "chromatic"%string)) <$> range 8 (15 + 1))
     ++ ((fun i => (i, "organ"%string)) <$> range 16 (23 + 1))
     ++ ((fun i => (i, "guitar"%string)) <$> range 24 (31 + 1))
     ++ ((fun i => (i, "bass"%string)) <$> range 32 (39 + 1))
     ++ ((fun i => (i, "strings"%string)) <$> range 40 (47 + 1))
     ++ ((fun i => (i, "ensemble"%string)) <$> range 48 (55 + 1))
     ++ ((fun i => (i, "brass"%string)) <$> range 56 (63 + 1))
     ++ ((fun i => (i, "reed"%string)) <$> range 64 (71 + 1))
     ++ ((fun i => (i, "pipe"%string)) <$> range 72 (79 + 1))
     ++ ((fun i => (i, "synth_lead"%string)) <$> range 80 (87 + 1))
     ++ ((fun i => (i, "synth_pad"%string)) <$> range 88 (95 + 1))
     ++ ((fun i => (i, "synth_effect"%string)) <$> range 96 (103 + 1))
     ++ ((fun i => (i, "ethnic"%string)) <$> range 104 (111 + 1))
     ++ ((fun i => (i, "percussive"%string)) <$> range 112 (119 + 1))
     ++ ((fun i => (i, "sfx"%string)) <$> range 120 (127 + 1))).

Definition dict_getitem `{Countable K} {V} (d : gmap K V) (k : K) : result V :=
  match d !! k with
  | Some v => Ok v
  | None => Raise KeyError
  end.

(** [[i for i in programs if config[program_to_instrument[i]] is True]]. *)
Fixpoint flagged_programs (config : gmap string bool) (programs : list Z)
  : result (list Z) :=
  match programs with
  | [] => Ok []
  | i :: rest =>
      name ← dict_getitem PROGRAM_TO_INSTRUMENT i;
      flag ← dict_getitem config name;
      flagged ← flagged_programs config rest;
      Ok (if flag : bool then i :: flagged else flagged)
  end.

(** [MidiDict.remove_instruments].  Meta and tempo messages carry no
    channel, so [msg.get("channel", -1)] is -1 for them. *)
Definition remove_instruments (config : gmap string bool) (md : MidiDict)
  : result MidiDict :=
  programs_to_remove ← flagged_programs config (range 1 (127 + 1));
  let channels_to_remove :=
    instrument_channel
      <$> filter (fun msg => instrument_data msg ∈ programs_to_remove)
            (instrument_msgs md) in
  let channels_to_remove := filter (fun i => i ≠ 9) channels_to_remove in
  Ok (mkMidiDict
        (filter (fun _ => (-1) ∉ channels_to_remove) (meta_msgs md))
        (filter (fun _ => (-1) ∉ channels_to_remove) (tempo_msgs md))
        (filter (fun msg => pedal_channel msg ∉ channels_to_remove)
           (pedal_msgs md))
        (filter (fun msg => instrument_channel msg ∉ channels_to_remove)
           (instrument_msgs md))
        (filter (fun msg => note_channel msg ∉ channels_to_remove)
           (note_msgs md))
        (ticks_per_beat md) (metadata md) (pedal_resolved md)).

(** ** MIDI events (the messages of the mido package) *)

Module mido.

(** A message with its [time] attribute.  [Meta] is a [MetaMessage] of a
    type other than [set_tempo] (text, copyright, end_of_track, ...);
    [Other] is any channel message the module does not look at.  A value
    of this type holds its fields as given; the checks that mido runs when
    [dict_to_midi] builds a message are the functions below. *)
Inductive Message :=
| Meta (type_ : string) (text : string) (time : Z)
| SetTempo (tempo time : Z)
| ProgramChange (program channel time : Z)
| ControlChange (control value channel time : Z)
| NoteOn (note velocity channel time : Z)
| NoteOff (note velocity channel time : Z)
| Other (time : Z).

Definition time (msg : Message) : Z :=
  match msg with
  | Meta _ _ t | SetTempo _ t | ProgramChange _ _ t | ControlChange _ _ _ t
  | NoteOn _ _ _ t | NoteOff _ _ _ t | Other t => t
  end.

Definition set_time (t : Z) (msg : Message) : Message :=
  match msg with
  | Meta ty tx _ => Meta ty tx t
  | SetTempo tempo _ => SetTempo tempo t
  | ProgramChange p c _ => ProgramChange p c t
  | ControlChange ctl v c _ => ControlChange ctl v c t
  | NoteOn n v c _ => NoteOn n v c t
  | NoteOff n v c _ => NoteOff n v c t
  | Other _ => Other t
  end.

Record MidiFile := mkMidiFile {
  type_of : Z;
  file_ticks_per_beat : Z;
  tracks : list (list Message)
}.

(** Modelled from the spec: the message constructors are imported from the
    mido package and are not under src/.  The data model of the spec gives
    pitch, velocity and program as data bytes 0..127 and the channel as
    0..15; mido enforces these ranges when a message is built
    ([check_data_byte] and [check_channel] for note, velocity, program,
    control, value and channel; [check_int] with 0..0xffffff for the tempo
    of a [set_tempo] meta message) and raises ValueError for an integer
    outside its range.  The time is any number. *)
Definition check_data_byte (value : Z) : result unit :=
  if (0 <=? value) && (value <=? 127) then Ok tt else Raise ValueError.

Definition check_channel (channel : Z) : result unit :=
  if (0 <=? channel) && (channel <=? 15) then Ok tt else Raise ValueError.

Definition check_int (value low high : Z) : result unit :=
  if (low <=? value) && (value <=? high) then Ok tt else Raise ValueError.

(** [mido.MetaMessage("set_tempo", tempo=..., time=...)]. *)
Definition MetaMessage_set_tempo (tempo time : Z) : result Message :=
  _ ← check_int tempo 0 16777215;
  Ok (SetTempo tempo time).

(** [mido.Message("control_change", control=..., value=..., channel=...,
    time=...)]. *)
Definition Message_control_change (control value channel time : Z)
  : result Message :=
  _ ← check_data_byte control;
  _ ← check_data_byte value;
  _ ← check_channel channel;
  Ok (ControlChange control value channel time).

(** [mido.Message("program_change", program=..., channel=..., time=...)]. *)
Definition Message_program_change (program channel time : Z)
  : result Message :=
  _ ← check_data_byte program;
  _ ← check_channel channel;
  Ok (ProgramChange program channel time).

(** [mido.Message("note_on", note=..., velocity=..., channel=...,
    time=...)]. *)
Definition Message_note_on (note velocity channel time : Z)
  : result Message :=
  _ ← check_data_byte note;
  _ ← check_data_byte velocity;
  _ ← check_channel channel;
  Ok (NoteOn note velocity channel time).

End mido.

(** ** Note pairer: [_extract_track_data] *)

Record extract_state := mkExtract {
  x_meta_msgs : list MetaMessage;
  x_tempo_msgs : list TempoMessage;
  x_pedal_msgs : list PedalMessage;
  x_instrument_msgs : list InstrumentMessage;
  x_note_msgs : list NoteMessage;
  last_note_on : gmap (Z * Z) (list (Z * Z))
}.

Definition extract_init : extract_state := mkExtract [] [] [] [] [] ∅.

(** The open entries of a key that a release at [end_tick] closes, and the
    ones it keeps. *)
Definition notes_to_close (end_tick : Z) (open_notes : list (Z * Z))
  : list (Z * Z) :=
  filter (fun entry => entry.1 ≠ end_tick) open_notes.
Definition notes_to_keep (end_tick : Z) (open_notes : list (Z * Z))
  : list (Z * Z) :=
  filter (fun entry => entry.1 = end_tick) open_notes.

Definition closed_note (note channel end_tick : Z) (entry : Z * Z)
  : NoteMessage :=
  mkNote (mkNoteData note entry.1 end_tick entry.2) entry.1 channel.

(** The branch of a [note_on] with a positive velocity. *)
Definition open_note (note velocity channel t : Z) (st : extract_state)
  : extract_state :=
  mkExtract (x_meta_msgs st) (x_tempo_msgs st) (x_pedal_msgs st)
    (x_instrument_msgs st) (x_note_msgs st)
    (<[(note, channel) :=
         default [] (last_note_on st !! (note, channel)) ++ [(t, velocity)]]>
       (last_note_on st)).

(** The branch of a [note_off], or of a [note_on] with velocity 0. *)
Definition close_note (note channel end_tick : Z) (st : extract_state)
  : extract_state :=
  match last_note_on st !! (note, channel) with
  | None => st
  | Some open_notes =>
      let to_close := notes_to_close end_tick open_notes in
      let to_keep := notes_to_keep end_tick open_notes in
      mkExtract (x_meta_msgs st) (x_tempo_msgs st) (x_pedal_msgs st)
        (x_instrument_msgs st)
        (x_note_msgs st ++ (closed_note note channel end_tick <$> to_close))
        (if (0 <? length to_close)%nat && (0 <? length to_keep)%nat
         then <[(note, channel) := to_keep]> (last_note_on st)
         else delete (note, channel) (last_note_on st))
  end.

Definition extract_step (st : extract_state) (message : mido.Message)
  : extract_state :=
  match message with
  | mido.Meta type_ text _ =>
      if decide (type_ = "text"%string \/ type_ = "copyright"%string) then
        mkExtract (x_meta_msgs st ++ [mkMeta type_ text]) (x_tempo_msgs st)
          (x_pedal_msgs st) (x_instrument_msgs st) (x_note_msgs st)
          (last_note_on st)
      else st
  | mido.SetTempo tempo t =>
      mkExtract (x_meta_msgs st) (x_tempo_msgs st ++ [mkTempo tempo t])
        (x_pedal_msgs st) (x_instrument_msgs st) (x_note_msgs st)
        (last_note_on st)
  | mido.ProgramChange program channel t =>
      mkExtract (x_meta_msgs st) (x_tempo_msgs st) (x_pedal_msgs st)
        (x_instrument_msgs st ++ [mkInstrument program t channel])
        (x_note_msgs st) (last_note_on st)
  | mido.ControlChange control value channel t =>
      if control =? 64 then
        mkExtract (x_meta_msgs st) (x_tempo_msgs st)
          (x_pedal_msgs st ++ [mkPedal (if value <? 64 then 0 else 1) t channel])
          (x_instrument_msgs st) (x_note_msgs st) (last_note_on st)
      else st
  | mido.NoteOn note velocity channel t =>
      if 0 <? velocity then open_note note velocity channel t st
      else if velocity =? 0 then close_note note channel t st
      else st
  | mido.NoteOff note _ channel t => close_note note channel t st
  | mido.Other _ => st
  end.

Definition extract_run (st : extract_state) (track : list mido.Message)
  : extract_state :=
  foldl extract_step st track.

Definition _extract_track_data (track : list mido.Message)
  : list MetaMessage * list TempoMessage * list PedalMessage
    * list InstrumentMessage * list NoteMessage :=
  let st := extract_run extract_init track in
  (x_meta_msgs st, x_tempo_msgs st, x_pedal_msgs st, x_instrument_msgs st,
   x_note_msgs st).

(** The first loop of [midi_to_dict]: delta times to absolute times. *)
Fixpoint to_absolute (curr_tick : Z) (track : list mido.Message)
  : list mido.Message :=
  match track with
  | [] => []
  | message :: rest =>
      let t := mido.time message + curr_tick in
      mido.set_time t message :: to_absolute t rest
  end.

(** ** Stream assembler: [dict_to_midi] *)

(** [_sort_fn]: note messages have a velocity attribute, the others get
    1000. *)
Definition _sort_fn (msg : mido.Message) : Z * Z :=
  match msg with
  | mido.NoteOn _ velocity _ t | mido.NoteOff _ velocity _ t => (t, velocity)
  | _ => (mido.time msg, 1000)
  end.

Definition sort_fn_leb (a b : mido.Message) : bool :=
  pair_leb (_sort_fn a) (_sort_fn b).

(** The loop [msg.time -= tick; tick += msg.time]. *)
Fixpoint to_delta (tick : Z) (track : list mido.Message)
  : list mido.Message :=
  match track with
  | [] => []
  | msg :: rest =>
      let t := mido.time msg - tick in
      mido.set_time t msg :: to_delta (tick + t) rest
  end.

(** [end_msgs]: (channel, pitch) to the [(start, end)] pairs of its notes, in
    insertion order. *)
Definition end_msgs_of (notes : list NoteMessage)
  : list ((Z * Z) * list (Z * Z)) :=
  foldl
    (fun end_msgs note_msg =>
       setdefault_update
         (note_channel note_msg, pitch (note_data note_msg))
         (fun l => l ++ [(start (note_data note_msg), end_ (note_data note_msg))])
         [] end_msgs)
    [] notes.

(** [start < _start < end < _end] for some pair of the same key. *)
Definition interferes (v : list (Z * Z)) (se : Z * Z) : bool :=
  existsb
    (fun se' => (se.1 <? se'.1) && (se'.1 <? se.2) && (se.2 <? se'.2)) v.

(** The second loop over [end_msgs.items()]: the [(pitch, channel, end)] of
    the end messages it adds, those with [add is True], in order. *)
Definition end_events (end_msgs : list ((Z * Z) * list (Z * Z)))
  : list (Z * Z * Z) :=
  end_msgs ≫= fun '((channel, pitch), v) =>
    (fun se : Z * Z => (pitch, channel, se.2))
      <$> filter (fun se => interferes v se = false) v.

(** The unsorted, absolute-time track: one loop per message list, each
    message built by mido, which raises on a value out of range. *)
Definition unsorted_track (md : MidiDict) : result (list mido.Message) :=
  tempo_track ←
    mapM (fun tempo_msg =>
            mido.MetaMessage_set_tempo (tempo_data tempo_msg)
              (tempo_tick tempo_msg))
      (tempo_msgs md);
  pedal_track ←
    mapM (fun pedal_msg =>
            mido.Message_control_change 64 (pedal_data pedal_msg * 127)
              (pedal_channel pedal_msg) (pedal_tick pedal_msg))
      (pedal_msgs md);
  instrument_track ←
    mapM (fun instrument_msg =>
            mido.Message_program_change (instrument_data instrument_msg)
              (instrument_channel instrument_msg)
              (instrument_tick instrument_msg))
      (instrument_msgs md);
  note_track ←
    mapM (fun note_msg =>
            mido.Message_note_on (pitch (note_data note_msg))
              (velocity (note_data note_msg)) (note_channel note_msg)
              (start (note_data note_msg)))
      (note_msgs md);
  end_track ←
    mapM (fun '(pitch, channel, end_tick) =>
            mido.Message_note_on pitch 0 channel end_tick)
      (end_events (end_msgs_of (note_msgs md)));
  Ok (tempo_track ++ pedal_track ++ instrument_track ++ note_track
      ++ end_track).

Definition dict_to_midi (md : MidiDict) : result mido.MidiFile :=
  track ← unsorted_track md;
  let track := sorted sort_fn_leb track in
  let track := to_delta 0 track in
  let track := track ++ [mido.Meta "end_of_track" EmptyString 0] in
  Ok (mido.mkMidiFile 0 (ticks_per_beat md) [track]).

(** [MidiDict.to_midi]. *)
Definition to_midi (md : MidiDict) : result mido.MidiFile := dict_to_midi md.

(** Re-pairing a file: absolute times, then the pairer, track by track, as
    [midi_to_dict] does; the notes of all tracks are concatenated. *)
Definition repaired_notes (mid : mido.MidiFile) : list NoteMessage :=
  mido.tracks mid ≫= fun track =>
    (_extract_track_data (to_absolute 0 track)).2.

(** ** Documents used in the worked examples *)

Definition note (channel pitch start end_ velocity : Z) : NoteMessage :=
  mkNote (mkNoteData pitch start end_ velocity) start channel.

Definition pedal_on (tick channel : Z) : PedalMessage := mkPedal 1 tick channel.
Definition pedal_off (tick channel : Z) : PedalMessage := mkPedal 0 tick channel.

(** A pedal pressed at tick 5 and never released; the note that starts last
    ends at 20, the other one at 100. *)
Definition held_pedal_doc : MidiDict :=
  MidiDict_init [] [] [pedal_on 5 0] []
    [note 0 60 0 100 80; note 0 62 10 20 80] 480 [].

(** Channel 0 presses its pedal and never releases it; channel 1 has a
    useful pedal pair afterwards. *)
Definition unclosed_pedal_doc : MidiDict :=
  MidiDict_init [] [] [pedal_on 10 0; pedal_on 20 1; pedal_off 30 1] []
    [note 0 60 0 15 80; note 1 62 10 25 80] 480 [].

(** One channel, pedal pressed twice and never released. *)
Definition repressed_pedal_doc : MidiDict :=
  MidiDict_init [] [] [pedal_on 10 0; pedal_on 20 0] []
    [note 0 60 0 15 80] 480 [].

(** A removal config that flags the piano group only. *)
Definition piano_config : gmap string bool :=
  list_to_map
    [("piano", true); ("chromatic", false); ("organ", false);
     ("guitar", false); ("bass", false); ("strings", false);
     ("ensemble", false); ("brass", false); ("reed", false);
     ("pipe", false); ("synth_lead", false); ("synth_pad", false);
     ("synth_effect", false); ("ethnic", false); ("percussive", false);
     ("sfx", false)]%string.

(** Channel 1 plays program [program]. *)
Definition one_instrument_doc (program : Z) : MidiDict :=
  MidiDict_init [] [] [] [mkInstrument program 0 1] [note 1 60 0 15 80] 480 [].

Definition two_tempo_map : list TempoMessage :=
  [mkTempo 500000 0; mkTempo 1000000 100].

(** The set of pedal channels in ascending order, one possible iteration
    order. *)
Definition ascending_set (l : list Z) : list Z :=
  merge_sort Z.le (remove_dups l).

(** Three notes of one key that overlap pairwise, and one on another
    channel. *)
Definition overlapping_doc : MidiDict :=
  MidiDict_init [] [] [] []
    [note 0 60 0 100 90; note 0 60 50 150 80; note 0 60 50 70 70;
     note 1 60 20 80 60] 480 [].

(** One note of length zero. *)
Definition zero_length_doc : MidiDict :=
  MidiDict_init [] [] [] [] [note 0 60 5 5 80] 480 [].

(** Two notes of one key that touch at tick 10, and a note on another
    channel across that tick. *)
Definition touching_notes_doc : MidiDict :=
  MidiDict_init [] [] [] []
    [note 0 60 0 10 80; note 0 60 10 20 70; note 1 60 5 15 60] 480 [].

(** A note of length zero that starts inside another note of its key. *)
Definition inner_empty_note_doc : MidiDict :=
  MidiDict_init [] [] [] [] [note 0 60 0 10 80; note 0 60 5 5 80] 480 [].

(** ** Predicates of the overlap resolver *)

(** A note with its end tick blanked: two note lists with the same blanked
    notes differ in end ticks only. *)
Definition forget_end (msg : NoteMessage) : NoteMessage := set_end 0 msg.

(** Consecutive references of [l]: the first one ends no later than the
    second one starts. *)
Definition adjacent_ok (notes : list NoteMessage) (l : list nat) : Prop :=
  forall p a b, l !! p = Some a -> l !! S p = Some b ->
    note_end notes a <= note_start notes b.

(** A group is resolved when its references can be put in an order in which
    starts are ascending and every note ends before any later one starts. *)
Definition resolved (notes : list NoteMessage) (group : list nat) : Prop :=
  exists msgs, msgs ≡ₚ group /\
    forall p q a b, (p < q)%nat -> msgs !! p = Some a -> msgs !! q = Some b ->
      note_start notes a <= note_start notes b
      /\ note_end notes a <= note_start notes b.

(** The keys of a list in the order of their first occurrence: the key
    order of a dictionary filled from the list. *)
Definition first_occurrences {K} `{EqDecision K} (l : list K) : list K :=
  foldl (fun acc k => if decide (k ∈ acc) then acc else acc ++ [k]) [] l.

(** Channel and pitch of the note a reference points to. *)
Definition key_of (notes : list NoteMessage) (i : nat) : Z * Z :=
  (note_channel (notes !!! i), pitch (note_data (notes !!! i))).

(** The groups of [note_msgs_c], flattened in the order they are visited,
    each with its (channel, pitch) key. *)
Definition keyed_groups (notes_c : list (Z * list (Z * list nat)))
  : list ((Z * Z) * list nat) :=
  notes_c ≫= fun by_channel =>
    (fun by_pitch => ((by_channel.1, by_pitch.1), by_pitch.2))
      <$> by_channel.2.

(** Two notes overlap when each starts before the other ends: the interval
    test on [start, end).  For notes of positive length it says that the two
    ranges share a tick. *)
Definition overlap (a b : NoteMessage) : Prop :=
  start (note_data a) < end_ (note_data b)
  /\ start (note_data b) < end_ (note_data a).

Definition same_channel_pitch (a b : NoteMessage) : Prop :=
  note_channel a = note_channel b
  /\ pitch (note_data a) = pitch (note_data b).

(** No two notes of the same channel and pitch overlap. *)
Definition overlap_free (notes : list NoteMessage) : Prop :=
  forall i j a b, i ≠ j -> notes !! i = Some a -> notes !! j = Some b ->
    same_channel_pitch a b -> ~ overlap a b.

(** The ranges [start, end) of two notes share a tick, and: no two notes of
    the same channel and pitch do.  A note with start = end has an empty
    range and shares a tick with no note. *)
Definition share_tick (a b : NoteMessage) : Prop :=
  exists t, start (note_data a) <= t < end_ (note_data a)
            /\ start (note_data b) <= t < end_ (note_data b).

Definition tick_disjoint (notes : list NoteMessage) : Prop :=
  forall i j a b, i ≠ j -> notes !! i = Some a -> notes !! j = Some b ->
    same_channel_pitch a b -> ~ share_tick a b.

(** The invariants of the data model on note ticks. *)
Definition ticks_nonneg (notes : list NoteMessage) : Prop :=
  Forall (fun msg => 0 <= start (note_data msg)) notes.
Definition start_le_end (notes : list NoteMessage) : Prop :=
  Forall (fun msg => start (note_data msg) <= end_ (note_data msg)) notes.
Definition positive_length (notes : list NoteMessage) : Prop :=
  Forall (fun msg => start (note_data msg) < end_ (note_data msg)) notes.

(** The references of the notes on channel [c] with pitch [p]. *)
Definition group_refs (notes : list NoteMessage) (c p : Z) : list nat :=
  (filter (fun x : nat * NoteMessage => pitch (note_data x.2) = p)
     (filter (fun x : nat * NoteMessage => note_channel x.2 = c)
        (enumerate notes))).*1.

Definition channel_pitches (notes : list NoteMessage) (c : Z) : list Z :=
  first_occurrences
    ((fun x : nat * NoteMessage => pitch (note_data x.2))
       <$> filter (fun x : nat * NoteMessage => note_channel x.2 = c)
             (enumerate notes)).

Definition channels (notes : list NoteMessage) : list Z :=
  first_occurrences
    ((fun x : nat * NoteMessage => note_channel x.2) <$> enumerate notes).

(** Groups that partition the references by key. *)
Definition keyed (notes : list NoteMessage) (gs : list ((Z * Z) * list nat))
  : Prop :=
  NoDup gs.*1
  /\ forall k g, (k, g) ∈ gs ->
       NoDup g
       /\ forall i, i ∈ g -> (i < length notes)%nat /\ key_of notes i = k.

(** The loop over the flattened groups. *)
Abbreviation resolve_groups :=
  (foldl (fun notes (entry : (Z * Z) * list nat) => resolve_group notes entry.2)).

(** ** Predicates of the round trip *)

(** The five fields that identify a note. *)
Definition note_tuple (msg : NoteMessage) : Z * Z * Z * Z * Z :=
  (pitch (note_data msg), note_channel msg, start (note_data msg),
   end_ (note_data msg), velocity (note_data msg)).

(** The note-on and the note-off that [dict_to_midi] writes for a note. *)
Definition on_event (msg : NoteMessage) : mido.Message :=
  mido.NoteOn (pitch (note_data msg)) (velocity (note_data msg))
    (note_channel msg) (start (note_data msg)).
Definition off_event (msg : NoteMessage) : mido.Message :=
  mido.NoteOn (pitch (note_data msg)) 0 (note_channel msg)
    (end_ (note_data msg)).

(** The events of the track of [dict_to_midi] when mido accepts every
    message: the five loops in order. *)
Definition end_messages (end_msgs : list ((Z * Z) * list (Z * Z)))
  : list mido.Message :=
  (fun '(pitch, channel, end_tick) => mido.NoteOn pitch 0 channel end_tick)
    <$> end_events end_msgs.

Definition track_events (md : MidiDict) : list mido.Message :=
  ((fun tempo_msg => mido.SetTempo (tempo_data tempo_msg) (tempo_tick tempo_msg))
     <$> tempo_msgs md)
  ++ ((fun pedal_msg =>
         mido.ControlChange 64 (pedal_data pedal_msg * 127)
           (pedal_channel pedal_msg) (pedal_tick pedal_msg))
        <$> pedal_msgs md)
  ++ ((fun instrument_msg =>
         mido.ProgramChange (instrument_data instrument_msg)
           (instrument_channel instrument_msg) (instrument_tick instrument_msg))
        <$> instrument_msgs md)
  ++ ((fun note_msg =>
         mido.NoteOn (pitch (note_data note_msg)) (velocity (note_data note_msg))
           (note_channel note_msg) (start (note_data note_msg)))
        <$> note_msgs md)
  ++ end_messages (end_msgs_of (note_msgs md)).

(** The ranges of MIDI: data bytes in 0..127, channels in 0..15, tempo in
    0..2^24-1.  The pedal value written is [data * 127], so a pedal message
    is in range when its data is 0 or 1. *)
Definition data_byte (value : Z) : Prop := 0 <= value <= 127.
Definition channel_ok (channel : Z) : Prop := 0 <= channel <= 15.

Definition midi_ranges (md : MidiDict) : Prop :=
  Forall (fun msg => 0 <= tempo_data msg <= 16777215) (tempo_msgs md)
  /\ Forall (fun msg => data_byte (pedal_data msg * 127)
                        /\ channel_ok (pedal_channel msg)) (pedal_msgs md)
  /\ Forall (fun msg => data_byte (instrument_data msg)
                        /\ channel_ok (instrument_channel msg))
       (instrument_msgs md)
  /\ Forall (fun msg => data_byte (pitch (note_data msg))
                        /\ data_byte (velocity (note_data msg))
                        /\ channel_ok (note_channel msg)) (note_msgs md).

(** The note the pairer emits for a note-on and note-off pair: its tick is
    its start. *)
Definition paired (msg : NoteMessage) : NoteMessage :=
  mkNote (note_data msg) (start (note_data msg)) (note_channel msg).

(** The key of [last_note_on]. *)
Definition pairer_key (msg : NoteMessage) : Z * Z :=
  (pitch (note_data msg), note_channel msg).

(** The key of [end_msgs]. *)
Definition end_key (msg : NoteMessage) : Z * Z :=
  (note_channel msg, pitch (note_data msg)).

(** Events that are not note events. *)
Definition is_other (message : mido.Message) : Prop :=
  match message with
  | mido.NoteOn _ _ _ _ | mido.NoteOff _ _ _ _ => False
  | _ => True
  end.

(** Notes of positive length and positive velocity. *)
Definition sounding (notes : list NoteMessage) : Prop :=
  Forall (fun msg => start (note_data msg) < end_ (note_data msg)
                     /\ 0 < velocity (note_data msg)) notes.

(** The state of the pairer in the middle of a sorted track written from
    the notes [N]: [opens] are the references of the notes whose note-on is
    read and whose note-off is still in [rest], [pend] those whose two
    events are both still in [rest]. *)
Record pairing (N : list NoteMessage) (st : extract_state)
    (rest : list mido.Message) (opens pend : list nat) : Prop := mkPairing {
  pairing_events :
    exists others, Forall is_other others /\
      rest ≡ₚ others ++ (on_event ∘ (N !!!.) <$> pend)
                ++ (off_event ∘ (N !!!.) <$> opens)
                ++ (off_event ∘ (N !!!.) <$> pend);
  pairing_sorted :
    StronglySorted (fun a b => sort_fn_leb a b = true) rest;
  pairing_refs :
    NoDup (opens ++ pend)
    /\ forall i, i ∈ opens ++ pend -> (i < length N)%nat;
  pairing_keys : NoDup (pairer_key ∘ (N !!!.) <$> opens);
  pairing_open :
    forall i, i ∈ opens ->
      last_note_on st !! pairer_key (N !!! i)
      = Some [(start (note_data (N !!! i)), velocity (note_data (N !!! i)))];
  pairing_closed :
    forall k l, last_note_on st !! k = Some l ->
      exists i, i ∈ opens /\ pairer_key (N !!! i) = k;
  pairing_time :
    forall i message, i ∈ opens -> message ∈ rest ->
      start (note_data (N !!! i)) <= mido.time message
}.

(** ** Dictionary form of a [MidiDict] *)

(** [MidiDictData]: the seven keys of the dictionary form. *)
Record MidiDictData := mkMidiDictData {
  data_meta_msgs : list MetaMessage;
  data_tempo_msgs : list TempoMessage;
  data_pedal_msgs : list PedalMessage;
  data_instrument_msgs : list InstrumentMessage;
  data_note_msgs : list NoteMessage;
  data_ticks_per_beat : Z;
  data_metadata : list (string * string)
}.

(** [MidiDict.get_msg_dict]. *)
Definition get_msg_dict (md : MidiDict) : MidiDictData :=
  mkMidiDictData (meta_msgs md) (tempo_msgs md) (pedal_msgs md)
    (instrument_msgs md) (note_msgs md) (ticks_per_beat md) (metadata md).

(** [MidiDict.from_msg_dict]: [cls( **msg_dict)].  The assertion on the key
    set holds for every [MidiDictData]. *)
Definition from_msg_dict (msg_dict : MidiDictData) : MidiDict :=
  MidiDict_init (data_meta_msgs msg_dict) (data_tempo_msgs msg_dict)
    (data_pedal_msgs msg_dict) (data_instrument_msgs msg_dict)
    (data_note_msgs msg_dict) (data_ticks_per_beat msg_dict)
    (data_metadata msg_dict).

(** ** Filters on programs and instruments *)

(** [len(set(l))]. *)
Definition set_len `{EqDecision A} (l : list A) : Z :=
  Z.of_nat (length (remove_dups l)).

(** [test_max_programs]. *)
Definition test_max_programs (midi_dict : MidiDict) (max : Z) : bool * Z :=
  let present_programs := instrument_data <$> instrument_msgs midi_dict in
  if set_len present_programs <=? max
  then (true, set_len present_programs)
  else (false, set_len present_programs).

(** [[program_to_instrument[msg["data"]] for msg in msgs]]. *)
Fixpoint instruments_of (msgs : list InstrumentMessage) : result (list string) :=
  match msgs with
  | [] => Ok []
  | msg :: rest =>
      name ← dict_getitem PROGRAM_TO_INSTRUMENT (instrument_data msg);
      names ← instruments_of rest;
      Ok (name :: names)
  end.

(** [test_max_instruments]. *)
Definition test_max_instruments (midi_dict : MidiDict) (max : Z)
  : result (bool * Z) :=
  present_instruments ← instruments_of (instrument_msgs midi_dict);
  if set_len present_instruments <=? max
  then Ok (true, set_len present_instruments)
  else Ok (false, set_len present_instruments).

(** ** Predicates for the instrument filter *)

(** Program [p] is one that [remove_instruments] looks for: it lies in
    1..127 and the config sets its instrument group to true. *)
Definition flagged (config : gmap string bool) (p : Z) : Prop :=
  1 <= p <= 127
  /\ (PROGRAM_TO_INSTRUMENT !! p ≫= fun name => config !! name) = Some true.

(** Channel [c] is not the drum channel and some instrument message puts a
    flagged program on it. *)
Definition removed_channel (config : gmap string bool) (md : MidiDict)
    (c : Z) : Prop :=
  c ≠ 9
  /\ Exists (fun msg => instrument_channel msg = c
                        /\ flagged config (instrument_data msg))
       (instrument_msgs md).

#[local] Instance flagged_dec config p : Decision (flagged config p).
Proof. unfold flagged. apply _. Defined.

#[local] Instance removed_channel_dec config md c :
  Decision (removed_channel config md c).
Proof. unfold removed_channel. apply _. Defined.

(** ** What the pairer reads from one event *)

(** The message that [_extract_track_data] appends to each of its lists on
    reading [message], if any. *)
Definition meta_of (message : mido.Message) : option MetaMessage :=
  match message with
  | mido.Meta type_ text _ =>
      if decide (type_ = "text"%string \/ type_ = "copyright"%string)
      then Some (mkMeta type_ text) else None
  | _ => None
  end.

Definition tempo_of (message : mido.Message) : option TempoMessage :=
  match message with
  | mido.SetTempo tempo t => Some (mkTempo tempo t)
  | _ => None
  end.

Definition pedal_of (message : mido.Message) : option PedalMessage :=
  match message with
  | mido.ControlChange control value channel t =>
      if control =? 64
      then Some (mkPedal (if value <? 64 then 0 else 1) t channel)
      else None
  | _ => None
  end.

Definition instrument_of (message : mido.Message) : option InstrumentMessage :=
  match message with
  | mido.ProgramChange program channel t => Some (mkInstrument program t channel)
  | _ => None
  end.

(** [message] releases the key [(note, channel)] at tick [t]: a note-off, or
    a note-on with velocity 0. *)
Definition is_release (note channel t : Z) (message : mido.Message) : Prop :=
  match message with
  | mido.NoteOff n _ c t' => n = note /\ c = channel /\ t' = t
  | mido.NoteOn n v c t' => n = note /\ v = 0 /\ c = channel /\ t' = t
  | _ => False
  end.

(** A note comes from a note-on of positive velocity at position [i] of the
    track and a release of its key at a later position [j]. *)
Definition paired_in (track : list mido.Message) (msg : NoteMessage) : Prop :=
  exists i j,
    (i < j)%nat
    /\ track !! i = Some (mido.NoteOn (pitch (note_data msg))
                            (velocity (note_data msg)) (note_channel msg)
                            (start (note_data msg)))
    /\ (exists message, track !! j = Some message
          /\ is_release (pitch (note_data msg)) (note_channel msg)
               (end_ (note_data msg)) message).


(** ** [midi_to_dict] *)

(** The loop over [mid.tracks] that compiles the track data: the lists of
    every track, appended in track order. *)
Definition compile_tracks (tracks : list (list mido.Message))
  : list MetaMessage * list TempoMessage * list PedalMessage
    * list InstrumentMessage * list NoteMessage :=
  foldl
    (fun '(meta, tempo, pedal, instrument, note) mid_track =>
       let '(meta', tempo', pedal', instrument', note') :=
         _extract_track_data mid_track in
       (meta ++ meta', tempo ++ tempo', pedal ++ pedal',
        instrument ++ instrument', note ++ note'))
    ([], [], [], [], []) tracks.

(** [midi_to_dict].  The times of the file are made absolute in place, so
    the file is returned with the dictionary.  The metadata functions
    depend on the config file and on the name of the file; they read the
    file and the message lists and give the entries of the metadata
    dictionary, or raise.  They are the parameter [collect_metadata]; the
    message lists do not depend on them. *)
Definition midi_to_dict
    (collect_metadata :
       mido.MidiFile -> MidiDictData -> result (list (string * string)))
    (mid : mido.MidiFile) : result (mido.MidiFile * MidiDictData) :=
  let mid :=
    mido.mkMidiFile (mido.type_of mid) (mido.file_ticks_per_beat mid)
      (to_absolute 0 <$> mido.tracks mid) in
  let '(meta, tempo, pedal, instrument, note) :=
    compile_tracks (mido.tracks mid) in
  let midi_dict_data :=
    mkMidiDictData meta
      (sorted (by_tick tempo_tick) tempo)
      (sorted (by_tick pedal_tick) pedal)
      (sorted (by_tick instrument_tick) instrument)
      (sorted (by_tick note_tick) note)
      (mido.file_ticks_per_beat mid) [] in
  metadata ← collect_metadata mid midi_dict_data;
  Ok (mid,
      mkMidiDictData (data_meta_msgs midi_dict_data)
        (data_tempo_msgs midi_dict_data) (data_pedal_msgs midi_dict_data)
        (data_instrument_msgs midi_dict_data) (data_note_msgs midi_dict_data)
        (data_ticks_per_beat midi_dict_data) metadata).

(** ** What the overlap resolver does to an end tick *)

(** The end of note [i] in [notes1] is its end in [notes0], or it is cut to
    the start of another note [r] of the same channel and pitch that starts
    no earlier than [i] and before the end of [i]. *)
Definition cut_by (notes0 notes1 : list NoteMessage) (i : nat) : Prop :=
  note_end notes1 i = note_end notes0 i
  \/ exists r, (r < length notes0)%nat /\ r ≠ i
       /\ key_of notes0 r = key_of notes0 i
       /\ note_end notes1 i = note_start notes0 r
       /\ note_start notes0 i <= note_start notes0 r < note_end notes0 i.

(** ** The shape of a channel's pedal intervals *)


(** * Properties *)

(** ** Tempo map *)

(** C1, as stated: with the tempo map [(0, 500000)] and 480 ticks per beat,
    [get_duration_ms 0 480] would be 1000 ms.  It is not. *)
Lemma one_beat_is_not_1000_ms :
  get_duration_ms 0 480 [mkTempo 500000 0] 480 ≠ Ok 1000.
Proof. vm_compute. discriminate. Qed.

(** C1, amended: with the tempo map [(0, 500000)] and 480 ticks per beat,
    [get_duration_ms 0 480] is 500 ms: one quarter note of 500000
    microseconds. *)
Theorem get_duration_ms_one_beat :
  get_duration_ms 0 480 [mkTempo 500000 0] 480 = Ok 500.
Proof. vm_compute. reflexivity. Qed.

(** C5, on the code: duration additivity within 1 ms fails when the split
    point lies after the last tempo change.  With tempo changes at ticks 0
    and 100 and 100 ticks per beat, the ticks 0 <= 200 <= 300 give 2500 ms
    for the whole range but 1500 ms + 1500 ms for the two halves: the search
    loop ends without a break at the last index, one is still subtracted,
    and the query that starts at 200 adds the segment before the last one
    with a negative number of ticks.  Split at tick 50, before the last
    tempo change, the same range adds up: 250 ms + 2250 ms. *)
Theorem get_duration_ms_split_after_last_tempo :
  get_duration_ms 0 300 two_tempo_map 100 = Ok 2500
  /\ get_duration_ms 0 200 two_tempo_map 100 = Ok 1500
  /\ get_duration_ms 200 300 two_tempo_map 100 = Ok 1500
  /\ search_idx 200 0 two_tempo_map None = Some 1%nat
  /\ get_duration_ms 0 50 two_tempo_map 100 = Ok 250
  /\ get_duration_ms 50 300 two_tempo_map 100 = Ok 2250.
Proof. vm_compute. repeat split; reflexivity. Qed.

(** ** Pedal interval builder *)

Lemma getitem_nil {A} (i : Z) : getitem (@nil A) i = Raise IndexError.
Proof.
  unfold getitem. simpl.
  destruct (i <? 0) eqn:Hi; simpl.
  - rewrite Z.add_0_r, Hi. reflexivity.
  - rewrite Hi. reflexivity.
Qed.

Lemma build_pedal_intervals_no_notes md :
  note_msgs md = [] -> _build_pedal_intervals md = Raise IndexError.
Proof.
  intros Hn. unfold _build_pedal_intervals.
  destruct (pedal_scan _) as [status intervals].
  simpl. rewrite Hn, getitem_nil. reflexivity.
Qed.

(** C2, on the code: the pedal of channel 0 goes down at tick 5 and stays
    down; the notes end at 100 and at 20, the one ending at 20 being last in
    the list.  The interval is closed at 20, not at the largest end 100, and
    [resolve_pedal] leaves the note ending at 20 as it is. *)
Theorem build_pedal_intervals_closes_at_last_note :
  note_msgs held_pedal_doc = [note 0 60 0 100 80; note 0 62 10 20 80]
  /\ match _build_pedal_intervals held_pedal_doc with
     | Ok (_, intervals) => intervals !! 0 = Some [(5, 20)]
     | Raise _ => False
     end
  /\ match resolve_pedal held_pedal_doc with
     | Ok md => note_msgs md = [note 0 60 0 100 80; note 0 62 10 20 80]
     | Raise _ => False
     end.
Proof. vm_compute. repeat split; reflexivity. Qed.

(** C10: with no note at all and a pedal that is still down after the last
    pedal message, [_build_pedal_intervals] raises IndexError at
    [self.note_msgs[-1]], and so does [resolve_pedal]. *)
Theorem resolve_pedal_needs_a_note md channel :
  note_msgs md = [] ->
  is_Some ((pedal_scan (sorted (by_tick pedal_tick) (pedal_msgs md))).1
             !! channel) ->
  _build_pedal_intervals md = Raise IndexError
  /\ resolve_pedal md = Raise IndexError.
Proof.
  intros Hn _. split.
  - by apply build_pedal_intervals_no_notes.
  - unfold resolve_pedal. by rewrite build_pedal_intervals_no_notes.
Qed.

Lemma resolve_pedal_needs_a_note_witness :
  let md := MidiDict_init [] [] [pedal_on 5 0] [] [] 480 [] in
  _build_pedal_intervals md = Raise IndexError
  /\ resolve_pedal md = Raise IndexError.
Proof.
  apply (resolve_pedal_needs_a_note _ 0).
  - reflexivity.
  - vm_compute. eauto.
Defined.


(** ** The stable sort *)

Section sorted_facts.
Context {A : Type} (leb : A -> A -> bool).

Lemma insert_sorted_perm (x : A) (l : list A) :
  insert_sorted leb x l ≡ₚ x :: l.
Proof.
  induction l as [|y l IH]; simpl; [done|].
  destruct (leb x y); [done|].
  rewrite IH. apply Permutation_swap.
Qed.

Lemma sorted_perm (l : list A) : sorted leb l ≡ₚ l.
Proof.
  induction l as [|x l IH]; simpl; [done|].
  by rewrite insert_sorted_perm, IH.
Qed.

Hypothesis leb_total : forall a b, leb a b = false -> leb b a = true.
Hypothesis leb_trans :
  forall a b c, leb a b = true -> leb b c = true -> leb a c = true.

Lemma insert_sorted_sorted (x : A) (l : list A) :
  StronglySorted (fun a b => leb a b = true) l ->
  StronglySorted (fun a b => leb a b = true) (insert_sorted leb x l).
Proof.
  induction 1 as [|y l Hl IH Hy]; simpl.
  - repeat constructor.
  - destruct (leb x y) eqn:Hxy.
    + constructor; [by constructor|].
      constructor; [done|].
      eapply Forall_impl; [exact Hy|]. intros z Hz. by eapply leb_trans.
    + constructor; [done|].
      rewrite insert_sorted_perm. constructor; [by apply leb_total|done].
Qed.

Lemma sorted_sorted (l : list A) :
  StronglySorted (fun a b => leb a b = true) (sorted leb l).
Proof.
  induction l as [|x l IH]; simpl; [constructor|].
  by apply insert_sorted_sorted.
Qed.
End sorted_facts.

Lemma pair_leb_total (a b : Z * Z) : pair_leb a b = false -> pair_leb b a = true.
Proof. unfold pair_leb. destruct a, b; simpl. lia. Qed.

Lemma pair_leb_trans (a b c : Z * Z) :
  pair_leb a b = true -> pair_leb b c = true -> pair_leb a c = true.
Proof. unfold pair_leb. destruct a, b, c; simpl. lia. Qed.

Lemma pair_leb_spec (a b : Z * Z) :
  pair_leb a b = true <-> a.1 < b.1 \/ (a.1 = b.1 /\ a.2 <= b.2).
Proof. unfold pair_leb. lia. Qed.

(** Positions in a strongly sorted list are related in order. *)
Lemma StronglySorted_lookup {A} (R : relation A) (l : list A) (p q : nat) a b :
  StronglySorted R l -> (p < q)%nat -> l !! p = Some a -> l !! q = Some b ->
  R a b.
Proof.
  intros Hs. revert p q. induction Hs as [|x l Hs IH Hx]; intros p q Hpq Hp Hq.
  - by rewrite lookup_nil in Hp.
  - destruct q as [|q]; [lia|]. destruct p as [|p]; simpl in *.
    + injection Hp as <-. rewrite Forall_forall in Hx. apply Hx.
      by eapply list_elem_of_lookup_2.
    + eapply IH; [|done..]. lia.
Qed.

(** ** The overlap resolver: one group *)

Lemma forget_end_set_end e msg : forget_end (set_end e msg) = forget_end msg.
Proof. reflexivity. Qed.

Lemma forget_end_alter e k (notes : list NoteMessage) :
  forget_end <$> alter (set_end e) k notes = forget_end <$> notes.
Proof.
  apply list_eq. intros i. rewrite !list_lookup_fmap.
  destruct (decide (k = i)) as [->|Hne].
  - rewrite list_lookup_alter_eq. by destruct (notes !! i).
  - by rewrite list_lookup_alter_ne.
Qed.

Lemma forget_end_lookup (n1 n2 : list NoteMessage) i :
  forget_end <$> n1 = forget_end <$> n2 ->
  forget_end (n1 !!! i) = forget_end (n2 !!! i).
Proof.
  intros Heq. rewrite !list_lookup_total_alt.
  assert (H : (forget_end <$> n1) !! i = (forget_end <$> n2) !! i)
    by by rewrite Heq.
  rewrite !list_lookup_fmap in H.
  destruct (n1 !! i), (n2 !! i); simpl in *; congruence.
Qed.

Lemma note_start_forget (n1 n2 : list NoteMessage) i :
  forget_end <$> n1 = forget_end <$> n2 -> note_start n1 i = note_start n2 i.
Proof.
  intros Heq%(forget_end_lookup _ _ i). unfold note_start.
  change (start (note_data (forget_end (n1 !!! i)))
          = start (note_data (forget_end (n2 !!! i)))).
  by rewrite Heq.
Qed.

Lemma note_end_alter_ne e k (notes : list NoteMessage) i :
  k ≠ i -> note_end (alter (set_end e) k notes) i = note_end notes i.
Proof. intros. unfold note_end. by rewrite list_lookup_total_alter_ne. Qed.

Lemma note_end_alter_eq e k (notes : list NoteMessage) :
  (k < length notes)%nat -> note_end (alter (set_end e) k notes) k = e.
Proof. intros. unfold note_end. by rewrite list_lookup_total_alter_eq. Qed.

Lemma note_start_alter e k (notes : list NoteMessage) i :
  note_start (alter (set_end e) k notes) i = note_start notes i.
Proof. apply note_start_forget, forget_end_alter. Qed.

(** The loop writes end ticks only. *)
Lemma trim_loop_forget msgs rest : forall idx prev notes,
  forget_end <$> trim_loop msgs idx rest prev notes = forget_end <$> notes.
Proof.
  induction rest as [|r rest IH]; intros idx prev notes; simpl; [done|].
  rewrite IH. destruct (_ <? _); [apply forget_end_alter|done].
Qed.

Lemma prev_position_lt len idx : (idx < len)%nat -> (prev_position len idx < len)%nat.
Proof. destruct idx; simpl; lia. Qed.

(** The loop writes to members of [msgs] only. *)
Lemma trim_loop_frame msgs rest i : forall idx prev notes,
  (idx + length rest = length msgs)%nat -> i ∉ msgs ->
  trim_loop msgs idx rest prev notes !! i = notes !! i.
Proof.
  induction rest as [|r rest IH]; intros idx prev notes Hlen Hi; simpl; [done|].
  simpl in Hlen. rewrite IH by (done || lia).
  destruct (_ <? _); [|done].
  apply list_lookup_alter_ne. intros <-. apply Hi.
  apply list_elem_of_lookup_total_2, prev_position_lt. lia.
Qed.

(** Nothing is written when no note ends after the start of the next. *)
Lemma trim_loop_noop msgs rest : forall idx prev notes,
  (forall r, head rest = Some r -> prev <= note_start notes r) ->
  adjacent_ok notes rest ->
  trim_loop msgs idx rest prev notes = notes.
Proof.
  induction rest as [|r rest IH]; intros idx prev notes Hprev Hadj; simpl;
    [done|].
  specialize (Hprev r eq_refl).
  destruct (_ <? _) eqn:Hlt; [lia|].
  apply IH.
  - intros r' Hr'. destruct rest as [|r'' rest]; [done|].
    injection Hr' as ->. by apply (Hadj 0%nat).
  - intros p a b Ha Hb. by apply (Hadj (S p)).
Qed.


(** After the loop, every visited note ends no later than its successor
    starts.  [visited] is the part of [msgs] already visited. *)
Lemma trim_loop_adjacent msgs rest : forall visited prev notes,
  msgs = visited ++ rest -> NoDup msgs ->
  (forall i, i ∈ msgs -> (i < length notes)%nat) ->
  match last visited with
  | Some d => prev = note_end notes d
  | None => forall r, head rest = Some r -> prev <= note_start notes r
  end ->
  adjacent_ok notes visited ->
  adjacent_ok (trim_loop msgs (length visited) rest prev notes) msgs.
Proof.
  induction rest as [|r rest IH]; intros visited prev notes Hmsgs Hnd Hval Hprev Hadj.
  - simpl. by rewrite Hmsgs, app_nil_r.
  - simpl.
    replace (S (length visited)) with (length (visited ++ [r]))
      by (rewrite length_app; simpl; lia).
    destruct visited as [|d visited0 _] using rev_ind.
    + (* first note: nothing before it *)
      simpl in Hprev. specialize (Hprev r eq_refl).
      destruct (_ <? _) eqn:?; [lia|].
      apply IH; try done.
    + rewrite last_snoc in Hprev.
      assert (Hk : msgs !!! prev_position (length msgs) (length (visited0 ++ [d])) = d).
      { rewrite length_app. simpl. rewrite Nat.add_1_r. simpl.
        rewrite Hmsgs, <- app_assoc. simpl.
        by rewrite list_lookup_total_middle. }
      rewrite Hk. clear Hk.
      set (notes' := if note_start notes r <? prev
                     then alter (set_end (note_start notes r)) d notes
                     else notes).
      assert (Hstart : forall i, note_start notes' i = note_start notes i).
      { intros i. subst notes'. destruct (_ <? _); [apply note_start_alter|done]. }
      assert (Hlen : length notes' = length notes).
      { subst notes'. destruct (_ <? _); [apply length_alter|done]. }
      assert (Hd : (d < length notes)%nat).
      { apply Hval. rewrite Hmsgs. set_solver. }
      pose proof Hnd as Hnd'.
      rewrite Hmsgs, <- app_assoc in Hnd. simpl in Hnd.
      apply NoDup_app in Hnd as (Hnd0 & Hdisj & Hnd1).
      apply NoDup_cons in Hnd1 as [Hd1 Hnd1].
      assert (Hdr : d ≠ r) by set_solver.
      assert (Hend : forall i, i ≠ d -> note_end notes' i = note_end notes i).
      { intros i Hi. subst notes'.
        destruct (_ <? _); [by apply note_end_alter_ne|done]. }
      apply IH.
      * by rewrite <- !app_assoc in *.
      * done.
      * intros i Hi. rewrite Hlen. by apply Hval.
      * rewrite last_snoc. symmetry. apply Hend. congruence.
      * intros p a b Ha Hb. rewrite Hstart.
        destruct (decide (S p < length (visited0 ++ [d]))%nat) as [Hp|Hp].
        -- rewrite lookup_app_l in Hb by done.
           rewrite lookup_app_l in Ha by lia.
           rewrite Hend; [by eapply Hadj|].
           intros ->. rewrite length_app in Hp. simpl in Hp.
           rewrite lookup_app_l in Ha by lia.
           apply Hdisj with d; [by eapply list_elem_of_lookup_2|set_solver].
        -- assert (S p = length (visited0 ++ [d])) as Hp'.
           { apply lookup_lt_Some in Hb. rewrite length_app in Hb.
             simpl in Hb. lia. }
           rewrite Hp' in Hb. rewrite list_lookup_middle in Hb by done.
           injection Hb as <-.
           rewrite length_app in Hp'. simpl in Hp'.
           assert (p = length visited0) as -> by lia.
           rewrite <- app_assoc in Ha. simpl in Ha.
           rewrite list_lookup_middle in Ha by done. injection Ha as <-.
           subst notes'. destruct (_ <? _) eqn:Hlt.
           ++ rewrite note_end_alter_eq by done. lia.
           ++ lia.
Qed.

Lemma start_end_leb_total notes a b :
  start_end_leb notes a b = false -> start_end_leb notes b a = true.
Proof. apply pair_leb_total. Qed.

Lemma start_end_leb_trans notes a b c :
  start_end_leb notes a b = true -> start_end_leb notes b c = true ->
  start_end_leb notes a c = true.
Proof. apply pair_leb_trans. Qed.

Lemma start_end_leb_spec notes a b :
  start_end_leb notes a b = true <->
  note_start notes a < note_start notes b
  \/ (note_start notes a = note_start notes b
      /\ note_end notes a <= note_end notes b).
Proof. unfold start_end_leb. by rewrite pair_leb_spec. Qed.

Lemma resolve_group_forget notes group :
  forget_end <$> resolve_group notes group = forget_end <$> notes.
Proof. apply trim_loop_forget. Qed.

Lemma resolve_group_length notes group :
  length (resolve_group notes group) = length notes.
Proof.
  rewrite <- (length_fmap forget_end), resolve_group_forget.
  apply length_fmap.
Qed.

Lemma resolve_group_start notes group i :
  note_start (resolve_group notes group) i = note_start notes i.
Proof. apply note_start_forget, resolve_group_forget. Qed.

Lemma resolve_group_frame notes group i :
  i ∉ group -> resolve_group notes group !! i = notes !! i.
Proof.
  intros Hi. apply trim_loop_frame; [done|].
  by rewrite sorted_perm.
Qed.

Lemma resolve_group_frame_end notes group i :
  i ∉ group -> note_end (resolve_group notes group) i = note_end notes i.
Proof.
  intros Hi. unfold note_end.
  by rewrite !list_lookup_total_alt, resolve_group_frame.
Qed.

Lemma sorted_group_head notes group r :
  (forall i, i ∈ group -> -1 <= note_start notes i) ->
  head (sorted (start_end_leb notes) group) = Some r ->
  -1 <= note_start notes r.
Proof.
  intros Hge Hr. apply Hge. rewrite <- (sorted_perm (start_end_leb notes)).
  by apply head_Some_elem_of.
Qed.

(** One pass over a group of distinct references resolves it. *)
Lemma resolve_group_resolved notes group :
  NoDup group ->
  (forall i, i ∈ group -> (i < length notes)%nat) ->
  (forall i, i ∈ group -> -1 <= note_start notes i) ->
  resolved (resolve_group notes group) group.
Proof.
  intros Hnd Hval Hge.
  set (msgs := sorted (start_end_leb notes) group).
  assert (Hperm : msgs ≡ₚ group) by apply sorted_perm.
  assert (Hadj : adjacent_ok (resolve_group notes group) msgs).
  { apply (trim_loop_adjacent msgs msgs [] (-1) notes); try done.
    - by rewrite Hperm.
    - intros i Hi. apply Hval. by rewrite <- Hperm.
    - simpl. intros r Hr. by eapply sorted_group_head. }
  assert (Hsorted : forall p q a b, (p <= q)%nat ->
            msgs !! p = Some a -> msgs !! q = Some b ->
            note_start notes a <= note_start notes b).
  { intros p q a b Hpq Ha Hb.
    destruct (decide (p = q)) as [->|Hne].
    - rewrite Ha in Hb. injection Hb as ->. lia.
    - assert (Hle : start_end_leb notes a b = true).
      { eapply (StronglySorted_lookup
                  (fun a b => start_end_leb notes a b = true) msgs p q);
          [|lia|done..].
        apply sorted_sorted;
          [apply start_end_leb_total|apply start_end_leb_trans]. }
      apply start_end_leb_spec in Hle. lia. }
  exists msgs. split; [done|].
  intros p q a b Hpq Ha Hb. rewrite !resolve_group_start. split.
  - eapply Hsorted; [|done..]. lia.
  - destruct (lookup_lt_is_Some_2 msgs (S p)) as [c Hc].
    { apply lookup_lt_Some in Hb. lia. }
    specialize (Hadj p a c Ha Hc). rewrite resolve_group_start in Hadj.
    assert (note_start notes c <= note_start notes b)
      by (eapply (Hsorted (S p) q); [lia|done..]).
    lia.
Qed.

Lemma resolve_group_noop notes group :
  (forall i, i ∈ group -> -1 <= note_start notes i) ->
  adjacent_ok notes (sorted (start_end_leb notes) group) ->
  resolve_group notes group = notes.
Proof.
  intros Hge Hadj. apply trim_loop_noop; [|done].
  intros r Hr. by eapply sorted_group_head.
Qed.

(** In a group without overlaps, sorting by (start, end) leaves no note
    ending after its successor starts. *)
Lemma sorted_adjacent_ok notes group :
  NoDup group ->
  (forall a b, a ∈ group -> b ∈ group -> a ≠ b ->
     start_end_leb notes a b = true ->
     note_end notes a <= note_start notes b) ->
  adjacent_ok notes (sorted (start_end_leb notes) group).
Proof.
  intros Hnd Hok p a b Ha Hb.
  set (msgs := sorted (start_end_leb notes) group) in *.
  assert (Hperm : msgs ≡ₚ group) by apply sorted_perm.
  apply Hok.
  - rewrite <- Hperm. by eapply list_elem_of_lookup_2.
  - rewrite <- Hperm. by eapply list_elem_of_lookup_2.
  - intros ->. rewrite <- Hperm in Hnd.
    pose proof (NoDup_lookup _ _ _ _ Hnd Ha Hb). lia.
  - eapply (StronglySorted_lookup
              (fun a b => start_end_leb notes a b = true) msgs p (S p));
      [|lia|done..].
    apply sorted_sorted; [apply start_end_leb_total|apply start_end_leb_trans].
Qed.

(** A resolved group stays as it is in a second pass. *)
Lemma resolved_adjacent_ok notes group :
  NoDup group -> resolved notes group ->
  adjacent_ok notes (sorted (start_end_leb notes) group).
Proof.
  intros Hnd (msgs & Hperm & Hord). apply sorted_adjacent_ok; [done|].
  intros a b Ha Hb Hab Hle.
  rewrite <- Hperm in Ha, Hb.
  apply list_elem_of_lookup_1 in Ha as [pa Hpa].
  apply list_elem_of_lookup_1 in Hb as [pb Hpb].
  apply start_end_leb_spec in Hle.
  destruct (Nat.lt_total pa pb) as [Hlt|[->|Hlt]].
  - by apply (Hord pa pb).
  - congruence.
  - destruct (Hord pb pa b a Hlt Hpb Hpa). lia.
Qed.

(** ** Dictionaries filled by a loop *)

Lemma filter_none {A} (P : A -> Prop) `{!forall x, Decision (P x)} (l : list A) :
  (forall x, x ∈ l -> ~ P x) -> filter P l = [].
Proof.
  induction l as [|x l IH]; intros Hl; [done|].
  rewrite filter_cons, decide_False by (apply Hl; left).
  apply IH. intros y Hy. apply Hl. by right.
Qed.

Section first_occurrences.
Context {K : Type} `{EqDecision K}.

Lemma first_occurrences_snoc (l : list K) (k : K) :
  first_occurrences (l ++ [k])
  = if decide (k ∈ first_occurrences l) then first_occurrences l
    else first_occurrences l ++ [k].
Proof. unfold first_occurrences. by rewrite foldl_snoc. Qed.

Lemma elem_of_first_occurrences (l : list K) (k : K) :
  k ∈ first_occurrences l <-> k ∈ l.
Proof.
  induction l as [|x l IH] using rev_ind.
  - done.
  - rewrite first_occurrences_snoc. case_decide; set_solver.
Qed.

Lemma NoDup_first_occurrences (l : list K) : NoDup (first_occurrences l).
Proof.
  induction l as [|x l IH] using rev_ind.
  - constructor.
  - rewrite first_occurrences_snoc. case_decide; [done|].
    apply NoDup_app. repeat split; [done| |apply NoDup_singleton].
    set_solver.
Qed.
End first_occurrences.

Section regroup.
Context {K V X : Type} `{EqDecision K}.
Context (key : X -> K) (add : X -> V -> V) (d0 : V).

Lemma setdefault_update_present (F : K -> V) (f : V -> V) (k : K) ks :
  NoDup ks -> k ∈ ks ->
  setdefault_update k f d0 ((fun c => (c, F c)) <$> ks)
  = (fun c => (c, if decide (c = k) then f (F c) else F c)) <$> ks.
Proof.
  induction 1 as [|c ks Hc Hnd IH]; intros Hk; [by apply elem_of_nil in Hk|].
  csimpl. destruct (decide (c = k)) as [->|Hne].
  - f_equal. apply list_fmap_ext. intros i c' Hc'.
    rewrite decide_False; [done|]. intros ->.
    apply Hc. by eapply list_elem_of_lookup_2.
  - f_equal. apply IH. set_solver.
Qed.

Lemma setdefault_update_absent (F : K -> V) (f : V -> V) (k : K) ks :
  k ∉ ks ->
  setdefault_update k f d0 ((fun c => (c, F c)) <$> ks)
  = ((fun c => (c, F c)) <$> ks) ++ [(k, f d0)].
Proof.
  induction ks as [|c ks IH]; intros Hk; [done|].
  csimpl. rewrite decide_False by set_solver.
  f_equal. apply IH. set_solver.
Qed.

(** A dictionary filled by [d[key(x)] = add(x, d[key(x)])] over a list:
    its keys in first-occurrence order, each with the fold over the
    elements that have the key. *)
Lemma regroup_spec (l : list X) :
  foldl (fun d x => setdefault_update (key x) (add x) d0 d) [] l
  = (fun k => (k, foldl (fun v x => add x v) d0
                    (filter (fun x => key x = k) l)))
      <$> first_occurrences (key <$> l).
Proof.
  induction l as [|x l IH] using rev_ind; [done|].
  rewrite foldl_snoc, IH, fmap_app. simpl.
  rewrite first_occurrences_snoc.
  case_decide as Hin.
  - rewrite setdefault_update_present
      by (done || apply NoDup_first_occurrences).
    apply list_fmap_ext. intros i k Hk. f_equal.
    rewrite filter_app, foldl_app, filter_cons, filter_nil.
    case_decide; case_decide; simpl; congruence.
  - rewrite setdefault_update_absent by done.
    rewrite fmap_app. simpl. f_equal.
    + apply list_fmap_ext. intros i k Hk. f_equal.
      rewrite filter_app, foldl_app, filter_cons, filter_nil.
      case_decide as Hx; [|done].
      exfalso. apply Hin. rewrite Hx.
      by eapply list_elem_of_lookup_2.
    + f_equal. f_equal.
      rewrite filter_app, foldl_app, filter_cons, filter_nil.
      rewrite decide_True by done. simpl. f_equal.
      rewrite (filter_none _ l); [done|].
      intros y Hy Hky. apply Hin. rewrite <- Hky.
      apply elem_of_first_occurrences, list_elem_of_fmap. eauto.
Qed.
End regroup.

(** ** The groups of [resolve_overlaps] *)

Lemma foldl_ext {A B} (f g : A -> B -> A) (l : list B) (a : A) :
  (forall a x, f a x = g a x) -> foldl f a l = foldl g a l.
Proof. intros Hfg. revert a. induction l as [|x l IH]; intros a; simpl; [done|]. by rewrite Hfg, IH. Qed.

Lemma foldl_snoc_fst {A B} (l : list (A * B)) :
  foldl (fun v x => v ++ [x.1]) [] l = l.*1.
Proof.
  induction l as [|x l IH] using rev_ind; [done|].
  by rewrite foldl_snoc, IH, fmap_app.
Qed.

Lemma elem_of_enumerate {A} (l : list A) (i : nat) (x : A) :
  (i, x) ∈ enumerate l <-> l !! i = Some x.
Proof.
  unfold enumerate. rewrite list_elem_of_lookup. split.
  - intros [j Hj]. apply lookup_zip_with_Some in Hj as (i' & x' & Heq & Hi & Hx).
    injection Heq as -> ->. apply lookup_seq in Hi as [-> _]. done.
  - intros Hx. exists i. apply lookup_zip_with_Some. exists i, x.
    repeat split; [|done]. apply lookup_seq. split; [done|].
    by eapply lookup_lt_Some.
Qed.

Lemma enumerate_fst {A} (l : list A) : (enumerate l).*1 = seq 0 (length l).
Proof. unfold enumerate. apply fst_zip. by rewrite length_seq. Qed.


Lemma group_notes_spec notes :
  group_notes notes
  = (fun c => (c, (fun p => (p, group_refs notes c p))
                    <$> channel_pitches notes c))
      <$> channels notes.
Proof.
  unfold group_notes.
  rewrite (foldl_ext _
    (fun d x =>
       setdefault_update (note_channel x.2)
         (setdefault_update (pitch (note_data x.2)) (fun l => l ++ [x.1]) [])
         [] d)) by (by intros d [i msg]).
  rewrite (regroup_spec (fun x : nat * NoteMessage => note_channel x.2)
             (fun x : nat * NoteMessage =>
                setdefault_update (pitch (note_data x.2))
                  (fun l => l ++ [x.1]) [])).
  apply list_fmap_ext. intros _ c _. f_equal.
  rewrite (regroup_spec (fun x : nat * NoteMessage => pitch (note_data x.2))
             (fun (x : nat * NoteMessage) l => l ++ [x.1])).
  apply list_fmap_ext. intros _ p _. f_equal.
  apply foldl_snoc_fst.
Qed.

Lemma elem_of_group_refs notes c p i :
  i ∈ group_refs notes c p <->
  exists msg, notes !! i = Some msg /\ note_channel msg = c
              /\ pitch (note_data msg) = p.
Proof.
  unfold group_refs. rewrite list_elem_of_fmap. split.
  - intros ([i' msg] & -> & Hin).
    apply list_elem_of_filter in Hin as [Hp Hin].
    apply list_elem_of_filter in Hin as [Hc Hin].
    apply elem_of_enumerate in Hin. eauto.
  - intros (msg & Hi & Hc & Hp). exists (i, msg). split; [done|].
    apply list_elem_of_filter. split; [done|].
    apply list_elem_of_filter. split; [done|].
    by apply elem_of_enumerate.
Qed.

Lemma elem_of_group_refs_key notes c p i :
  i ∈ group_refs notes c p <->
  (i < length notes)%nat /\ key_of notes i = (c, p).
Proof.
  rewrite elem_of_group_refs. unfold key_of. split.
  - intros (msg & Hi & <- & <-). split; [by eapply lookup_lt_Some|].
    by rewrite (list_lookup_total_correct _ _ _ Hi).
  - intros [Hlt Hk]. apply lookup_lt_is_Some_2 in Hlt as [msg Hmsg].
    rewrite (list_lookup_total_correct _ _ _ Hmsg) in Hk.
    injection Hk as <- <-. eauto.
Qed.

Lemma NoDup_group_refs notes c p : NoDup (group_refs notes c p).
Proof.
  unfold group_refs. apply NoDup_fmap_fst.
  - intros i x y Hx Hy.
    apply list_elem_of_filter in Hx as [_ Hx].
    apply list_elem_of_filter in Hx as [_ Hx].
    apply list_elem_of_filter in Hy as [_ Hy].
    apply list_elem_of_filter in Hy as [_ Hy].
    apply elem_of_enumerate in Hx, Hy. congruence.
  - do 2 apply NoDup_filter.
    apply (NoDup_fmap_1 fst). rewrite enumerate_fst. apply NoDup_seq.
Qed.

Lemma keyed_groups_group_notes notes :
  keyed_groups (group_notes notes)
  = channels notes ≫= fun c =>
      (fun p => ((c, p), group_refs notes c p)) <$> channel_pitches notes c.
Proof.
  rewrite group_notes_spec. unfold keyed_groups.
  rewrite list_fmap_bind. apply list_bind_ext; [|done].
  intros c. simpl. by rewrite <- list_fmap_compose.
Qed.

Lemma elem_of_keyed_groups notes k g :
  (k, g) ∈ keyed_groups (group_notes notes) <->
  k.1 ∈ channels notes /\ k.2 ∈ channel_pitches notes k.1
  /\ g = group_refs notes k.1 k.2.
Proof.
  rewrite keyed_groups_group_notes, list_elem_of_bind. split.
  - intros (c & Hin & Hc). apply list_elem_of_fmap in Hin as (p & Heq & Hp).
    injection Heq as -> ->. done.
  - intros (Hc & Hp & ->). exists k.1. split; [|done].
    apply list_elem_of_fmap. exists k.2. by destruct k.
Qed.

Lemma keyed_groups_keys_NoDup notes :
  NoDup (keyed_groups (group_notes notes)).*1.
Proof.
  rewrite keyed_groups_group_notes.
  assert (Heq : forall cs : list Z,
            (cs ≫= fun c => (fun p => ((c, p), group_refs notes c p))
                              <$> channel_pitches notes c).*1
            = cs ≫= fun c => (fun p => (c, p)) <$> channel_pitches notes c).
  { induction cs as [|c cs IH]; [done|]. csimpl.
    rewrite fmap_app, IH. f_equal. by rewrite <- list_fmap_compose. }
  rewrite Heq. apply NoDup_bind.
  - intros c1 c2 [c p] _ _ H1 H2.
    apply list_elem_of_fmap in H1 as (? & [= -> ->] & _).
    apply list_elem_of_fmap in H2 as (? & [= -> _] & _). done.
  - intros c _. apply NoDup_fmap_2; [by intros ?? [=]|].
    apply NoDup_first_occurrences.
  - apply NoDup_first_occurrences.
Qed.

Lemma keyed_groups_cover notes i :
  (i < length notes)%nat ->
  (key_of notes i, group_refs notes (key_of notes i).1 (key_of notes i).2)
    ∈ keyed_groups (group_notes notes).
Proof.
  intros Hlt. apply lookup_lt_is_Some_2 in Hlt as [msg Hmsg].
  apply elem_of_keyed_groups. unfold key_of.
  rewrite (list_lookup_total_correct _ _ _ Hmsg). simpl.
  apply elem_of_enumerate in Hmsg.
  repeat split.
  - apply elem_of_first_occurrences, list_elem_of_fmap. by exists (i, msg).
  - apply elem_of_first_occurrences, list_elem_of_fmap. exists (i, msg).
    split; [done|]. by apply list_elem_of_filter.
Qed.

(** The two nested loops visit the flattened groups in order. *)
Lemma resolve_overlaps_notes_flat notes0 notes_c :
  foldl (fun notes entry => resolve_channel notes entry.2) notes0 notes_c
  = foldl (fun notes entry => resolve_group notes entry.2) notes0
      (keyed_groups notes_c).
Proof.
  revert notes0. induction notes_c as [|[c by_pitch] notes_c IH]; intros notes0;
    [done|].
  unfold keyed_groups. csimpl. rewrite foldl_app, foldl_fmap. simpl.
  rewrite IH. done.
Qed.

(** ** The overlap resolver: the whole document *)


Lemma resolve_groups_forget gs : forall notes,
  forget_end <$> resolve_groups notes gs = forget_end <$> notes.
Proof.
  induction gs as [|e gs IH]; intros notes; simpl; [done|].
  by rewrite IH, resolve_group_forget.
Qed.

Lemma key_of_forget (n1 n2 : list NoteMessage) i :
  forget_end <$> n1 = forget_end <$> n2 -> key_of n1 i = key_of n2 i.
Proof.
  intros Heq%(forget_end_lookup _ _ i). unfold key_of.
  change ((note_channel (forget_end (n1 !!! i)),
           pitch (note_data (forget_end (n1 !!! i))))
          = (note_channel (forget_end (n2 !!! i)),
             pitch (note_data (forget_end (n2 !!! i))))).
  by rewrite Heq.
Qed.

Lemma length_forget (n1 n2 : list NoteMessage) :
  forget_end <$> n1 = forget_end <$> n2 -> length n1 = length n2.
Proof. intros Heq. by rewrite <- (length_fmap forget_end n1), Heq, length_fmap. Qed.

Lemma resolve_groups_frame_end gs i : forall notes,
  (forall e, e ∈ gs -> i ∉ e.2) ->
  note_end (resolve_groups notes gs) i = note_end notes i.
Proof.
  induction gs as [|e gs IH]; intros notes Hi; simpl; [done|].
  rewrite IH by (intros; apply Hi; by right).
  apply resolve_group_frame_end, Hi. by left.
Qed.

Lemma resolved_ext n1 n2 group :
  (forall i, i ∈ group -> note_start n2 i = note_start n1 i
                          /\ note_end n2 i = note_end n1 i) ->
  resolved n1 group -> resolved n2 group.
Proof.
  intros Heq (msgs & Hperm & Hord). exists msgs. split; [done|].
  intros p q a b Hpq Ha Hb.
  destruct (Heq a) as [-> ->].
  { rewrite <- Hperm. by eapply list_elem_of_lookup_2. }
  destruct (Heq b) as [-> _].
  { rewrite <- Hperm. by eapply list_elem_of_lookup_2. }
  by eapply Hord.
Qed.


Lemma keyed_forget n1 n2 gs :
  forget_end <$> n1 = forget_end <$> n2 -> keyed n1 gs -> keyed n2 gs.
Proof.
  intros Heq [Hnd Hg]. split; [done|]. intros k g Hkg.
  destruct (Hg k g Hkg) as [Hndg Hi]. split; [done|].
  intros i Hin. destruct (Hi i Hin) as [Hlt <-].
  rewrite <- (length_forget _ _ Heq). split; [done|].
  symmetry. by apply key_of_forget.
Qed.

Lemma keyed_group_notes notes : keyed notes (keyed_groups (group_notes notes)).
Proof.
  split; [apply keyed_groups_keys_NoDup|].
  intros k g (_ & _ & ->)%elem_of_keyed_groups. split.
  - apply NoDup_group_refs.
  - intros i Hi%elem_of_group_refs_key. by destruct k.
Qed.

(** After all groups are visited, each of them is resolved. *)
Lemma resolve_groups_resolved gs : forall notes,
  keyed notes gs -> (forall i, -1 <= note_start notes i) ->
  forall k g, (k, g) ∈ gs -> resolved (resolve_groups notes gs) g.
Proof.
  induction gs as [|[k0 g0] gs IH]; intros notes [Hnd Hg] Hge k g Hin.
  { by apply elem_of_nil in Hin. }
  simpl. csimpl in Hnd. apply NoDup_cons in Hnd as [Hk0 Hnd].
  apply elem_of_cons in Hin as [[= -> ->]|Hin].
  - destruct (Hg k0 g0) as [Hndg Hi]; [by left|].
    eapply resolved_ext;
      [|apply (resolve_group_resolved notes g0); [done|naive_solver|auto]].
    intros i Hin. split.
    + apply note_start_forget, resolve_groups_forget.
    + apply resolve_groups_frame_end. intros [k' g'] Hin' Hi'. simpl in Hi'.
      destruct (Hg k' g') as [_ Hi2]; [by right|].
      apply Hk0. apply list_elem_of_fmap. exists (k', g'). split; [|done].
      simpl. destruct (Hi i Hin) as [_ <-]. by destruct (Hi2 i Hi').
  - apply IH with k; [| |done].
    + apply (keyed_forget notes); [by rewrite resolve_group_forget|].
      split; [done|]. intros k' g' Hin'. apply Hg. by right.
    + intros i. by rewrite resolve_group_start.
Qed.

Lemma resolve_groups_noop gs notes :
  (forall e, e ∈ gs -> resolve_group notes e.2 = notes) ->
  resolve_groups notes gs = notes.
Proof.
  induction gs as [|e gs IH]; intros He; simpl; [done|].
  rewrite He by (by left). apply IH. intros; apply He; by right.
Qed.

Lemma resolve_overlaps_notes_groups notes :
  resolve_overlaps_notes notes
  = resolve_groups notes (keyed_groups (group_notes notes)).
Proof. apply resolve_overlaps_notes_flat. Qed.

Lemma resolve_overlaps_notes_forget notes :
  forget_end <$> resolve_overlaps_notes notes = forget_end <$> notes.
Proof. rewrite resolve_overlaps_notes_groups. apply resolve_groups_forget. Qed.

Lemma note_start_nonneg notes i :
  ticks_nonneg notes -> -1 <= note_start notes i.
Proof.
  intros Hn. unfold note_start. rewrite list_lookup_total_alt.
  destruct (notes !! i) as [msg|] eqn:Hi; simpl; [|lia].
  unfold ticks_nonneg in Hn. rewrite Forall_forall in Hn.
  apply list_elem_of_lookup_2 in Hi. specialize (Hn msg Hi). lia.
Qed.

(** The groups depend on channels and pitches only. *)
Lemma group_notes_forget n1 n2 :
  forget_end <$> n1 = forget_end <$> n2 -> group_notes n1 = group_notes n2.
Proof.
  intros Heq. unfold group_notes, enumerate.
  rewrite (length_forget _ _ Heq).
  generalize (seq 0 (length n2)). generalize (@nil (Z * list (Z * list nat))).
  revert n2 Heq. induction n1 as [|a n1 IH]; intros [|b n2] Heq d idxs;
    try done.
  destruct idxs as [|i idxs]; [done|]. simpl.
  rewrite !fmap_cons in Heq. apply (inj2 cons) in Heq as [Hab Heq].
  rewrite (IH n2 Heq).
  replace (note_channel a) with (note_channel (forget_end a)) by done.
  replace (pitch (note_data a)) with (pitch (note_data (forget_end a))) by done.
  by rewrite Hab.
Qed.

Lemma resolved_no_overlap notes g i j :
  resolved notes g -> i ∈ g -> j ∈ g -> i ≠ j ->
  note_end notes i <= note_start notes j
  \/ note_end notes j <= note_start notes i.
Proof.
  intros (msgs & Hperm & Hord) Hi Hj Hij.
  rewrite <- Hperm in Hi, Hj.
  apply list_elem_of_lookup_1 in Hi as [p Hp].
  apply list_elem_of_lookup_1 in Hj as [q Hq].
  destruct (Nat.lt_total p q) as [Hlt|[->|Hlt]].
  - left. by apply (Hord p q).
  - congruence.
  - right. by apply (Hord q p).
Qed.

Lemma note_fields notes i msg :
  notes !! i = Some msg ->
  note_start notes i = start (note_data msg)
  /\ note_end notes i = end_ (note_data msg)
  /\ key_of notes i = (note_channel msg, pitch (note_data msg)).
Proof.
  intros Hi. unfold note_start, note_end, key_of.
  by rewrite (list_lookup_total_correct _ _ _ Hi).
Qed.

Lemma resolve_overlaps_notes_overlap_free notes :
  ticks_nonneg notes -> overlap_free (resolve_overlaps_notes notes).
Proof.
  intros Hn i j a b Hij Ha Hb [Hc Hp] [Hab Hba].
  pose proof (resolve_overlaps_notes_forget notes) as Hf.
  destruct (note_fields _ _ _ Ha) as (Hsa & Hea & Hka).
  destruct (note_fields _ _ _ Hb) as (Hsb & Heb & Hkb).
  assert (Hli : (i < length notes)%nat).
  { rewrite <- (length_forget _ _ Hf). by eapply lookup_lt_Some. }
  assert (Hlj : (j < length notes)%nat).
  { rewrite <- (length_forget _ _ Hf). by eapply lookup_lt_Some. }
  rewrite (key_of_forget _ _ i Hf) in Hka.
  rewrite (key_of_forget _ _ j Hf) in Hkb.
  set (g := group_refs notes (key_of notes i).1 (key_of notes i).2).
  assert (Hres : resolved (resolve_overlaps_notes notes) g).
  { rewrite resolve_overlaps_notes_groups.
    apply (resolve_groups_resolved _ notes) with (key_of notes i).
    - apply keyed_group_notes.
    - intros. by apply note_start_nonneg.
    - by apply keyed_groups_cover. }
  destruct (resolved_no_overlap _ g i j Hres); try done.
  - apply elem_of_group_refs_key. split; [done|]. by destruct (key_of notes i).
  - apply elem_of_group_refs_key. split; [done|].
    rewrite Hkb, Hka, Hc, Hp. done.
  - lia.
  - lia.
Qed.

Lemma resolve_overlaps_notes_noop notes :
  ticks_nonneg notes -> start_le_end notes -> overlap_free notes ->
  resolve_overlaps_notes notes = notes.
Proof.
  intros Hn Hse Hfree. rewrite resolve_overlaps_notes_groups.
  apply resolve_groups_noop. intros [k g] Hin. simpl.
  destruct (keyed_group_notes notes) as [_ Hg].
  destruct (Hg k g Hin) as [Hnd Hi].
  apply resolve_group_noop; [intros; by apply note_start_nonneg|].
  apply sorted_adjacent_ok; [done|].
  intros a b Ha Hb Hab Hle.
  destruct (Hi a Ha) as [Hla Hka]. destruct (Hi b Hb) as [Hlb Hkb].
  apply lookup_lt_is_Some_2 in Hla as [ma Hma].
  apply lookup_lt_is_Some_2 in Hlb as [mb Hmb].
  destruct (note_fields _ _ _ Hma) as (Hsa & Hea & Hka').
  destruct (note_fields _ _ _ Hmb) as (Hsb & Heb & Hkb').
  apply start_end_leb_spec in Hle.
  assert (Hfa : start (note_data ma) <= end_ (note_data ma)).
  { unfold start_le_end in Hse. rewrite Forall_forall in Hse.
    apply Hse. by eapply list_elem_of_lookup_2. }
  assert (Hfb : start (note_data mb) <= end_ (note_data mb)).
  { unfold start_le_end in Hse. rewrite Forall_forall in Hse.
    apply Hse. by eapply list_elem_of_lookup_2. }
  assert (Hno : ~ overlap ma mb).
  { apply (Hfree a b); try done.
    rewrite Hka' in Hka. rewrite Hkb' in Hkb. subst k.
    injection Hkb as Hc Hp. by split. }
  unfold overlap in Hno. lia.
Qed.

Lemma resolve_overlaps_notes_idempotent notes :
  ticks_nonneg notes ->
  resolve_overlaps_notes (resolve_overlaps_notes notes)
  = resolve_overlaps_notes notes.
Proof.
  intros Hn.
  pose proof (resolve_overlaps_notes_forget notes) as Hf.
  set (notes' := resolve_overlaps_notes notes) in *.
  rewrite (resolve_overlaps_notes_groups notes').
  rewrite (group_notes_forget notes' notes Hf).
  apply resolve_groups_noop. intros [k g] Hin. simpl.
  destruct (keyed_group_notes notes) as [_ Hg].
  destruct (Hg k g Hin) as [Hnd _].
  assert (Hge : forall i, -1 <= note_start notes' i).
  { intros i. rewrite (note_start_forget _ _ i Hf). by apply note_start_nonneg. }
  apply resolve_group_noop; [auto|].
  apply resolved_adjacent_ok; [done|].
  subst notes'. rewrite resolve_overlaps_notes_groups.
  apply (resolve_groups_resolved _ notes) with k; [|intros; by apply note_start_nonneg|done].
  apply keyed_group_notes.
Qed.

Lemma forget_end_fields (a b : NoteMessage) :
  forget_end a = forget_end b ->
  start (note_data a) = start (note_data b)
  /\ velocity (note_data a) = velocity (note_data b)
  /\ pitch (note_data a) = pitch (note_data b)
  /\ note_channel a = note_channel b
  /\ note_tick a = note_tick b.
Proof. destruct a as [[] ? ?], b as [[] ? ?]. intros [=]. by subst. Qed.

(** The interval test and sharing a tick: two notes whose ranges
    [start, end) share a tick overlap, and two overlapping notes of positive
    length share a tick. *)
Lemma shared_tick_overlap (a b : NoteMessage) (t : Z) :
  start (note_data a) <= t < end_ (note_data a) ->
  start (note_data b) <= t < end_ (note_data b) ->
  overlap a b.
Proof. unfold overlap. lia. Qed.

Lemma overlap_shared_tick (a b : NoteMessage) :
  start (note_data a) < end_ (note_data a) ->
  start (note_data b) < end_ (note_data b) ->
  overlap a b ->
  exists t, start (note_data a) <= t < end_ (note_data a)
            /\ start (note_data b) <= t < end_ (note_data b).
Proof.
  unfold overlap. intros Ha Hb [H1 H2].
  exists (Z.max (start (note_data a)) (start (note_data b))). lia.
Qed.

(** Ticks are not negative in the data model, and the loop relies on it:
    [prev_off_tick] starts at -1, so a first note that starts before -1
    writes to [msgs[-1]], the last note of the group. *)
Example resolve_overlaps_negative_start :
  resolve_overlaps_notes [note 0 60 (-5) 10 80] = [note 0 60 (-5) (-5) 80].
Proof. reflexivity. Qed.

(** With negative starts a second call can write again: the first call
    changes end ticks, the ties among equal starts are sorted differently
    the second time, and [msgs[-1]] is another note. *)
Example resolve_overlaps_negative_start_twice :
  let notes := [note 0 60 (-9) (-8) 80; note 0 60 (-3) 50 80;
                note 0 60 (-3) 60 80] in
  resolve_overlaps_notes notes
  = [note 0 60 (-9) (-8) 80; note 0 60 (-3) (-3) 80; note 0 60 (-3) (-9) 80]
  /\ resolve_overlaps_notes (resolve_overlaps_notes notes)
     = [note 0 60 (-9) (-8) 80; note 0 60 (-3) (-9) 80; note 0 60 (-3) (-9) 80].
Proof. split; reflexivity. Qed.

(** C8, as stated: a note of length zero inside another note of its key
    shares no tick with it, since its range [start, end) is empty, so the
    document is free of overlapping ranges (and its ticks are not negative
    and no note ends before it starts); yet [resolve_overlaps] cuts the
    outer note 0..10 to 0..5. *)
Lemma resolve_overlaps_cuts_at_empty_note :
  ticks_nonneg (note_msgs inner_empty_note_doc)
  /\ start_le_end (note_msgs inner_empty_note_doc)
  /\ tick_disjoint (note_msgs inner_empty_note_doc)
  /\ note_msgs (resolve_overlaps inner_empty_note_doc)
     = [note 0 60 0 5 80; note 0 60 5 5 80]
  /\ resolve_overlaps inner_empty_note_doc ≠ inner_empty_note_doc.
Proof.
  split; [unfold ticks_nonneg; simpl; repeat constructor; simpl; lia|].
  split; [unfold start_le_end; simpl; repeat constructor; simpl; lia|].
  split; [|split; [reflexivity|discriminate]].
  intros i j a b Hij Ha Hb _ (t & H1 & H2).
  destruct i as [|[|i]], j as [|[|j]]; simpl in *; simplify_eq; simpl in *;
    lia.
Qed.

Lemma tick_disjoint_overlap_free notes :
  positive_length notes -> tick_disjoint notes -> overlap_free notes.
Proof.
  intros Hpos Hdis i j a b Hij Ha Hb Hkey Hov.
  apply (Hdis i j a b Hij Ha Hb Hkey).
  unfold positive_length in Hpos. rewrite Forall_lookup in Hpos.
  apply overlap_shared_tick; [by eapply Hpos..|done].
Qed.

Lemma overlap_free_tick_disjoint notes :
  overlap_free notes -> tick_disjoint notes.
Proof.
  intros Hfree i j a b Hij Ha Hb Hkey (t & H1 & H2).
  apply (Hfree i j a b Hij Ha Hb Hkey). by eapply shared_tick_overlap.
Qed.

(** C8, amended: for a document whose notes start at non-negative ticks,
    after [resolve_overlaps] no two notes of the same channel and pitch
    overlap (each starts before the other ends; in particular their ranges
    [start, end) share no tick); the call keeps the number of notes and,
    position by position, their start tick and velocity (and pitch, channel
    and tick); the notes (pitch 60, channel 0, 0..100) and (pitch 60,
    channel 0, 50..150) become 0..50 and 50..150; and the call changes
    nothing on a document with no note ending before it starts in which no
    two notes of the same channel and pitch overlap in that sense, so also
    on a document of notes with start < end whose ranges [start, end)
    share no tick within a channel and pitch. *)
Theorem resolve_overlaps_spec md :
  ticks_nonneg (note_msgs md) ->
  overlap_free (note_msgs (resolve_overlaps md))
  /\ tick_disjoint (note_msgs (resolve_overlaps md))
  /\ length (note_msgs (resolve_overlaps md)) = length (note_msgs md)
  /\ (forall i msg, note_msgs md !! i = Some msg ->
      exists msg', note_msgs (resolve_overlaps md) !! i = Some msg'
        /\ start (note_data msg') = start (note_data msg)
        /\ velocity (note_data msg') = velocity (note_data msg)
        /\ pitch (note_data msg') = pitch (note_data msg)
        /\ note_channel msg' = note_channel msg
        /\ note_tick msg' = note_tick msg)
  /\ (forall v1 v2,
      resolve_overlaps_notes [note 0 60 0 100 v1; note 0 60 50 150 v2]
      = [note 0 60 0 50 v1; note 0 60 50 150 v2])
  /\ (start_le_end (note_msgs md) -> overlap_free (note_msgs md) ->
      resolve_overlaps md = md)
  /\ (positive_length (note_msgs md) -> tick_disjoint (note_msgs md) ->
      resolve_overlaps md = md).
Proof.
  intros Hn.
  assert (Hnoop : start_le_end (note_msgs md) -> overlap_free (note_msgs md) ->
                  resolve_overlaps md = md).
  { intros Hse Hfree. unfold resolve_overlaps.
    rewrite resolve_overlaps_notes_noop by done. by destruct md. }
  simpl.
  pose proof (resolve_overlaps_notes_forget (note_msgs md)) as Hf.
  split; [by apply resolve_overlaps_notes_overlap_free|].
  split; [by apply overlap_free_tick_disjoint,
             resolve_overlaps_notes_overlap_free|].
  split; [by apply length_forget|].
  split.
  { intros i msg Hi.
    assert (H : (forget_end <$> resolve_overlaps_notes (note_msgs md)) !! i
                = Some (forget_end msg)).
    { rewrite Hf, list_lookup_fmap, Hi. done. }
    apply list_lookup_fmap_Some in H as (msg' & Heq & Hi').
    exists msg'. split; [done|].
    symmetry in Heq. by apply forget_end_fields in Heq. }
  split; [done|]. split; [done|].
  intros Hpos Hdis. apply Hnoop.
  - eapply Forall_impl; [exact Hpos|]. simpl. lia.
  - by apply tick_disjoint_overlap_free.
Qed.

Lemma resolve_overlaps_spec_witness :
  overlap_free (note_msgs (resolve_overlaps overlapping_doc)).
Proof.
  apply (resolve_overlaps_spec overlapping_doc).
  unfold ticks_nonneg. simpl. repeat constructor; simpl; lia.
Defined.

(** C9: for a document whose notes start at non-negative ticks,
    [resolve_overlaps] applied twice gives the same document as applied
    once. *)
Theorem resolve_overlaps_idempotent md :
  ticks_nonneg (note_msgs md) ->
  resolve_overlaps (resolve_overlaps md) = resolve_overlaps md.
Proof.
  intros Hn. unfold resolve_overlaps at 1 3. simpl.
  by rewrite resolve_overlaps_notes_idempotent.
Qed.

Lemma resolve_overlaps_idempotent_witness :
  resolve_overlaps (resolve_overlaps overlapping_doc)
  = resolve_overlaps overlapping_doc.
Proof.
  apply resolve_overlaps_idempotent.
  unfold ticks_nonneg. simpl. repeat constructor; simpl; lia.
Defined.
(** ** Redundant pedal pruner *)

(** What the pruner does keep right: a pedal pair that passes
    [_is_pedal_useful] contains the end of a note of the channel, and a
    channel without notes loses all its pedal messages. *)

Lemma useful_loop_sound pedal_start_tick pedal_end_tick rest :
  forall note_start,
  useful_loop pedal_start_tick pedal_end_tick note_start rest = true ->
  exists msg, msg ∈ rest
    /\ pedal_start_tick <= end_ (note_data msg) <= pedal_end_tick.
Proof.
  induction rest as [|msg rest IH]; intros note_start; simpl.
  - by destruct (_ <=? _).
  - destruct (_ <=? _); [|done].
    destruct (_ && _) eqn:Hin.
    + intros _. exists msg. split; [by left|lia].
    + intros (msg' & Hmsg' & Hend)%IH. exists msg'. split; [by right|done].
Qed.

Lemma is_pedal_useful_sound pedal_start_tick pedal_end_tick notes :
  _is_pedal_useful pedal_start_tick pedal_end_tick notes = Ok true ->
  exists msg, msg ∈ notes
    /\ pedal_start_tick <= end_ (note_data msg) <= pedal_end_tick.
Proof.
  unfold _is_pedal_useful. destruct (getitem notes 0) as [msg|]; [|done].
  simpl. intros [= H]. by eapply useful_loop_sound.
Qed.

Lemma is_pedal_useful_total pedal_start_tick pedal_end_tick msg notes :
  exists b, _is_pedal_useful pedal_start_tick pedal_end_tick (msg :: notes) = Ok b.
Proof. unfold _is_pedal_useful. simpl. eauto. Qed.

Lemma process_pedal_msgs_total channel len msg notes entries : forall st,
  exists st', process_pedal_msgs channel len (msg :: notes) st entries = Ok st'.
Proof.
  induction entries as [|[idx pedal_msg] entries IH]; intros [to_remove down];
    [simpl; eauto|].
  cbn [process_pedal_msgs]. unfold process_pedal_msg.
  destruct (negb _); [apply IH|].
  destruct down as [[down_tick down_idx]|].
  - destruct (pedal_data pedal_msg =? 1); [apply IH|].
    destruct (is_pedal_useful_total down_tick (pedal_tick pedal_msg) msg notes)
      as [b ->].
    apply IH.
  - destruct (pedal_data pedal_msg =? 1); apply IH.
Qed.

Lemma elem_of_remove_idxs {A} (to_remove : list nat) (msgs : list A) (x : A) :
  x ∈ remove_idxs to_remove msgs <->
  exists i, msgs !! i = Some x /\ i ∉ to_remove.
Proof.
  unfold remove_idxs. rewrite list_elem_of_fmap. split.
  - intros ([i y] & -> & [Hi Hin]%list_elem_of_filter).
    apply elem_of_enumerate in Hin. eauto.
  - intros (i & Hi & Hni). exists (i, x). split; [done|].
    apply list_elem_of_filter. split; [done|]. by apply elem_of_enumerate.
Qed.

(** A pass over one channel always returns, leaves the notes alone and
    only removes pedal messages; when the channel has no note, none of its
    pedal messages is left. *)
Lemma process_channel_pedals_spec channel md :
  exists md', _process_channel_pedals channel md = Ok md'
    /\ note_msgs md' = note_msgs md
    /\ (forall x, x ∈ pedal_msgs md' -> x ∈ pedal_msgs md)
    /\ (filter (fun msg => note_channel msg = channel) (note_msgs md) = [] ->
        forall x, x ∈ pedal_msgs md' -> pedal_channel x ≠ channel).
Proof.
  unfold _process_channel_pedals.
  destruct (filter _ (note_msgs md)) as [|msg notes] eqn:Hnotes.
  - eexists. split; [done|]. simpl. repeat split.
    + intros x (i & Hi & _)%elem_of_remove_idxs.
      by eapply list_elem_of_lookup_2.
    + intros _ x (i & Hi & Hni)%elem_of_remove_idxs Hc.
      apply Hni. apply list_elem_of_fmap. exists (i, x). split; [done|].
      apply list_elem_of_filter. split; [done|]. by apply elem_of_enumerate.
  - destruct (process_pedal_msgs_total channel (length (pedal_msgs md)) msg
                notes (enumerate (pedal_msgs md)) ([], None))
      as [[to_remove down] ->].
    eexists. split; [done|]. simpl. repeat split; [|done].
    intros x (i & Hi & _)%elem_of_remove_idxs.
    by eapply list_elem_of_lookup_2.
Qed.

Lemma process_channels_spec channels : forall md,
  exists md', process_channels channels md = Ok md'
    /\ note_msgs md' = note_msgs md
    /\ (forall x, x ∈ pedal_msgs md' -> x ∈ pedal_msgs md)
    /\ (forall channel, channel ∈ channels ->
        filter (fun msg => note_channel msg = channel) (note_msgs md) = [] ->
        forall x, x ∈ pedal_msgs md' -> pedal_channel x ≠ channel).
Proof.
  induction channels as [|c channels IH]; intros md; simpl.
  - exists md. repeat split; try done. intros ch Hch. by apply elem_of_nil in Hch.
  - destruct (process_channel_pedals_spec c md) as (md1 & -> & Hn1 & Hsub1 & Hc1).
    simpl. destruct (IH md1) as (md' & -> & Hn & Hsub & Hc).
    exists md'. repeat split.
    + congruence.
    + auto.
    + intros ch Hch Hnone x Hx.
      apply elem_of_cons in Hch as [->|Hch].
      * apply Hc1; auto.
      * apply (Hc ch); [done| |done]. by rewrite Hn1.
Qed.

(** [remove_redundant_pedals] always returns, keeps the notes, and leaves
    no pedal message on a channel that has no note. *)
Lemma remove_redundant_pedals_no_notes set_iter md :
  is_set_iter set_iter ->
  exists md', remove_redundant_pedals set_iter md = Ok md'
    /\ note_msgs md' = note_msgs md
    /\ forall channel,
        filter (fun msg => note_channel msg = channel) (note_msgs md) = [] ->
        forall x, x ∈ pedal_msgs md' -> pedal_channel x ≠ channel.
Proof.
  intros Hs. unfold remove_redundant_pedals.
  destruct (process_channels_spec
              (set_iter (pedal_channel <$> pedal_msgs md)) md)
    as (md' & -> & Hn & Hsub & Hc).
  exists md'. split; [done|]. split; [done|].
  intros channel Hnone x Hx Hch.
  apply (Hc channel) with x; try done.
  apply (Hs (pedal_channel <$> pedal_msgs md)).
  apply list_elem_of_fmap. exists x. split; [done|]. by apply Hsub.
Qed.

Lemma set_iter_two (set_iter : list Z -> list Z) (l : list Z) (a b : Z) :
  is_set_iter set_iter -> a ≠ b ->
  (forall x, x ∈ l <-> x = a \/ x = b) ->
  set_iter l = [a; b] \/ set_iter l = [b; a].
Proof.
  intros Hs Hab Hl. destruct (Hs l) as [Hnd Hin].
  assert (Hmem : forall x, x ∈ set_iter l <-> x = a \/ x = b).
  { intros x. rewrite Hin. apply Hl. }
  clear Hin Hl.
  destruct (set_iter l) as [|x [|y [|z r]]].
  - exfalso. eapply (not_elem_of_nil a). apply Hmem. by left.
  - exfalso.
    assert (a = x) by (apply list_elem_of_singleton, Hmem; by left).
    assert (b = x) by (apply list_elem_of_singleton, Hmem; by right).
    congruence.
  - assert (Hx : x = a \/ x = b) by (apply Hmem; left).
    assert (Hy : y = a \/ y = b) by (apply Hmem; right; left).
    apply NoDup_cons in Hnd as [Hxy _].
    rewrite list_elem_of_singleton in Hxy.
    destruct Hx as [-> | ->], Hy as [-> | ->]; try done; auto.
  - exfalso.
    assert (Hx : x = a \/ x = b) by (apply Hmem; left).
    assert (Hy : y = a \/ y = b) by (apply Hmem; right; left).
    assert (Hz : z = a \/ z = b) by (apply Hmem; right; right; left).
    apply NoDup_cons in Hnd as [Hxy Hnd].
    apply NoDup_cons in Hnd as [Hyz _].
    rewrite !elem_of_cons in Hxy. rewrite elem_of_cons in Hyz.
    destruct Hx as [-> | ->], Hy as [-> | ->], Hz as [-> | ->];
      naive_solver.
Qed.

Lemma ascending_set_is_set_iter : is_set_iter ascending_set.
Proof.
  intros l. unfold ascending_set. split.
  - rewrite merge_sort_Permutation. apply NoDup_remove_dups.
  - intros x. rewrite merge_sort_Permutation. apply elem_of_remove_dups.
Qed.

(** C6, on the code: channel 0 presses its pedal at tick 10 and never
    releases it, and two pedal messages of channel 1 follow.  Both channels
    have notes.  Whatever the order in which the channels are visited, the
    pruner returns the document unchanged: the unmatched pedal-on of
    channel 0 is still there, because only the last message of the whole
    pedal list is tested for being a never-closed pedal. *)
Theorem remove_redundant_pedals_keeps_unclosed set_iter :
  is_set_iter set_iter ->
  pedal_msgs unclosed_pedal_doc = [pedal_on 10 0; pedal_on 20 1; pedal_off 30 1]
  /\ note_msgs unclosed_pedal_doc = [note 0 60 0 15 80; note 1 62 10 25 80]
  /\ remove_redundant_pedals set_iter unclosed_pedal_doc
     = Ok unclosed_pedal_doc.
Proof.
  intros Hs. split; [reflexivity|]. split; [reflexivity|].
  unfold remove_redundant_pedals.
  destruct (set_iter_two set_iter
              (pedal_channel <$> pedal_msgs unclosed_pedal_doc) 0 1 Hs)
    as [-> | ->].
  - done.
  - intros x. vm_compute pedal_msgs. simpl.
    rewrite !elem_of_cons, elem_of_nil. naive_solver.
  - vm_compute. reflexivity.
  - vm_compute. reflexivity.
Qed.

Lemma remove_redundant_pedals_keeps_unclosed_witness :
  remove_redundant_pedals ascending_set unclosed_pedal_doc
  = Ok unclosed_pedal_doc.
Proof.
  apply (remove_redundant_pedals_keeps_unclosed ascending_set).
  apply ascending_set_is_set_iter.
Defined.

(** On one channel the same happens when the pedal is pressed twice and
    never released: the second press is removed, the first one stays. *)
Lemma remove_redundant_pedals_repressed :
  process_channels [0] repressed_pedal_doc
  = Ok (set_pedal_msgs repressed_pedal_doc [pedal_on 10 0]).
Proof. vm_compute. reflexivity. Qed.

(** ** Instrument filter *)

(** C4, on the code: the flagged programs are collected over 1..127, so
    program 0 is never flagged.  With the piano group flagged, a channel on
    program 0 keeps all its messages, while the same channel on program 1 is
    emptied. *)
Theorem remove_instruments_skips_program_0 :
  PROGRAM_TO_INSTRUMENT !! 0 = Some "piano"%string
  /\ piano_config !! "piano"%string = Some true
  /\ remove_instruments piano_config (one_instrument_doc 0)
     = Ok (one_instrument_doc 0)
  /\ (note_msgs <$> (match remove_instruments piano_config (one_instrument_doc 1)
                     with Ok md => Some md | Raise _ => None end))
     = Some [].
Proof. vm_compute. repeat split; reflexivity. Qed.

(** ** Note pairer *)

(** C3, as stated: after a release at tick T the key would keep the entries
    that started at T whenever there is one.  A note-on at tick 5 followed
    by its note-off at tick 5: the entry started at 5, nothing is closed,
    and the key is deleted. *)
Lemma close_note_deletes_same_tick_entry :
  let st := extract_step extract_init (mido.NoteOn 60 64 0 5) in
  let st' := extract_step st (mido.NoteOff 60 0 0 5) in
  last_note_on st !! (60, 0) = Some [(5, 64)]
  /\ filter (fun entry : Z * Z => entry.1 = 5) [(5, 64)] = [(5, 64)]
  /\ last_note_on st' !! (60, 0) = None
  /\ x_note_msgs st' = [].
Proof. vm_compute. repeat split; reflexivity. Qed.

(** C3, amended: a note_off, or a note_on with velocity 0, at tick T for a
    key with open entries appends one note (pitch, channel, start = s,
    end = T, velocity = v) for every open entry with s <> T, in order; the
    key keeps exactly the entries with s = T when some entry was closed and
    some entry has s = T, and is deleted otherwise; other keys are left
    alone. *)
Theorem release_closes_open_notes st message note channel T open_notes :
  (exists v, message = mido.NoteOff note v channel T)
    \/ message = mido.NoteOn note 0 channel T ->
  last_note_on st !! (note, channel) = Some open_notes ->
  let st' := extract_step st message in
  let closing := filter (fun entry : Z * Z => entry.1 ≠ T) open_notes in
  let retained := filter (fun entry : Z * Z => entry.1 = T) open_notes in
  x_note_msgs st'
    = x_note_msgs st
      ++ ((fun entry : Z * Z =>
             mkNote (mkNoteData note entry.1 T entry.2) entry.1 channel)
            <$> closing)
  /\ (closing ≠ [] -> retained ≠ [] ->
      last_note_on st' !! (note, channel) = Some retained)
  /\ (closing = [] \/ retained = [] ->
      last_note_on st' !! (note, channel) = None)
  /\ (forall key, key ≠ (note, channel) ->
      last_note_on st' !! key = last_note_on st !! key).
Proof.
  intros Hmsg Hopen st' closing retained.
  assert (st' = close_note note channel T st) as ->.
  { subst st'. destruct Hmsg as [[v ->] | ->]; reflexivity. }
  unfold close_note. rewrite Hopen. simpl.
  fold closing retained. unfold notes_to_close, notes_to_keep.
  fold closing retained.
  split; [reflexivity|].
  destruct closing as [|c cs] eqn:Hc, retained as [|r rs] eqn:Hr; simpl.
  - repeat split; try done.
    + intros _. apply lookup_delete_eq.
    + intros key Hk. by apply lookup_delete_ne.
  - repeat split; try done.
    + intros _. apply lookup_delete_eq.
    + intros key Hk. by apply lookup_delete_ne.
  - repeat split; try done.
    + intros _. apply lookup_delete_eq.
    + intros key Hk. by apply lookup_delete_ne.
  - repeat split.
    + intros _ _. apply lookup_insert_eq.
    + intros [?|?]; done.
    + intros key Hk. by apply lookup_insert_ne.
Qed.

Lemma release_closes_open_notes_witness :
  let st := extract_run extract_init
              [mido.NoteOn 60 64 0 0; mido.NoteOn 60 70 0 5] in
  let st' := extract_step st (mido.NoteOn 60 0 0 5) in
  x_note_msgs st' = [note 0 60 0 5 64]
  /\ last_note_on st' !! (60, 0) = Some [(5, 70)].
Proof.
  intros st st'.
  destruct (release_closes_open_notes st (mido.NoteOn 60 0 0 5) 60 0 5
              [(0, 64); (5, 70)]) as (Hn & Hk & _).
  - right. reflexivity.
  - vm_compute. reflexivity.
  - split.
    + exact Hn.
    + apply Hk; vm_compute; discriminate.
Defined.


(** ** The round trip through [dict_to_midi] and the pairer *)

Lemma extract_step_other st message :
  is_other message ->
  x_note_msgs (extract_step st message) = x_note_msgs st
  /\ last_note_on (extract_step st message) = last_note_on st.
Proof.
  destruct message; simpl; try done; intros _.
  - by case_decide.
  - by destruct (_ =? _).
Qed.

Lemma extract_step_on st msg :
  0 < velocity (note_data msg) ->
  extract_step st (on_event msg)
  = open_note (pitch (note_data msg)) (velocity (note_data msg))
      (note_channel msg) (start (note_data msg)) st.
Proof. intros Hv. simpl. destruct (_ <? _) eqn:?; [done|lia]. Qed.

Lemma extract_step_off st msg :
  extract_step st (off_event msg)
  = close_note (pitch (note_data msg)) (note_channel msg)
      (end_ (note_data msg)) st.
Proof. reflexivity. Qed.

Lemma sort_fn_time message : (_sort_fn message).1 = mido.time message.
Proof. by destruct message. Qed.

Lemma sort_fn_leb_time a b :
  sort_fn_leb a b = true -> mido.time a <= mido.time b.
Proof.
  unfold sort_fn_leb. rewrite pair_leb_spec, !sort_fn_time. lia.
Qed.

Lemma sort_fn_leb_on_off a b :
  sort_fn_leb (on_event a) (off_event b) = true ->
  0 < velocity (note_data a) ->
  start (note_data a) < end_ (note_data b).
Proof. unfold sort_fn_leb. rewrite pair_leb_spec. simpl. lia. Qed.

Lemma sort_fn_leb_off_on a b :
  sort_fn_leb (off_event a) (on_event b) = true ->
  end_ (note_data a) <= start (note_data b).
Proof. unfold sort_fn_leb. rewrite pair_leb_spec. simpl. lia. Qed.

Lemma sort_fn_leb_total a b :
  sort_fn_leb a b = false -> sort_fn_leb b a = true.
Proof. apply pair_leb_total. Qed.

Lemma sort_fn_leb_trans a b c :
  sort_fn_leb a b = true -> sort_fn_leb b c = true -> sort_fn_leb a c = true.
Proof. apply pair_leb_trans. Qed.

Lemma sounding_lookup N i :
  sounding N -> (i < length N)%nat ->
  start (note_data (N !!! i)) < end_ (note_data (N !!! i))
  /\ 0 < velocity (note_data (N !!! i)).
Proof.
  intros Hs Hi. apply lookup_lt_is_Some_2 in Hi as [msg Hmsg].
  rewrite (list_lookup_total_correct _ _ _ Hmsg).
  unfold sounding in Hs. rewrite Forall_forall in Hs. apply Hs.
  by eapply list_elem_of_lookup_2.
Qed.

Lemma overlap_free_refs N i j :
  overlap_free N -> i ≠ j -> (i < length N)%nat -> (j < length N)%nat ->
  pairer_key (N !!! i) = pairer_key (N !!! j) ->
  start (note_data (N !!! i)) < end_ (note_data (N !!! j)) ->
  start (note_data (N !!! j)) < end_ (note_data (N !!! i)) ->
  False.
Proof.
  intros Hfree Hij Hi Hj Hk H1 H2.
  apply lookup_lt_is_Some_2 in Hi as [a Ha].
  apply lookup_lt_is_Some_2 in Hj as [b Hb].
  rewrite (list_lookup_total_correct _ _ _ Ha) in *.
  rewrite (list_lookup_total_correct _ _ _ Hb) in *.
  apply (Hfree i j a b); try done.
  injection Hk as Hp Hc. by split.
Qed.

Lemma on_event_ne_off_event a b :
  0 < velocity (note_data a) -> on_event a ≠ off_event b.
Proof. intros Hv [=]. lia. Qed.
Section pairing.
Variable N : list NoteMessage.
Hypothesis N_free : overlap_free N.
Hypothesis N_sounding : sounding N.

(** A note that is open cannot share its key with a note whose note-on
    comes next. *)
Lemma pairing_fresh_key st message rest opens pend i j :
  pairing N st (message :: rest) opens pend ->
  message = on_event (N !!! i) -> i ∈ pend -> j ∈ opens ->
  pairer_key (N !!! j) ≠ pairer_key (N !!! i).
Proof.
  intros [(others & Hoth & Hperm) Hs [Hnd Hlt] _ _ _ Htime] -> Hi Hj Hk.
  assert (Hli : (i < length N)%nat) by (apply Hlt; set_solver).
  assert (Hlj : (j < length N)%nat) by (apply Hlt; set_solver).
  destruct (sounding_lookup N i N_sounding Hli) as [Hsi Hvi].
  apply (overlap_free_refs N j i); try done.
  - intros ->. apply NoDup_app in Hnd as (_ & Hdisj & _). by apply (Hdisj i).
  - specialize (Htime j (on_event (N !!! i)) Hj). simpl in Htime.
    assert (start (note_data (N !!! j)) <= start (note_data (N !!! i)))
      by (apply Htime; left).
    lia.
  - apply sort_fn_leb_on_off; [|done].
    apply StronglySorted_inv in Hs as [_ Hall].
    rewrite Forall_forall in Hall. apply Hall.
    assert (Hin : off_event (N !!! j) ∈ on_event (N !!! i) :: rest).
    { rewrite Hperm. rewrite !elem_of_app. right. right. left.
      apply list_elem_of_fmap. by exists j. }
    apply elem_of_cons in Hin as [Heq|Hin]; [|done].
    symmetry in Heq. by apply on_event_ne_off_event in Heq.
Qed.

Lemma pairing_run rest : forall st opens pend,
  pairing N st rest opens pend ->
  x_note_msgs (extract_run st rest)
  ≡ₚ x_note_msgs st ++ (paired ∘ (N !!!.) <$> opens ++ pend).
Proof.
  induction rest as [|message rest IH]; intros st opens pend Hp.
  - destruct Hp as [(others & _ & Hperm) _ _ _ _ _ _].
    apply Permutation_nil_l in Hperm. symmetry in Hperm.
    apply app_eq_nil in Hperm as [_ Hperm].
    apply app_eq_nil in Hperm as [Hpend Hperm].
    apply app_eq_nil in Hperm as [Hopens _].
    apply fmap_nil_inv in Hpend, Hopens. subst. simpl.
    by rewrite app_nil_r.
  - pose proof Hp as [(others & Hoth & Hperm) Hs [Hnd Hlt] Hkeys Hopen Hclosed Htime].
    pose proof Hs as Hs'. apply StronglySorted_inv in Hs' as [Hsrest Hhead].
    rewrite Forall_forall in Hhead.
    assert (Hin : message ∈ message :: rest) by left.
    rewrite Hperm, !elem_of_app in Hin.
    simpl. destruct Hin as [Hin|[Hin|Hin]].
    + (* an event that is not a note event *)
      rewrite Forall_forall in Hoth.
      destruct (extract_step_other st message (Hoth _ Hin)) as [Hnotes Hlast].
      apply elem_of_Permutation in Hin as [others' Hothers].
      rewrite (IH _ opens pend), Hnotes; [done|].
      split; try done.
      * exists others'. split.
        -- apply Forall_forall. intros x Hx. apply Hoth. rewrite Hothers. by right.
        -- apply (Permutation_cons_inv (a := message)).
           rewrite Hperm, Hothers. done.
      * by rewrite Hlast.
      * intros k l. rewrite Hlast. apply Hclosed.
      * intros i m Hi Hm. apply Htime; [done|by right].
    + (* the note-on of a pending note *)
      apply list_elem_of_fmap in Hin as (i & Hmsg & Hi). simpl in Hmsg.
      assert (Hli : (i < length N)%nat) by (apply Hlt; set_solver).
      destruct (sounding_lookup N i N_sounding Hli) as [Hsi Hvi].
      assert (Hfresh : forall j, j ∈ opens ->
                pairer_key (N !!! j) ≠ pairer_key (N !!! i)).
      { intros j Hj. by eapply pairing_fresh_key. }
      assert (Hnone : last_note_on st !! pairer_key (N !!! i) = None).
      { destruct (last_note_on st !! pairer_key (N !!! i)) as [l|] eqn:Hl;
          [|done].
        destruct (Hclosed _ _ Hl) as (j & Hj & Hk). by destruct (Hfresh j Hj). }
      apply elem_of_Permutation in Hi as [pend' Hpend].
      subst message. rewrite extract_step_on by done.
      rewrite (IH _ (i :: opens) pend').
      { simpl. rewrite Hpend. rewrite !fmap_app, !fmap_cons. simpl.
        by rewrite Permutation_middle. }
      split.
      * exists others. split; [done|].
        apply (Permutation_cons_inv (a := on_event (N !!! i))).
        rewrite Hperm, Hpend, !fmap_cons. simpl.
        rewrite <- !Permutation_middle. done.
      * done.
      * split.
        -- rewrite Hpend in Hnd. simpl.
           by rewrite Permutation_middle.
        -- intros j Hj. apply Hlt. rewrite Hpend.
           rewrite <- Permutation_middle. done.
      * rewrite fmap_cons. apply NoDup_cons. split; [|done].
        intros (j & Hk & Hj)%list_elem_of_fmap. simpl in Hk.
        symmetry in Hk. by destruct (Hfresh j Hj).
      * intros j Hj. simpl. unfold pairer_key in Hnone |- *. simpl in Hnone.
        apply elem_of_cons in Hj as [->|Hj].
        -- rewrite lookup_insert_eq, Hnone. done.
        -- rewrite lookup_insert_ne; [by apply Hopen|].
           intros Hk. by destruct (Hfresh j Hj).
      * intros k l. simpl. intros Hl.
        destruct (decide (pairer_key (N !!! i) = k)) as [<-|Hne].
        -- exists i. split; [by left|done].
        -- unfold pairer_key in Hne. rewrite lookup_insert_ne in Hl by done.
           destruct (Hclosed _ _ Hl) as (j & Hj & Hk). exists j.
           split; [by right|done].
      * intros j m Hj Hm. apply elem_of_cons in Hj as [->|Hj].
        -- apply (sort_fn_leb_time (on_event (N !!! i)) m), Hhead, Hm.
        -- apply Htime; [done|by right].
    + destruct Hin as [Hin|Hin].
      * (* the note-off of an open note *)
        apply list_elem_of_fmap in Hin as (j & Hmsg & Hj). simpl in Hmsg.
        assert (Hlj : (j < length N)%nat) by (apply Hlt; set_solver).
        destruct (sounding_lookup N j N_sounding Hlj) as [Hsj Hvj].
        pose proof (Hopen j Hj) as Hoj.
        apply elem_of_Permutation in Hj as [opens' Hopens].
        subst message. rewrite extract_step_off.
        unfold close_note. unfold pairer_key in Hoj. simpl in Hoj.
        rewrite Hoj. unfold notes_to_close, notes_to_keep.
        rewrite !filter_cons, !filter_nil. simpl.
        rewrite decide_True by lia. rewrite decide_False by lia. simpl.
        rewrite Hopens in Hkeys, Hnd.
        rewrite fmap_cons in Hkeys. apply NoDup_cons in Hkeys as [Hjk Hkeys'].
        rewrite (IH _ opens' pend).
        { simpl. rewrite Hopens. rewrite <- app_assoc. simpl.
          replace (closed_note _ _ _ _) with (paired (N !!! j)); [done|].
          unfold closed_note, paired. simpl.
          by destruct (N !!! j) as [[] ? ?]. }
        split.
        -- exists others. split; [done|].
           apply (Permutation_cons_inv (a := off_event (N !!! j))).
           rewrite Hperm, Hopens, !fmap_cons. simpl.
           rewrite <- !Permutation_middle. done.
        -- done.
        -- split.
           ++ simpl in Hnd. by apply NoDup_cons in Hnd as [_ Hnd].
           ++ intros i Hi. apply Hlt. rewrite Hopens. by right.
        -- done.
        -- intros i Hi. simpl. rewrite lookup_delete_ne.
           ++ apply Hopen. rewrite Hopens. by right.
           ++ intros Hk. apply Hjk. apply list_elem_of_fmap.
              exists i. split; [|done]. simpl. unfold pairer_key. by rewrite Hk.
        -- intros k l. simpl. intros Hl.
           destruct (decide ((pitch (note_data (N !!! j)), note_channel (N !!! j)) = k))
             as [<-|Hne].
           ++ by rewrite lookup_delete_eq in Hl.
           ++ rewrite lookup_delete_ne in Hl by done.
              destruct (Hclosed _ _ Hl) as (i & Hi & Hk). exists i.
              split; [|done]. rewrite Hopens in Hi.
              apply elem_of_cons in Hi as [->|Hi]; [|done].
              by destruct Hne.
        -- intros i m Hi Hm. apply Htime; [|by right].
           rewrite Hopens. by right.
      * (* the note-off of a pending note cannot come first *)
        exfalso.
        apply list_elem_of_fmap in Hin as (j & Hmsg & Hj). simpl in Hmsg.
        assert (Hlj : (j < length N)%nat) by (apply Hlt; set_solver).
        destruct (sounding_lookup N j N_sounding Hlj) as [Hsj Hvj].
        assert (Hon : on_event (N !!! j) ∈ message :: rest).
        { rewrite Hperm, !elem_of_app. right. left.
          apply list_elem_of_fmap. by exists j. }
        apply elem_of_cons in Hon as [Heq|Hon].
        -- rewrite Hmsg in Heq. by apply on_event_ne_off_event in Heq.
        -- apply Hhead in Hon. rewrite Hmsg in Hon.
           apply sort_fn_leb_off_on in Hon. lia.
Qed.

End pairing.
(** *** The events written by [dict_to_midi] *)

Lemma foldl_snoc_fmap {A B} (f : A -> B) (l : list A) :
  foldl (fun v x => v ++ [f x]) [] l = f <$> l.
Proof.
  induction l as [|x l IH] using rev_ind; [done|].
  by rewrite foldl_snoc, IH, fmap_app.
Qed.

Lemma fmap_bind_comm {A B C} (f : B -> C) (g : A -> list B) (l : list A) :
  f <$> (l ≫= g) = l ≫= fun x => f <$> g x.
Proof.
  induction l as [|x l IH]; [done|]. csimpl. by rewrite fmap_app, IH.
Qed.

Lemma bind_ext_in {A B} (f g : A -> list B) (l : list A) :
  (forall x, x ∈ l -> f x = g x) -> l ≫= f = l ≫= g.
Proof.
  induction l as [|x l IH]; intros Hfg; [done|]. csimpl.
  rewrite Hfg by left. f_equal. apply IH. intros; apply Hfg; by right.
Qed.

(** Splitting a list by key, over keys that are listed once, permutes
    it. *)
Lemma filter_by_key_perm {X K} `{EqDecision K} (key : X -> K) (ks : list K) :
  NoDup ks -> forall l : list X,
  (forall x, x ∈ l -> key x ∈ ks) ->
  ks ≫= (fun k => filter (fun x => key x = k) l) ≡ₚ l.
Proof.
  induction 1 as [|k ks Hk Hnd IH]; intros l Hl.
  - destruct l as [|x l]; [done|].
    exfalso. eapply not_elem_of_nil. apply (Hl x). by left.
  - csimpl.
    etrans; [|apply (filter_app_complement (fun x => key x = k) l)].
    apply Permutation_app; [done|].
    etrans; [|apply (IH (filter (fun x => ~ key x = k) l))].
    + apply reflexive_eq, bind_ext_in. intros k' Hk'.
      rewrite list_filter_filter. apply list_filter_iff.
      intros x. split; [|tauto]. intros <-. split; [done|].
      intros Heq. apply Hk. by rewrite <- Heq.
    + intros x [Hx Hin]%list_elem_of_filter.
      specialize (Hl x Hin). apply elem_of_cons in Hl as [Heq|Hl]; done.
Qed.

Lemma filter_all {A} (P : A -> Prop) `{!forall x, Decision (P x)} (l : list A) :
  (forall x, x ∈ l -> P x) -> filter P l = l.
Proof.
  induction l as [|x l IH]; intros Hl; [done|].
  rewrite filter_cons, decide_True by (apply Hl; left).
  f_equal. apply IH. intros y Hy. apply Hl. by right.
Qed.

Lemma end_msgs_of_spec notes :
  end_msgs_of notes
  = (fun k => (k, (fun msg => (start (note_data msg), end_ (note_data msg)))
                    <$> filter (fun msg => end_key msg = k) notes))
      <$> first_occurrences (end_key <$> notes).
Proof.
  unfold end_msgs_of.
  rewrite (regroup_spec end_key
             (fun msg l => l ++ [(start (note_data msg), end_ (note_data msg))])).
  apply list_fmap_ext. intros _ k _. f_equal. apply foldl_snoc_fmap.
Qed.

Lemma interferes_false N k se :
  overlap_free N ->
  let v := (fun msg => (start (note_data msg), end_ (note_data msg)))
             <$> filter (fun msg => end_key msg = k) N in
  se ∈ v -> interferes v se = false.
Proof.
  intros Hfree v Hse. destruct (interferes v se) eqn:Hi; [exfalso|done].
  apply existsb_exists in Hi as (se' & Hse' & Hcond).
  apply list_elem_of_In in Hse'.
  apply list_elem_of_fmap in Hse as (a & -> & Ha).
  apply list_elem_of_fmap in Hse' as (b & -> & Hb).
  apply list_elem_of_filter in Ha as [Hka Ha].
  apply list_elem_of_filter in Hb as [Hkb Hb].
  apply list_elem_of_lookup_1 in Ha as [i Hi].
  apply list_elem_of_lookup_1 in Hb as [j Hj].
  simpl in Hcond.
  apply (Hfree i j a b); try done.
  - intros ->. rewrite Hi in Hj. injection Hj as ->. lia.
  - rewrite <- Hkb in Hka. injection Hka as Hc Hp. by split.
  - unfold overlap. lia.
Qed.

Lemma end_messages_perm N :
  overlap_free N -> end_messages (end_msgs_of N) ≡ₚ off_event <$> N.
Proof.
  intros Hfree. rewrite end_msgs_of_spec. unfold end_messages, end_events.
  rewrite list_fmap_bind, fmap_bind_comm.
  rewrite <- (filter_by_key_perm end_key (first_occurrences (end_key <$> N))
                (NoDup_first_occurrences _) N) at 2.
  - rewrite fmap_bind_comm. apply reflexive_eq, bind_ext_in.
    intros [c p] _. simpl.
    rewrite filter_all.
    + rewrite <- !list_fmap_compose. apply list_fmap_ext.
      intros _ msg Hmsg%list_elem_of_lookup_2.
      apply list_elem_of_filter in Hmsg as [[= <- <-] _]. done.
    + intros se Hse. by apply (interferes_false N (c, p)).
  - intros x Hx. apply elem_of_first_occurrences. by apply list_elem_of_fmap_2.
Qed.
(** *** Delta times and back *)

Lemma time_set_time t message : mido.time (mido.set_time t message) = t.
Proof. by destruct message. Qed.

Lemma set_time_set_time t t' message :
  mido.set_time t (mido.set_time t' message) = mido.set_time t message.
Proof. by destruct message. Qed.

Lemma set_time_time message : mido.set_time (mido.time message) message = message.
Proof. by destruct message. Qed.

Lemma to_absolute_to_delta track : forall tick,
  to_absolute tick (to_delta tick track) = track.
Proof.
  induction track as [|message track IH]; intros tick; simpl; [done|].
  rewrite time_set_time, set_time_set_time.
  replace (mido.time message - tick + tick) with (mido.time message) by lia.
  replace (tick + (mido.time message - tick)) with (mido.time message) by lia.
  by rewrite set_time_time, IH.
Qed.

Lemma to_absolute_snoc track message : forall tick,
  exists t, to_absolute tick (track ++ [message])
            = to_absolute tick track ++ [mido.set_time t message].
Proof.
  induction track as [|m track IH]; intros tick; simpl.
  - eauto.
  - destruct (IH (mido.time m + tick)) as [t ->]. eauto.
Qed.

Lemma extract_run_snoc st track message :
  extract_run st (track ++ [message])
  = extract_step (extract_run st track) message.
Proof. apply foldl_snoc. Qed.

(** *** The checks of mido *)

Lemma mapM_Ok {A B} (f : A -> result B) (g : A -> B) (l : list A) :
  Forall (fun x => f x = Ok (g x)) l -> mapM f l = Ok (g <$> l).
Proof.
  induction 1 as [|x l Hx _ IH]; [done|]. simpl. by rewrite Hx, IH.
Qed.


Lemma check_data_byte_cases value :
  (mido.check_data_byte value = Ok tt /\ data_byte value)
  \/ (mido.check_data_byte value = Raise ValueError /\ ~ data_byte value).
Proof.
  unfold mido.check_data_byte, data_byte.
  destruct (Z.leb_spec 0 value), (Z.leb_spec value 127); simpl;
    (left; split; [done|lia]) || (right; split; [done|lia]).
Qed.

Lemma check_channel_cases channel :
  (mido.check_channel channel = Ok tt /\ channel_ok channel)
  \/ (mido.check_channel channel = Raise ValueError /\ ~ channel_ok channel).
Proof.
  unfold mido.check_channel, channel_ok.
  destruct (Z.leb_spec 0 channel), (Z.leb_spec channel 15); simpl;
    (left; split; [done|lia]) || (right; split; [done|lia]).
Qed.

Lemma check_int_cases value low high :
  (mido.check_int value low high = Ok tt /\ low <= value <= high)
  \/ (mido.check_int value low high = Raise ValueError
      /\ ~ low <= value <= high).
Proof.
  unfold mido.check_int.
  destruct (Z.leb_spec low value), (Z.leb_spec value high); simpl;
    (left; split; [done|lia]) || (right; split; [done|lia]).
Qed.

(** Each constructor returns its message when its arguments are in range
    and raises ValueError otherwise. *)
Lemma MetaMessage_set_tempo_cases tempo time :
  (mido.MetaMessage_set_tempo tempo time = Ok (mido.SetTempo tempo time)
   /\ 0 <= tempo <= 16777215)
  \/ (mido.MetaMessage_set_tempo tempo time = Raise ValueError
      /\ ~ 0 <= tempo <= 16777215).
Proof.
  unfold mido.MetaMessage_set_tempo.
  destruct (check_int_cases tempo 0 16777215) as [[-> H]|[-> H]]; simpl; auto.
Qed.

Lemma Message_control_change_cases control value channel time :
  (mido.Message_control_change control value channel time
   = Ok (mido.ControlChange control value channel time)
   /\ data_byte control /\ data_byte value /\ channel_ok channel)
  \/ (mido.Message_control_change control value channel time
      = Raise ValueError
      /\ ~ (data_byte control /\ data_byte value /\ channel_ok channel)).
Proof.
  unfold mido.Message_control_change.
  destruct (check_data_byte_cases control) as [[-> H1]|[-> H1]]; simpl;
    [|right; tauto].
  destruct (check_data_byte_cases value) as [[-> H2]|[-> H2]]; simpl;
    [|right; tauto].
  destruct (check_channel_cases channel) as [[-> H3]|[-> H3]]; simpl;
    [left|right]; tauto.
Qed.

Lemma Message_program_change_cases program channel time :
  (mido.Message_program_change program channel time
   = Ok (mido.ProgramChange program channel time)
   /\ data_byte program /\ channel_ok channel)
  \/ (mido.Message_program_change program channel time = Raise ValueError
      /\ ~ (data_byte program /\ channel_ok channel)).
Proof.
  unfold mido.Message_program_change.
  destruct (check_data_byte_cases program) as [[-> H1]|[-> H1]]; simpl;
    [|right; tauto].
  destruct (check_channel_cases channel) as [[-> H3]|[-> H3]]; simpl;
    [left|right]; tauto.
Qed.

Lemma Message_note_on_cases note velocity channel time :
  (mido.Message_note_on note velocity channel time
   = Ok (mido.NoteOn note velocity channel time)
   /\ data_byte note /\ data_byte velocity /\ channel_ok channel)
  \/ (mido.Message_note_on note velocity channel time = Raise ValueError
      /\ ~ (data_byte note /\ data_byte velocity /\ channel_ok channel)).
Proof.
  unfold mido.Message_note_on.
  destruct (check_data_byte_cases note) as [[-> H1]|[-> H1]]; simpl;
    [|right; tauto].
  destruct (check_data_byte_cases velocity) as [[-> H2]|[-> H2]]; simpl;
    [|right; tauto].
  destruct (check_channel_cases channel) as [[-> H3]|[-> H3]]; simpl;
    [left|right]; tauto.
Qed.

(** The end messages carry the pitch, the channel and the end of a note. *)
Lemma elem_of_end_events notes p c t :
  (p, c, t) ∈ end_events (end_msgs_of notes) ->
  exists msg, msg ∈ notes /\ pitch (note_data msg) = p
              /\ note_channel msg = c /\ end_ (note_data msg) = t.
Proof.
  rewrite end_msgs_of_spec. unfold end_events.
  rewrite list_fmap_bind. intros (k & Hin & Hk)%list_elem_of_bind.
  destruct k as [c' p']. simpl in Hin.
  apply list_elem_of_fmap in Hin as (se & [= -> -> ->] & Hse).
  apply list_elem_of_filter in Hse as [_ Hse].
  apply list_elem_of_fmap in Hse as (msg & -> & Hmsg).
  apply list_elem_of_filter in Hmsg as [[= <- <-] Hmsg].
  by exists msg.
Qed.

(** With all values in range every message is built, and the track is the
    list of events. *)
Lemma unsorted_track_Ok md :
  midi_ranges md -> unsorted_track md = Ok (track_events md).
Proof.
  intros (Htempo & Hpedal & Hinstrument & Hnotes). unfold unsorted_track.
  rewrite (mapM_Ok _ (fun tempo_msg =>
             mido.SetTempo (tempo_data tempo_msg) (tempo_tick tempo_msg))).
  2:{ eapply Forall_impl; [exact Htempo|]. intros msg H. simpl in H.
      destruct (MetaMessage_set_tempo_cases (tempo_data msg) (tempo_tick msg))
        as [[-> _]|[_ Hn]]; [done|tauto]. }
  simpl.
  rewrite (mapM_Ok _ (fun pedal_msg =>
             mido.ControlChange 64 (pedal_data pedal_msg * 127)
               (pedal_channel pedal_msg) (pedal_tick pedal_msg))).
  2:{ eapply Forall_impl; [exact Hpedal|]. intros msg H. simpl in H.
      destruct (Message_control_change_cases 64 (pedal_data msg * 127)
                  (pedal_channel msg) (pedal_tick msg))
        as [[-> _]|[_ Hn]]; [done|].
      exfalso. apply Hn. unfold data_byte in *. split; [lia|tauto]. }
  simpl.
  rewrite (mapM_Ok _ (fun instrument_msg =>
             mido.ProgramChange (instrument_data instrument_msg)
               (instrument_channel instrument_msg)
               (instrument_tick instrument_msg))).
  2:{ eapply Forall_impl; [exact Hinstrument|]. intros msg H. simpl in H.
      destruct (Message_program_change_cases (instrument_data msg)
                  (instrument_channel msg) (instrument_tick msg))
        as [[-> _]|[_ Hn]]; [done|tauto]. }
  simpl.
  rewrite (mapM_Ok _ (fun note_msg =>
             mido.NoteOn (pitch (note_data note_msg))
               (velocity (note_data note_msg)) (note_channel note_msg)
               (start (note_data note_msg)))).
  2:{ eapply Forall_impl; [exact Hnotes|]. intros msg H. simpl in H.
      destruct (Message_note_on_cases (pitch (note_data msg))
                  (velocity (note_data msg)) (note_channel msg)
                  (start (note_data msg)))
        as [[-> _]|[_ Hn]]; [done|tauto]. }
  simpl.
  rewrite (mapM_Ok _ (fun '(pitch, channel, end_tick) =>
             mido.NoteOn pitch 0 channel end_tick)).
  2:{ apply Forall_forall. intros [[p c] t] Hin.
      apply elem_of_end_events in Hin as (msg & Hmsg & <- & <- & _).
      rewrite Forall_forall in Hnotes. specialize (Hnotes msg Hmsg).
      destruct (Message_note_on_cases (pitch (note_data msg)) 0
                  (note_channel msg) t) as [[-> _]|[_ Hn]]; [done|].
      exfalso. apply Hn. unfold data_byte in *. split; [tauto|].
      split; [lia|tauto]. }
  done.
Qed.

Lemma dict_to_midi_Ok md :
  midi_ranges md ->
  dict_to_midi md
  = Ok (mido.mkMidiFile 0 (ticks_per_beat md)
          [to_delta 0 (sorted sort_fn_leb (track_events md))
           ++ [mido.Meta "end_of_track" EmptyString 0]]).
Proof. intros Hr. unfold dict_to_midi. by rewrite unsorted_track_Ok. Qed.


(** The track of [dict_to_midi], read back in absolute time, is the sorted
    list of events followed by the end-of-track marker. *)
Lemma repaired_notes_track tpb track :
  repaired_notes
    (mido.mkMidiFile 0 tpb
       [to_delta 0 track ++ [mido.Meta "end_of_track" EmptyString 0]])
  = x_note_msgs (extract_run extract_init track).
Proof.
  unfold repaired_notes. csimpl. rewrite app_nil_r.
  destruct (to_absolute_snoc (to_delta 0 track)
              (mido.Meta "end_of_track" EmptyString 0) 0) as [t ->].
  rewrite to_absolute_to_delta. unfold _extract_track_data. simpl.
  by rewrite extract_run_snoc.
Qed.

(** *** The invariant holds at the start of the track *)

Lemma fmap_lookup_total_seq {B} (f : NoteMessage -> B) (N : list NoteMessage) :
  f ∘ (N !!!.) <$> seq 0 (length N) = f <$> N.
Proof.
  apply list_eq. intros i. rewrite !list_lookup_fmap.
  destruct (N !! i) as [msg|] eqn:Hi; simpl.
  - rewrite (proj2 (lookup_seq 0 (length N) i i)).
    + simpl. by rewrite (list_lookup_total_correct _ _ _ Hi).
    + split; [done|]. by eapply lookup_lt_Some.
  - rewrite lookup_seq_ge; [done|]. by apply lookup_ge_None.
Qed.

Lemma pairing_init md :
  overlap_free (note_msgs md) ->
  pairing (note_msgs md) extract_init
    (sorted sort_fn_leb (track_events md)) [] (seq 0 (length (note_msgs md))).
Proof.
  intros Hfree. split.
  - exists (((fun tempo_msg =>
                mido.SetTempo (tempo_data tempo_msg) (tempo_tick tempo_msg))
               <$> tempo_msgs md)
            ++ ((fun pedal_msg =>
                   mido.ControlChange 64 (pedal_data pedal_msg * 127)
                     (pedal_channel pedal_msg) (pedal_tick pedal_msg))
                  <$> pedal_msgs md)
            ++ ((fun instrument_msg =>
                   mido.ProgramChange (instrument_data instrument_msg)
                     (instrument_channel instrument_msg)
                     (instrument_tick instrument_msg))
                  <$> instrument_msgs md)).
    split.
    + rewrite !Forall_app, !Forall_fmap. repeat split;
        by apply Forall_forall.
    + rewrite sorted_perm. unfold track_events.
      rewrite !fmap_lookup_total_seq, end_messages_perm by done.
      simpl. by rewrite <- !app_assoc.
  - apply sorted_sorted; [apply sort_fn_leb_total|apply sort_fn_leb_trans].
  - simpl. split; [apply NoDup_seq|].
    intros i Hi%elem_of_seq. lia.
  - constructor.
  - intros i Hi. by apply elem_of_nil in Hi.
  - intros k l Hl. simpl in Hl. by rewrite lookup_empty in Hl.
  - intros i m Hi. by apply elem_of_nil in Hi.
Qed.

Lemma note_tuple_paired msg : note_tuple (paired msg) = note_tuple msg.
Proof. reflexivity. Qed.

Lemma repaired_notes_perm md :
  overlap_free (note_msgs md) -> sounding (note_msgs md) ->
  x_note_msgs (extract_run extract_init
                 (sorted sort_fn_leb (track_events md)))
  ≡ₚ paired <$> note_msgs md.
Proof.
  intros Hfree Hsound.
  rewrite (pairing_run (note_msgs md) Hfree Hsound _ _ [] (seq 0 (length (note_msgs md))))
    by by apply pairing_init.
  simpl. by rewrite fmap_lookup_total_seq.
Qed.

(** C7, as stated: a document with a single note of length zero has no
    overlapping notes and no pedal message, and all its values are in
    range; [dict_to_midi] sorts the velocity-0 note-on of the note before
    its note-on, and the round trip loses the note: the release finds
    nothing to close, and the note-on stays open. *)
Lemma round_trip_loses_zero_length_note :
  pedal_msgs zero_length_doc = []
  /\ overlap_free (note_msgs zero_length_doc)
  /\ midi_ranges zero_length_doc
  /\ dict_to_midi zero_length_doc
     = Ok (mido.mkMidiFile 0 480
             [[mido.SetTempo 500000 0; mido.ProgramChange 0 0 0;
               mido.NoteOn 60 0 0 5; mido.NoteOn 60 80 0 0;
               mido.Meta "end_of_track" EmptyString 0]])
  /\ (forall mid, dict_to_midi zero_length_doc = Ok mid ->
      repaired_notes mid = []
      /\ ~ (note_tuple <$> repaired_notes mid
            ≡ₚ note_tuple <$> note_msgs zero_length_doc)).
Proof.
  split; [done|]. split.
  { intros i j a b Hij Ha Hb _ _.
    apply lookup_lt_Some in Ha, Hb. simpl in Ha, Hb. lia. }
  split.
  { unfold midi_ranges, data_byte, channel_ok. simpl.
    repeat split; repeat constructor; simpl; lia. }
  split; [reflexivity|].
  intros mid [= <-]. split; [reflexivity|].
  intros H. by apply Permutation_nil_l in H.
Qed.

(** C7, amended: for every MidiDict in which no two notes of the same
    (channel, pitch) overlap, every note has start < end and a positive
    velocity, the pedal message list is empty, and the values are in the
    ranges of MIDI (pitch, velocity and program in 0..127, channel in
    0..15, tempo in 0..2^24-1), [dict_to_midi] returns a file, and
    re-pairing its track (absolute ticks, then [_extract_track_data])
    gives the same multiset of notes (pitch, channel, start, end,
    velocity). *)
Theorem dict_to_midi_round_trip md :
  pedal_msgs md = [] ->
  overlap_free (note_msgs md) ->
  sounding (note_msgs md) ->
  midi_ranges md ->
  exists mid,
    dict_to_midi md = Ok mid
    /\ note_tuple <$> repaired_notes mid ≡ₚ note_tuple <$> note_msgs md.
Proof.
  intros _ Hfree Hsound Hranges. eexists. split; [by apply dict_to_midi_Ok|].
  rewrite repaired_notes_track, (repaired_notes_perm md Hfree Hsound).
  rewrite <- list_fmap_compose.
  apply reflexive_eq, list_fmap_ext. intros. apply note_tuple_paired.
Qed.

Lemma dict_to_midi_round_trip_witness :
  exists mid,
    dict_to_midi touching_notes_doc = Ok mid
    /\ note_tuple <$> repaired_notes mid
       ≡ₚ note_tuple <$> note_msgs touching_notes_doc.
Proof.
  apply dict_to_midi_round_trip.
  - reflexivity.
  - intros i j a b Hij Ha Hb [Hc Hp] [H1 H2].
    destruct i as [|[|[|i]]], j as [|[|[|j]]]; simpl in *;
      simplify_eq; simpl in *; lia.
  - unfold sounding. simpl. repeat constructor; simpl; lia.
  - unfold midi_ranges, data_byte, channel_ok. simpl.
    repeat split; repeat constructor; simpl; lia.
Defined.

(** Outside the ranges [dict_to_midi] raises: a velocity of 128 is refused
    by mido. *)
Example dict_to_midi_velocity_128 :
  dict_to_midi (MidiDict_init [] [] [] [] [note 0 60 0 10 128] 480 [])
  = Raise ValueError.
Proof. reflexivity. Qed.

(** * Further properties *)

(** ** More on the stable sort *)

Section sorted_more.
Context {A : Type} (leb : A -> A -> bool).

Lemma insert_sorted_head (x : A) (l : list A) :
  (forall y, y ∈ l -> leb x y = true) -> insert_sorted leb x l = x :: l.
Proof.
  destruct l as [|y l]; intros Hx; simpl; [done|].
  by rewrite Hx by left.
Qed.

(** Sorting a sorted list leaves it as it is. *)
Lemma sorted_id (l : list A) :
  StronglySorted (fun a b => leb a b = true) l -> sorted leb l = l.
Proof.
  induction 1 as [|x l Hl IH Hx]; simpl; [done|].
  rewrite IH. apply insert_sorted_head.
  by apply Forall_forall.
Qed.
End sorted_more.

(** A projection that respects the order commutes with the stable sort. *)
Section sorted_omap.
Context {A B : Type} (lebA : A -> A -> bool) (lebB : B -> B -> bool).
Context (f : A -> option B).
Hypothesis lebA_total : forall a b, lebA a b = false -> lebA b a = true.
Hypothesis lebA_trans :
  forall a b c, lebA a b = true -> lebA b c = true -> lebA a c = true.
Hypothesis f_leb :
  forall a a' b b', f a = Some b -> f a' = Some b' -> lebA a a' = lebB b b'.

Lemma insert_sorted_omap_head (x : A) (b : B) (l : list A) :
  f x = Some b -> (forall y, y ∈ l -> lebA x y = true) ->
  insert_sorted lebB b (omap f l) = b :: omap f l.
Proof.
  intros Hx Hl. apply insert_sorted_head.
  intros b' (y & Hy & Hb')%list_elem_of_omap.
  rewrite <- (f_leb x y b b') by done. by apply Hl.
Qed.

Lemma omap_insert_sorted (x : A) (l : list A) :
  StronglySorted (fun a b => lebA a b = true) l ->
  omap f (insert_sorted lebA x l)
  = match f x with
    | Some b => insert_sorted lebB b (omap f l)
    | None => omap f l
    end.
Proof.
  induction 1 as [|y l Hl IH Hy]; csimpl.
  - by destruct (f x).
  - rewrite Forall_forall in Hy.
    destruct (lebA x y) eqn:Hxy; csimpl.
    + destruct (f x) as [b|] eqn:Hfx; [|done].
      symmetry. apply (insert_sorted_omap_head x b (y :: l) Hfx).
      intros z [->|Hz]%elem_of_cons; [done|].
      eapply lebA_trans; [exact Hxy|]. by apply Hy.
    + rewrite IH. destruct (f y) as [by_|] eqn:Hfy; csimpl; [|done].
      destruct (f x) as [b|] eqn:Hfx; [|done]. csimpl.
      by rewrite <- (f_leb x y b by_ Hfx Hfy), Hxy.
Qed.

Lemma omap_sorted (l : list A) :
  omap f (sorted lebA l) = sorted lebB (omap f l).
Proof.
  induction l as [|x l IH]; csimpl; [done|].
  rewrite omap_insert_sorted by (by apply sorted_sorted).
  rewrite IH. by destruct (f x).
Qed.
End sorted_omap.

(** The stable sort keeps the order of the elements with a given key. *)
Lemma sorted_filter_key {A} (key : A -> Z) (t : Z) (l : list A) :
  filter (fun a => key a = t) (sorted (by_tick key) l)
  = filter (fun a => key a = t) l.
Proof.
  pose (f := fun a : A => if decide (key a = t) then Some a else None).
  assert (Hf : forall l : list A, omap f l = filter (fun a => key a = t) l).
  { induction l0 as [|a l0 IH]; [done|]. csimpl. rewrite filter_cons.
    unfold f at 1. case_decide; csimpl; by rewrite IH. }
  rewrite <- !Hf.
  rewrite (omap_sorted (by_tick key) (by_tick key) f).
  - apply sorted_id. rewrite Hf.
    induction l as [|a l IH]; [constructor|].
    rewrite filter_cons. case_decide as Ha; [|done].
    constructor; [done|]. apply Forall_forall.
    intros b [Hb _]%list_elem_of_filter. unfold by_tick. lia.
  - unfold by_tick. intros. lia.
  - unfold by_tick. intros. lia.
  - unfold f. intros a a' b b' Ha Ha'.
    repeat case_decide; by simplify_eq.
Qed.

(** ** The constructor and the dictionary form *)

Lemma by_tick_total {A} (key : A -> Z) a b :
  by_tick key a b = false -> by_tick key b a = true.
Proof. unfold by_tick. lia. Qed.

Lemma by_tick_trans {A} (key : A -> Z) a b c :
  by_tick key a b = true -> by_tick key b c = true -> by_tick key a c = true.
Proof. unfold by_tick. lia. Qed.

Lemma StronglySorted_weaken {A} (R1 R2 : relation A) (l : list A) :
  (forall a b, R1 a b -> R2 a b) -> StronglySorted R1 l -> StronglySorted R2 l.
Proof.
  intros HR. induction 1 as [|x l Hl IH Hx]; constructor; [done|].
  eapply Forall_impl; [exact Hx|]. intros y. apply HR.
Qed.

Lemma sorted_by_tick_sorted {A} (key : A -> Z) (l : list A) :
  StronglySorted (fun a b => key a <= key b) (sorted (by_tick key) l).
Proof.
  eapply StronglySorted_weaken; [|apply (sorted_sorted (by_tick key))].
  - unfold by_tick. intros a b. simpl. lia.
  - apply by_tick_total.
  - apply by_tick_trans.
Qed.

Lemma sorted_by_tick_id {A} (key : A -> Z) (l : list A) :
  StronglySorted (fun a b => key a <= key b) l -> sorted (by_tick key) l = l.
Proof.
  intros Hs. apply sorted_id.
  eapply StronglySorted_weaken; [|exact Hs].
  unfold by_tick. intros a b. simpl. lia.
Qed.

(** X1: the constructor never leaves the tempo or the instrument list
    empty, keeps a given non-empty one as it is, and stores the notes
    sorted by tick: the same notes, in ascending tick order, notes of one
    tick in the order they were given. *)
Theorem MidiDict_init_invariants meta tempo pedal instrument notes tpb mdata :
  let md := MidiDict_init meta tempo pedal instrument notes tpb mdata in
  tempo_msgs md ≠ [] /\ instrument_msgs md ≠ []
  /\ (tempo ≠ [] -> tempo_msgs md = tempo)
  /\ (instrument ≠ [] -> instrument_msgs md = instrument)
  /\ note_msgs md ≡ₚ notes
  /\ StronglySorted (fun a b => note_tick a <= note_tick b) (note_msgs md)
  /\ (forall t, filter (fun msg => note_tick msg = t) (note_msgs md)
                = filter (fun msg => note_tick msg = t) notes).
Proof.
  simpl. repeat split.
  - by destruct tempo.
  - by destruct instrument.
  - by destruct tempo.
  - by destruct instrument.
  - apply sorted_perm.
  - apply sorted_by_tick_sorted.
  - intros t. apply sorted_filter_key.
Qed.

(** X2: a document whose tempo and instrument lists are not empty and whose
    notes are in ascending tick order comes back from its dictionary form
    unchanged, except that [pedal_resolved] is reset. *)
Theorem from_msg_dict_get_msg_dict md :
  tempo_msgs md ≠ [] -> instrument_msgs md ≠ [] ->
  StronglySorted (fun a b => note_tick a <= note_tick b) (note_msgs md) ->
  from_msg_dict (get_msg_dict md) = set_pedal_resolved md false.
Proof.
  intros Ht Hi Hs. unfold from_msg_dict, get_msg_dict, MidiDict_init. simpl.
  rewrite sorted_by_tick_id by done.
  destruct md as [? tempo ? instrument ? ? ? ?]. simpl in *.
  by destruct tempo, instrument.
Qed.

Lemma from_msg_dict_get_msg_dict_witness :
  from_msg_dict (get_msg_dict overlapping_doc)
  = set_pedal_resolved overlapping_doc false.
Proof.
  apply from_msg_dict_get_msg_dict.
  - discriminate.
  - discriminate.
  - simpl. repeat constructor; simpl; lia.
Defined.

(** ** More on the tempo map *)

Lemma float_of_int_error z e : float_of_int z = Raise e -> e = OverflowError.
Proof. unfold float_of_int. destruct (is_infinity _); congruence. Qed.

Lemma tick2second_error tick tempo tpb e :
  tick2second tick tempo tpb = Raise e ->
  e = OverflowError \/ (e = ZeroDivisionError /\ tpb = 0).
Proof.
  unfold tick2second.
  destruct (float_of_int tempo) as [ftempo|e1] eqn:H1; simpl;
    [|intros [= <-]; left; by eapply float_of_int_error].
  destruct (float_of_int tpb) as [ftpb|e2] eqn:H2; simpl;
    [|intros [= <-]; left; by eapply float_of_int_error].
  destruct (tpb =? 0) eqn:Hz; [intros [= <-]; right; split; [done|lia]|].
  destruct (float_of_int tick) as [ftick|e3] eqn:H3; simpl;
    [done|intros [= <-]; left; by eapply float_of_int_error].
Qed.

Lemma round_error x e : round x = Raise e -> e = OverflowError \/ e = ValueError.
Proof. unfold round. destruct (Prim2SF x); intros [=]; auto. Qed.

Lemma sum_intervals_error end_tick tpb pairs : forall duration curr_tick e,
  sum_intervals end_tick tpb pairs duration curr_tick = Raise e ->
  e = OverflowError \/ (e = ZeroDivisionError /\ tpb = 0).
Proof.
  induction pairs as [|[curr_msg next_msg] pairs IH]; intros duration curr_tick e;
    simpl; [done|].
  destruct (tick2second _ _ _) as [d|e1] eqn:Hd; simpl.
  - destruct (end_tick <? tempo_tick next_msg); [done|]. apply IH.
  - intros [= <-]. by eapply tick2second_error.
Qed.

(** The index search on a list that is not empty ends within the list. *)
Lemma search_idx_bounds start_tick l : forall idx last,
  l ≠ [] ->
  exists i, search_idx start_tick idx l last = Some i
            /\ (idx <= i < idx + length l)%nat.
Proof.
  induction l as [|m l IH]; intros idx last Hl; [done|]. simpl.
  destruct (start_tick <=? tempo_tick m); [exists idx; split; [done|lia]|].
  destruct l as [|m' l'].
  - simpl. exists idx. split; [done|lia].
  - destruct (IH (S idx) (Some idx)) as (i & Hi & Hb); [done|].
    exists i. split; [done|]. simpl in *. lia.
Qed.

Lemma getitem_lookup {A} (l : list A) (i : nat) (x : A) :
  l !! i = Some x -> getitem l (Z.of_nat i) = Ok x.
Proof.
  intros Hi. unfold getitem. cbv zeta.
  assert (Hneg : (Z.of_nat i <? 0) = false) by (apply Z.ltb_ge; lia).
  by rewrite !Hneg, Nat2Z.id, Hi.
Qed.

Lemma getitem_last {A} (l : list A) (x : A) :
  last l = Some x -> getitem l (-1) = Ok x.
Proof.
  intros Hl. unfold getitem. simpl.
  apply last_Some in Hl as [l' ->]. rewrite length_app. simpl.
  assert (Hneg : (-1 + Z.of_nat (length l' + 1) <? 0) = false)
    by (apply Z.ltb_ge; lia).
  rewrite Hneg.
  replace (Z.to_nat (-1 + Z.of_nat (length l' + 1))) with (length l') by lia.
  by rewrite list_lookup_middle.
Qed.

(** X3: [get_duration_ms] returns only on a tempo map that is not empty; on
    an empty one it raises NameError (the loop variable is never bound); on
    any other one the only errors are OverflowError and ValueError of the
    float arithmetic and ZeroDivisionError, the last only for
    [ticks_per_beat = 0]. *)
Theorem get_duration_ms_errors start_tick end_tick tempo_msgs ticks_per_beat :
  match get_duration_ms start_tick end_tick tempo_msgs ticks_per_beat with
  | Ok _ => tempo_msgs ≠ []
  | Raise e =>
      (e = NameError /\ tempo_msgs = [])
      \/ (tempo_msgs ≠ []
          /\ (e = OverflowError \/ e = ValueError
              \/ (e = ZeroDivisionError /\ ticks_per_beat = 0)))
  end.
Proof.
  destruct tempo_msgs as [|m l]; [left; done|].
  destruct (get_duration_ms _ _ _ _) as [d|e] eqn:Hres; [done|].
  right. split; [done|]. revert Hres. unfold get_duration_ms.
  destruct (search_idx_bounds start_tick (m :: l) 0 None) as (i & -> & Hb);
    [done|].
  set (idx := if (0 <? i)%nat then (i - 1)%nat else i).
  assert (Hidx : (idx < length (m :: l))%nat).
  { subst idx. destruct (0 <? i)%nat; simpl in *; lia. }
  apply lookup_lt_is_Some_2 in Hidx as [x Hx].
  rewrite (getitem_lookup _ _ _ Hx). simpl.
  destruct (sum_intervals _ _ _ _ _) as [[duration curr_tick]|e1] eqn:Hsum;
    simpl.
  2:{ intros [= <-]. apply sum_intervals_error in Hsum. tauto. }
  destruct (last (m :: l)) as [lst|] eqn:Hlast.
  2:{ by apply last_None in Hlast. }
  rewrite (getitem_last _ _ Hlast). simpl.
  destruct (tempo_tick lst <? end_tick).
  - destruct (tick2second _ _ _) as [d|e2] eqn:Hd; simpl.
    + intros Hr%round_error. tauto.
    + intros [= <-]. apply tick2second_error in Hd. tauto.
  - simpl. intros Hr%round_error. tauto.
Qed.

(** The first entry at or after [start_tick] ends the search. *)
Lemma search_idx_skip start_tick l1 : forall l2 idx last m,
  (forall x, x ∈ l1 -> tempo_tick x < start_tick) ->
  l2 !! 0%nat = Some m -> start_tick <= tempo_tick m ->
  search_idx start_tick idx (l1 ++ l2) last = Some (idx + length l1)%nat.
Proof.
  induction l1 as [|x l1 IH]; intros l2 idx last m Hl1 Hm Hs; simpl.
  - destruct l2 as [|m' l2]; [done|]. simpl in *. injection Hm as ->.
    destruct (Z.leb_spec start_tick (tempo_tick m)); [|lia].
    f_equal. lia.
  - destruct (Z.leb_spec start_tick (tempo_tick x)) as [Hx|Hx].
    + specialize (Hl1 x (list_elem_of_here _ _)). lia.
    + rewrite (IH l2 (S idx) (Some idx) m); [f_equal; lia| |done..].
      intros y Hy. apply Hl1. by right.
Qed.

(** X4: tempo changes before the one in force at [start_tick] do not
    matter, as long as some tempo change lies at or after [start_tick]:
    dropping them gives the same result, errors included. *)
Theorem get_duration_ms_drops_old_tempos
    start_tick end_tick old curr rest ticks_per_beat :
  (forall m, m ∈ old -> tempo_tick m < start_tick) ->
  tempo_tick curr < start_tick ->
  (exists m, m ∈ rest /\ start_tick <= tempo_tick m) ->
  get_duration_ms start_tick end_tick (old ++ curr :: rest) ticks_per_beat
  = get_duration_ms start_tick end_tick (curr :: rest) ticks_per_beat.
Proof.
  intros Hold Hcurr (m & Hm & Hs).
  (* split [rest] at its first entry at or after [start_tick] *)
  assert (Hsplit : exists before m' after,
            rest = before ++ m' :: after
            /\ (forall x, x ∈ before -> tempo_tick x < start_tick)
            /\ start_tick <= tempo_tick m').
  { clear Hold Hcurr. induction rest as [|x rest IH]; [by apply elem_of_nil in Hm|].
    destruct (decide (start_tick <= tempo_tick x)) as [Hx|Hx].
    - exists [], x, rest. split; [done|]. split; [|done].
      intros y Hy. by apply elem_of_nil in Hy.
    - apply elem_of_cons in Hm as [->|Hm]; [done|].
      destruct (IH Hm) as (before & m' & after & -> & Hb & Hm').
      exists (x :: before), m', after. split; [done|]. split; [|done].
      intros y [->|Hy]%elem_of_cons; [lia|by apply Hb]. }
  destruct Hsplit as (before & m' & after & -> & Hbefore & Hm').
  unfold get_duration_ms.
  replace (old ++ curr :: before ++ m' :: after)
    with ((old ++ curr :: before) ++ m' :: after)
    by (by rewrite <- app_assoc).
  rewrite (search_idx_skip start_tick (old ++ curr :: before)
             (m' :: after) 0 None m'); [|set_solver|done..].
  replace (curr :: before ++ m' :: after)
    with ((curr :: before) ++ m' :: after) by done.
  rewrite (search_idx_skip start_tick (curr :: before)
             (m' :: after) 0 None m'); [|set_solver|done..].
  rewrite !length_app. simpl.
  replace (0 <? (length old + S (length before)))%nat with true
    by (symmetry; apply Nat.ltb_lt; lia).
  replace (0 <? S (length before))%nat with true by done.
  replace (length old + S (length before) - 1)%nat
    with (length old + length before)%nat by lia.
  rewrite <- app_assoc. simpl. rewrite !Nat.sub_0_r.
  (* the two lists agree from the chosen index on *)
  assert (Hdrop : forall k,
            drop (length old + k) (old ++ curr :: before ++ m' :: after)
            = drop k (curr :: before ++ m' :: after)).
  { intros k. by rewrite drop_app_add. }
  rewrite (Hdrop (length before)).
  replace (length old + length before + 1)%nat
    with (length old + (length before + 1))%nat by lia.
  rewrite (Hdrop (length before + 1)%nat).
  assert (Hget : forall (l : list TempoMessage) k,
            (k < length l)%nat -> exists y, getitem l (Z.of_nat k) = Ok y).
  { intros l k [x Hx]%lookup_lt_is_Some_2. exists x. by apply getitem_lookup. }
  destruct (Hget (old ++ curr :: before ++ m' :: after)
              (length old + length before)%nat) as [y1 ->].
  { rewrite length_app. simpl. rewrite length_app. simpl. lia. }
  destruct (Hget (curr :: before ++ m' :: after) (length before))
    as [y2 ->].
  { simpl. rewrite length_app. simpl. lia. }
  simpl.
  assert (Hlast : forall (l1 : list TempoMessage) x l2,
            last (l1 ++ x :: l2) = last (x :: l2)).
  { intros l1 x l2. rewrite last_app.
    destruct (last (x :: l2)) eqn:Hx; [done|by apply last_None in Hx]. }
  assert (Hgl : getitem (old ++ curr :: before ++ m' :: after) (-1)
                = getitem (curr :: before ++ m' :: after) (-1)).
  { destruct (last (m' :: after)) as [z|] eqn:Hz;
      [|by apply last_None in Hz].
    rewrite (getitem_last _ z), (getitem_last _ z); [done|..].
    - replace (curr :: before ++ m' :: after)
        with ((curr :: before) ++ m' :: after) by done.
      by rewrite Hlast.
    - replace (old ++ curr :: before ++ m' :: after)
        with ((old ++ curr :: before) ++ m' :: after)
        by (by rewrite <- app_assoc).
      by rewrite Hlast. }
  by rewrite Hgl.
Qed.

Lemma get_duration_ms_drops_old_tempos_witness :
  get_duration_ms 150 300
    ([mkTempo 400000 0] ++ mkTempo 500000 100 :: [mkTempo 1000000 200]) 100
  = get_duration_ms 150 300 (mkTempo 500000 100 :: [mkTempo 1000000 200]) 100.
Proof.
  apply get_duration_ms_drops_old_tempos.
  - intros m Hm%list_elem_of_singleton. subst. simpl. lia.
  - simpl. lia.
  - exists (mkTempo 1000000 200). split; [left|simpl; lia].
Defined.

(** ** More on the instrument filter *)

Lemma elem_of_range lo hi i : i ∈ range lo hi <-> lo <= i < hi.
Proof.
  unfold range. rewrite list_elem_of_fmap. split.
  - intros (k & -> & Hk%elem_of_seq). lia.
  - intros Hi. exists (Z.to_nat (i - lo)). split; [lia|].
    apply elem_of_seq. lia.
Qed.

(** The programs the table knows are 0..127. *)
Lemma PROGRAM_TO_INSTRUMENT_dom p :
  is_Some (PROGRAM_TO_INSTRUMENT !! p) <-> 0 <= p <= 127.
Proof.
  split.
  - intros [name Hname]. destruct (decide (0 <= p <= 127)) as [|Hp]; [done|].
    exfalso. unfold PROGRAM_TO_INSTRUMENT in Hname.
    rewrite not_elem_of_list_to_map_1 in Hname; [done|].
    match goal with |- _ ∉ ?l => replace l with (range 0 128) by (by vm_compute) end.
    rewrite elem_of_range. lia.
  - intros Hp.
    assert (Hall : Forall (fun i => is_Some (PROGRAM_TO_INSTRUMENT !! i))
                     (range 0 128)).
    { apply (bool_decide_unpack _). by vm_compute. }
    rewrite Forall_forall in Hall. apply Hall, elem_of_range. lia.
Qed.

(** Every instrument group has a program in 1..127. *)
Lemma PROGRAM_TO_INSTRUMENT_group p name :
  PROGRAM_TO_INSTRUMENT !! p = Some name ->
  exists i, 1 <= i <= 127 /\ PROGRAM_TO_INSTRUMENT !! i = Some name.
Proof.
  intros Hname. destruct (decide (p = 0)) as [->|Hp].
  - exists 1. split; [lia|]. rewrite <- Hname. by vm_compute.
  - exists p. split; [|done].
    assert (0 <= p <= 127) by (by apply PROGRAM_TO_INSTRUMENT_dom). lia.
Qed.

(** The program table is looked up, not unfolded. *)
#[local] Opaque PROGRAM_TO_INSTRUMENT.

Lemma flagged_programs_spec config l : forall programs,
  flagged_programs config l = Ok programs ->
  programs
  = filter (fun i => (PROGRAM_TO_INSTRUMENT !! i ≫= fun name => config !! name)
                     = Some true) l.
Proof.
  induction l as [|i l IH]; intros programs; simpl; [by intros [= <-]|].
  unfold dict_getitem.
  destruct (PROGRAM_TO_INSTRUMENT !! i) as [name|] eqn:Hname; simpl; [|done].
  destruct (config !! name) as [flag|] eqn:Hflag; simpl; [|done].
  destruct (flagged_programs config l) as [flagged_l|] eqn:Hl; simpl; [|done].
  intros [= <-]. rewrite (IH flagged_l eq_refl).
  rewrite filter_cons. simpl. rewrite Hname. simpl. rewrite Hflag.
  destruct flag.
  - by rewrite decide_True.
  - by rewrite decide_False.
Qed.

Lemma flagged_programs_ok config l :
  (forall i, i ∈ l -> exists name,
      PROGRAM_TO_INSTRUMENT !! i = Some name /\ is_Some (config !! name)) ->
  exists programs, flagged_programs config l = Ok programs.
Proof.
  induction l as [|i l IH]; intros Hl; simpl; [by eexists|].
  destruct (Hl i) as (name & Hname & [flag Hflag]); [by left|].
  destruct IH as [programs Hprograms]; [intros j Hj; apply Hl; by right|].
  unfold dict_getitem. rewrite Hname. simpl. rewrite Hflag. simpl.
  rewrite Hprograms. simpl. by eexists.
Qed.

Lemma flagged_programs_error config l e :
  (forall i, i ∈ l -> is_Some (PROGRAM_TO_INSTRUMENT !! i)) ->
  flagged_programs config l = Raise e ->
  e = KeyError
  /\ exists i name, i ∈ l /\ PROGRAM_TO_INSTRUMENT !! i = Some name
                    /\ config !! name = None.
Proof.
  induction l as [|i l IH]; intros Hl; simpl; [done|].
  destruct (Hl i) as [name Hname]; [by left|].
  unfold dict_getitem. rewrite Hname. simpl.
  destruct (config !! name) as [flag|] eqn:Hflag; simpl.
  - destruct (flagged_programs config l) as [programs|e'] eqn:Hrest; simpl;
      [done|].
    intros [= <-]. destruct IH as (-> & j & name' & Hj & Hn & Hc);
      [intros j Hj; apply Hl; by right|done|].
    split; [done|]. exists j, name'. split; [by right|done].
  - intros [= <-]. split; [done|]. exists i, name. split; [by left|done].
Qed.

Lemma flagged_programs_flagged config programs p :
  flagged_programs config (range 1 (127 + 1)) = Ok programs ->
  p ∈ programs <-> flagged config p.
Proof.
  intros ->%flagged_programs_spec. rewrite list_elem_of_filter, elem_of_range.
  unfold flagged. intuition lia.
Qed.

Lemma channels_to_remove_spec config md programs c :
  flagged_programs config (range 1 (127 + 1)) = Ok programs ->
  c ∈ filter (fun i => i ≠ 9)
        (instrument_channel
           <$> filter (fun msg => instrument_data msg ∈ programs)
                 (instrument_msgs md))
  <-> removed_channel config md c.
Proof.
  intros Hprograms. unfold removed_channel.
  rewrite list_elem_of_filter, list_elem_of_fmap, Exists_exists.
  setoid_rewrite list_elem_of_filter.
  setoid_rewrite (flagged_programs_flagged config programs _ Hprograms).
  split.
  - intros [H9 (msg & -> & Hf & Hin)]. split; [done|]. by exists msg.
  - intros [H9 (msg & Hin & <- & Hf)]. split; [done|]. by exists msg.
Qed.

(** X5: what [remove_instruments] keeps.  A channel is removed when it is
    not channel 9 and some instrument message puts a program of 1..127
    whose group the config sets to true on it; the pedal, instrument and
    note messages of the other channels are kept, in their order, and
    those of removed channels all go.  Messages on channel 9 always stay.
    Meta and tempo messages count as channel -1: all of them stay unless
    -1 is a removed channel, and then all of them go.  The other fields are
    not touched. *)
Theorem remove_instruments_spec config md md' :
  remove_instruments config md = Ok md' ->
  note_msgs md'
  = filter (fun msg => ¬ removed_channel config md (note_channel msg))
      (note_msgs md)
  /\ pedal_msgs md'
     = filter (fun msg => ¬ removed_channel config md (pedal_channel msg))
         (pedal_msgs md)
  /\ instrument_msgs md'
     = filter (fun msg => ¬ removed_channel config md (instrument_channel msg))
         (instrument_msgs md)
  /\ filter (fun msg => note_channel msg = 9) (note_msgs md')
     = filter (fun msg => note_channel msg = 9) (note_msgs md)
  /\ (if decide (removed_channel config md (-1))
      then meta_msgs md' = [] /\ tempo_msgs md' = []
      else meta_msgs md' = meta_msgs md /\ tempo_msgs md' = tempo_msgs md)
  /\ ticks_per_beat md' = ticks_per_beat md
  /\ metadata md' = metadata md
  /\ pedal_resolved md' = pedal_resolved md.
Proof.
  unfold remove_instruments.
  destruct (flagged_programs config (range 1 (127 + 1)))
    as [programs|e] eqn:Hprograms; simpl; [|done].
  intros [= <-]. simpl.
  pose proof (fun c => channels_to_remove_spec config md programs c Hprograms)
    as Hc.
  set (channels_to_remove := filter (fun i => i ≠ 9) _) in *.
  assert (Hnotes :
    filter (fun msg => note_channel msg ∉ channels_to_remove) (note_msgs md)
    = filter (fun msg => ¬ removed_channel config md (note_channel msg))
        (note_msgs md)).
  { apply list_filter_iff. intros msg. by rewrite Hc. }
  split; [done|].
  split; [apply list_filter_iff; intros msg; by rewrite Hc|].
  split; [apply list_filter_iff; intros msg; by rewrite Hc|].
  split.
  { rewrite Hnotes, list_filter_filter. apply list_filter_iff.
    intros msg. unfold removed_channel. split; [by intros [? ?]|].
    intros H9. split; first [done|by intros [Hn _]]. }
  split; [|done].
  destruct (decide (removed_channel config md (-1))) as [Hr|Hr].
  - apply Hc in Hr. split; apply filter_none; intros x _ Hx; by apply Hx.
  - rewrite <- Hc in Hr. split; by apply filter_all.
Qed.

Lemma remove_instruments_spec_witness :
  exists md',
    remove_instruments piano_config (one_instrument_doc 1) = Ok md'
    /\ note_msgs md'
       = filter (fun msg => ¬ removed_channel piano_config
                               (one_instrument_doc 1) (note_channel msg))
           (note_msgs (one_instrument_doc 1)).
Proof.
  eexists. split; [by vm_compute|].
  eapply (remove_instruments_spec piano_config (one_instrument_doc 1)).
  by vm_compute.
Defined.

(** X6: [remove_instruments] is idempotent: a second pass with the same
    config removes nothing more. *)
Theorem remove_instruments_idempotent config md md' :
  remove_instruments config md = Ok md' ->
  remove_instruments config md' = Ok md'.
Proof.
  unfold remove_instruments.
  destruct (flagged_programs config (range 1 (127 + 1)))
    as [programs|e] eqn:Hprograms; simpl; [|done].
  intros [= <-]. simpl.
  set (channels_to_remove :=
         filter (fun i => i ≠ 9)
           (instrument_channel
              <$> filter (fun msg => instrument_data msg ∈ programs)
                    (instrument_msgs md))).
  assert (Hnil :
    filter (fun i => i ≠ 9)
      (instrument_channel
         <$> filter (fun msg => instrument_data msg ∈ programs)
               (filter (fun msg => instrument_channel msg ∉ channels_to_remove)
                  (instrument_msgs md)))
    = []).
  { apply filter_none. intros c Hc Hc9.
    apply list_elem_of_fmap in Hc as (msg & -> & Hmsg).
    apply list_elem_of_filter in Hmsg as [Hdata Hmsg].
    apply list_elem_of_filter in Hmsg as [Hchannel Hmsg].
    apply Hchannel. subst channels_to_remove.
    apply list_elem_of_filter. split; [done|].
    apply list_elem_of_fmap. exists msg. split; [done|].
    by apply list_elem_of_filter. }
  rewrite Hnil. f_equal.
  assert (Hid : forall A (l : list A), filter (fun _ => (-1) ∉ @nil Z) l = l).
  { intros A l. apply filter_all. intros x _. apply not_elem_of_nil. }
  assert (Hid' : forall A (f : A -> Z) (l : list A),
             filter (fun msg => f msg ∉ @nil Z) l = l).
  { intros A f l. apply filter_all. intros x _. apply not_elem_of_nil. }
  by rewrite !Hid, !Hid'.
Qed.

Lemma remove_instruments_idempotent_witness :
  exists md',
    remove_instruments piano_config (one_instrument_doc 1) = Ok md'
    /\ remove_instruments piano_config md' = Ok md'.
Proof.
  eexists. split; [by vm_compute|].
  apply (remove_instruments_idempotent piano_config (one_instrument_doc 1)).
  by vm_compute.
Defined.

(** X7: [remove_instruments] returns exactly when the config has a key for
    every instrument group of the program table; otherwise it raises
    KeyError, whatever the document holds. *)
Theorem remove_instruments_config_keys config md :
  match remove_instruments config md with
  | Ok _ =>
      forall p name, PROGRAM_TO_INSTRUMENT !! p = Some name ->
                     is_Some (config !! name)
  | Raise e =>
      e = KeyError
      /\ exists p name, PROGRAM_TO_INSTRUMENT !! p = Some name
                        /\ config !! name = None
  end.
Proof.
  unfold remove_instruments.
  destruct (flagged_programs config (range 1 (127 + 1)))
    as [programs|e] eqn:Hprograms; simpl.
  - intros p name Hname.
    destruct (PROGRAM_TO_INSTRUMENT_group p name Hname) as (i & Hi & Hiname).
    destruct (config !! name) as [flag|] eqn:Hflag; [by eexists|].
    exfalso.
    assert (Hsplit : exists l1 l2, range 1 (127 + 1) = l1 ++ i :: l2).
    { apply list_elem_of_split, elem_of_range. lia. }
    destruct Hsplit as (l1 & l2 & Hsplit). rewrite Hsplit in Hprograms.
    clear Hsplit. revert programs Hprograms.
    induction l1 as [|j l1 IH]; intros programs; simpl.
    + unfold dict_getitem. rewrite Hiname. simpl. by rewrite Hflag.
    + destruct (dict_getitem PROGRAM_TO_INSTRUMENT j) as [name_j|]; simpl;
        [|done].
      destruct (dict_getitem config name_j) as [flag_j|]; simpl; [|done].
      destruct (flagged_programs config (l1 ++ i :: l2)) eqn:Hrest; simpl;
        [|done].
      intros _. by eapply IH.
  - apply flagged_programs_error in Hprograms
      as (-> & i & name & _ & Hname & Hnone).
    + split; [done|]. by exists i, name.
    + intros i Hi%elem_of_range. apply PROGRAM_TO_INSTRUMENT_dom. lia.
Qed.

(** ** The filters on programs and instruments *)

Lemma remove_dups_fmap_length {A B} `{EqDecision A, EqDecision B}
    (g : A -> B) (l : list A) :
  (length (remove_dups (g <$> l)) <= length (remove_dups l))%nat.
Proof.
  rewrite <- (length_fmap g (remove_dups l)).
  apply submseteq_length, NoDup_submseteq; [apply NoDup_remove_dups|].
  intros y Hy. rewrite elem_of_remove_dups in Hy.
  apply list_elem_of_fmap in Hy as (x & -> & Hx).
  apply list_elem_of_fmap_2. by apply elem_of_remove_dups.
Qed.

Lemma remove_dups_length_bound {A} `{EqDecision A} (l k : list A) :
  (forall x, x ∈ l -> x ∈ k) ->
  (length (remove_dups l) <= length k)%nat.
Proof.
  intros Hl. apply submseteq_length, NoDup_submseteq;
    [apply NoDup_remove_dups|].
  intros x Hx. rewrite elem_of_remove_dups in Hx. by apply Hl.
Qed.

(** The sixteen group names of the program table. *)
Lemma PROGRAM_TO_INSTRUMENT_names p name :
  PROGRAM_TO_INSTRUMENT !! p = Some name ->
  name ∈ ["piano"; "chromatic"; "organ"; "guitar"; "bass"; "strings";
          "ensemble"; "brass"; "reed"; "pipe"; "synth_lead"; "synth_pad";
          "synth_effect"; "ethnic"; "percussive"; "sfx"]%string.
Proof.
  intros Hname.
  assert (Hp : 0 <= p <= 127) by (by apply PROGRAM_TO_INSTRUMENT_dom).
  assert (Hall :
    forallb (fun i =>
               match PROGRAM_TO_INSTRUMENT !! i with
               | Some name =>
                   bool_decide
                     (name ∈ ["piano"; "chromatic"; "organ"; "guitar"; "bass";
                              "strings"; "ensemble"; "brass"; "reed"; "pipe";
                              "synth_lead"; "synth_pad"; "synth_effect";
                              "ethnic"; "percussive"; "sfx"]%string)
               | None => false
               end)
      (range 0 128) = true) by (by vm_compute).
  rewrite forallb_forall in Hall. specialize (Hall p).
  rewrite Hname in Hall.
  eapply bool_decide_eq_true_1, Hall, list_elem_of_In, elem_of_range. lia.
Qed.

Lemma instruments_of_cases msgs :
  (exists names,
     instruments_of msgs = Ok names
     /\ Forall2 (fun msg name =>
                   PROGRAM_TO_INSTRUMENT !! instrument_data msg = Some name)
          msgs names)
  \/ (instruments_of msgs = Raise KeyError
      /\ Exists (fun msg => PROGRAM_TO_INSTRUMENT !! instrument_data msg = None)
           msgs).
Proof.
  induction msgs as [|msg msgs IH]; simpl; [left; by eexists|].
  unfold dict_getitem.
  destruct (PROGRAM_TO_INSTRUMENT !! instrument_data msg) as [name|] eqn:Hname;
    simpl.
  - destruct IH as [(names & -> & Hnames)|[-> Hex]]; simpl.
    + left. eexists. split; [done|]. by constructor.
    + right. split; [done|]. by apply Exists_cons_tl.
  - right. split; [done|]. by apply Exists_cons_hd.
Qed.

(** X8: [test_max_instruments] raises KeyError exactly when some
    instrument message has a program outside 0..127.  Otherwise the count it
    returns is at most 16 and at most the count of [test_max_programs], its
    flag tells whether the count is within [max], and a document that
    passes [test_max_programs] passes [test_max_instruments] with the same
    bound. *)
Theorem test_max_instruments_spec midi_dict max :
  match test_max_instruments midi_dict max with
  | Ok (ok, count) =>
      Forall (fun msg => 0 <= instrument_data msg <= 127)
        (instrument_msgs midi_dict)
      /\ 0 <= count <= 16
      /\ count <= (test_max_programs midi_dict max).2
      /\ (ok = true <-> count <= max)
      /\ ((test_max_programs midi_dict max).1 = true -> ok = true)
  | Raise e =>
      e = KeyError
      /\ Exists (fun msg => ~ 0 <= instrument_data msg <= 127)
           (instrument_msgs midi_dict)
  end.
Proof.
  unfold test_max_instruments.
  destruct (instruments_of_cases (instrument_msgs midi_dict))
    as [(names & -> & Hnames)|[-> Hex]]; simpl.
  2:{ split; [done|]. eapply Exists_impl; [exact Hex|]. simpl.
      intros msg Hnone Hp. apply PROGRAM_TO_INSTRUMENT_dom in Hp as [? ?].
      congruence. }
  assert (Hrange : Forall (fun msg => 0 <= instrument_data msg <= 127)
                     (instrument_msgs midi_dict)).
  { apply Forall_forall. intros msg Hmsg.
    apply list_elem_of_lookup_1 in Hmsg as [i Hi].
    destruct (Forall2_lookup_l _ _ _ _ _ Hnames Hi) as (name & _ & Hname).
    apply PROGRAM_TO_INSTRUMENT_dom. by eexists. }
  assert (Hcount16 : 0 <= set_len names <= 16).
  { unfold set_len. split; [lia|].
    assert (Hb : (length (remove_dups names)
                  <= length ["piano"; "chromatic"; "organ"; "guitar"; "bass";
                             "strings"; "ensemble"; "brass"; "reed"; "pipe";
                             "synth_lead"; "synth_pad"; "synth_effect";
                             "ethnic"; "percussive"; "sfx"]%string)%nat).
    { apply remove_dups_length_bound.
      intros name Hname. apply list_elem_of_lookup_1 in Hname as [i Hi].
      destruct (Forall2_lookup_r _ _ _ _ _ Hnames Hi) as (msg & _ & Hmsg).
      by eapply PROGRAM_TO_INSTRUMENT_names. }
    simpl in Hb. lia. }
  assert (Hle : set_len names
                <= set_len (instrument_data <$> instrument_msgs midi_dict)).
  { assert (Heq : names
                  = (fun p => default EmptyString (PROGRAM_TO_INSTRUMENT !! p))
                      <$> (instrument_data <$> instrument_msgs midi_dict)).
    { clear Hrange Hcount16. induction Hnames as [|msg name msgs names Hn _ IH];
        [done|].
      csimpl. rewrite Hn. simpl. by f_equal. }
    unfold set_len. rewrite Heq at 1.
    apply inj_le, remove_dups_fmap_length. }
  unfold test_max_programs.
  destruct (Z.leb_spec (set_len names) max) as [Hmax|Hmax];
    destruct (Z.leb_spec
                (set_len (instrument_data <$> instrument_msgs midi_dict)) max)
      as [Hmax'|Hmax']; simpl;
    (split; [done|]); (split; [done|]); (split; [done|]);
    (split; [split; (done || lia)|]); (done || lia).
Qed.

(** ** The pairer on any track *)

(** The lists other than the notes grow by what each event carries. *)
Lemma extract_step_lists st message :
  x_meta_msgs (extract_step st message)
  = x_meta_msgs st ++ option_list (meta_of message)
  /\ x_tempo_msgs (extract_step st message)
     = x_tempo_msgs st ++ option_list (tempo_of message)
  /\ x_pedal_msgs (extract_step st message)
     = x_pedal_msgs st ++ option_list (pedal_of message)
  /\ x_instrument_msgs (extract_step st message)
     = x_instrument_msgs st ++ option_list (instrument_of message).
Proof.
  destruct message as [ty tx t|tempo t|p c t|ctl v c t|n v c t|n v c t|t];
    simpl; rewrite ?app_nil_r; try done.
  - destruct (decide _); simpl; by rewrite ?app_nil_r.
  - destruct (ctl =? 64); simpl; by rewrite ?app_nil_r.
  - unfold open_note, close_note.
    destruct (0 <? v), (v =? 0), (last_note_on st !! (n, c)); simpl;
      by rewrite ?app_nil_r.
  - unfold close_note.
    destruct (last_note_on st !! (n, c)); simpl; by rewrite ?app_nil_r.
Qed.

Lemma omap_option_list {A B} (f : A -> option B) (l : list A) :
  omap f l = l ≫= fun x => option_list (f x).
Proof.
  induction l as [|x l IH]; [done|]. csimpl. rewrite IH.
  by destruct (f x).
Qed.

Lemma extract_run_lists track : forall st,
  x_meta_msgs (extract_run st track) = x_meta_msgs st ++ omap meta_of track
  /\ x_tempo_msgs (extract_run st track)
     = x_tempo_msgs st ++ omap tempo_of track
  /\ x_pedal_msgs (extract_run st track)
     = x_pedal_msgs st ++ omap pedal_of track
  /\ x_instrument_msgs (extract_run st track)
     = x_instrument_msgs st ++ omap instrument_of track.
Proof.
  induction track as [|message track IH]; intros st.
  - simpl. by rewrite !app_nil_r.
  - unfold extract_run. simpl. fold (extract_run (extract_step st message) track).
    destruct (IH (extract_step st message)) as (-> & -> & -> & ->).
    destruct (extract_step_lists st message) as (-> & -> & -> & ->).
    rewrite <- !app_assoc. csimpl.
    by destruct (meta_of message), (tempo_of message), (pedal_of message),
      (instrument_of message).
Qed.

(** The state of the pairer after a prefix of the track: every emitted note
    and every open entry comes from the prefix. *)
Lemma extract_run_paired track :
  let st := extract_run extract_init track in
  (forall msg, msg ∈ x_note_msgs st ->
     note_tick msg = start (note_data msg)
     /\ start (note_data msg) ≠ end_ (note_data msg)
     /\ 0 < velocity (note_data msg)
     /\ paired_in track msg)
  /\ (forall note channel open_notes entry,
        last_note_on st !! (note, channel) = Some open_notes ->
        entry ∈ open_notes ->
        0 < entry.2
        /\ exists i, track !! i = Some (mido.NoteOn note entry.2 channel entry.1)).
Proof.
  induction track as [|message track IH] using rev_ind.
  - simpl. split.
    + intros msg Hmsg. by apply elem_of_nil in Hmsg.
    + intros note channel open_notes entry Hl. by rewrite lookup_empty in Hl.
  - rewrite extract_run_snoc. simpl in IH.
    set (st := extract_run extract_init track) in *.
    destruct IH as [IHn IHo].
    (* facts about the earlier track carry over to the longer one *)
    assert (Hmono_n : forall msg, msg ∈ x_note_msgs st ->
              note_tick msg = start (note_data msg)
              /\ start (note_data msg) ≠ end_ (note_data msg)
              /\ 0 < velocity (note_data msg)
              /\ paired_in (track ++ [message]) msg).
    { intros msg Hmsg.
      destruct (IHn msg Hmsg) as (H1 & H2 & H3 & i & j & Hij & Hi & m & Hj & Hr).
      repeat split; try done. exists i, j. split; [done|].
      split; [by apply lookup_app_l_Some|].
      exists m. split; [by apply lookup_app_l_Some|done]. }
    assert (Hmono_o : forall note channel open_notes entry,
              last_note_on st !! (note, channel) = Some open_notes ->
              entry ∈ open_notes ->
              0 < entry.2
              /\ exists i, (track ++ [message]) !! i
                           = Some (mido.NoteOn note entry.2 channel entry.1)).
    { intros note channel open_notes entry Hl He.
      destruct (IHo note channel open_notes entry Hl He) as (Hv & i & Hi).
      split; [done|]. exists i. by apply lookup_app_l_Some. }
    (* a release of [(note, channel)] at [t] *)
    assert (Hclose : forall note channel t,
              is_release note channel t message ->
              let st' := close_note note channel t st in
              (forall msg, msg ∈ x_note_msgs st' ->
                 note_tick msg = start (note_data msg)
                 /\ start (note_data msg) ≠ end_ (note_data msg)
                 /\ 0 < velocity (note_data msg)
                 /\ paired_in (track ++ [message]) msg)
              /\ (forall note' channel' open_notes entry,
                    last_note_on st' !! (note', channel') = Some open_notes ->
                    entry ∈ open_notes ->
                    0 < entry.2
                    /\ exists i, (track ++ [message]) !! i
                         = Some (mido.NoteOn note' entry.2 channel' entry.1))).
    { intros note channel t Hrel. unfold close_note.
      destruct (last_note_on st !! (note, channel)) as [open_notes|] eqn:Hopen;
        [|by split].
      simpl. split.
      - intros msg [Hmsg|Hmsg]%elem_of_app; [by apply Hmono_n|].
        apply list_elem_of_fmap in Hmsg as (entry & -> & Hentry).
        apply list_elem_of_filter in Hentry as [Hne Hentry].
        destruct (IHo note channel open_notes entry Hopen Hentry)
          as (Hv & i & Hi).
        simpl. repeat split; try done.
        exists i, (length track). split; [by eapply lookup_lt_Some|].
        split; [by apply lookup_app_l_Some|].
        exists message. split; [|done].
        by rewrite list_lookup_middle.
      - intros note' channel' open_notes' entry Hl He.
        destruct (decide ((note', channel') = (note, channel))) as [[= -> ->]|Hk].
        + destruct (_ && _).
          * rewrite lookup_insert_eq in Hl. injection Hl as <-.
            apply list_elem_of_filter in He as [_ He].
            by apply (Hmono_o note channel open_notes).
          * by rewrite lookup_delete_eq in Hl.
        + destruct (_ && _).
          * rewrite lookup_insert_ne in Hl by done.
            by apply (Hmono_o note' channel' open_notes').
          * rewrite lookup_delete_ne in Hl by done.
            by apply (Hmono_o note' channel' open_notes'). }
    destruct message as [ty tx t|tempo t|p c t|ctl v c t|n v c t|n v c t|t];
      simpl; try (by split).
    + destruct (decide _); by split.
    + destruct (ctl =? 64); by split.
    + destruct (Z.ltb_spec 0 v) as [Hv|Hv].
      * unfold open_note. simpl. split; [done|].
        intros note' channel' open_notes' entry Hl He.
        destruct (decide ((note', channel') = (n, c))) as [[= -> ->]|Hk].
        -- rewrite lookup_insert_eq in Hl. injection Hl as <-.
           apply elem_of_app in He as [He|He].
           ++ destruct (last_note_on st !! (n, c)) as [l|] eqn:Hl;
                [|by apply elem_of_nil in He].
              by apply (Hmono_o n c l).
           ++ apply list_elem_of_singleton in He as ->. simpl.
              split; [done|]. exists (length track).
              by rewrite list_lookup_middle.
        -- rewrite lookup_insert_ne in Hl by done.
           by apply (Hmono_o note' channel' open_notes').
      * destruct (Z.eqb_spec v 0) as [->|Hv0]; [|by split].
        by apply (Hclose n c t).
    + by apply (Hclose n c t).
Qed.

(** X9: every note that [_extract_track_data] emits, on any track, has its
    tick at its start, a start different from its end and a positive
    velocity, and comes from a note-on with that pitch, velocity, channel
    and start and a later release (a note-off, or a note-on of velocity 0)
    of the same pitch and channel at its end. *)
Theorem extract_track_data_notes track :
  Forall (fun msg =>
            note_tick msg = start (note_data msg)
            /\ start (note_data msg) ≠ end_ (note_data msg)
            /\ 0 < velocity (note_data msg)
            /\ paired_in track msg)
    (_extract_track_data track).2.
Proof.
  apply Forall_forall. intros msg Hmsg.
  by apply (proj1 (extract_run_paired track)).
Qed.

(** X10: the lists of meta, tempo, pedal and instrument messages that
    [_extract_track_data] returns are read off the track event by event, in
    track order: text and copyright events, set_tempo events, control
    changes of controller 64 (data 1 from value 64 on, else 0) and program
    changes; no other event contributes. *)
Theorem extract_track_data_lists track :
  exists notes,
    _extract_track_data track
    = (omap meta_of track, omap tempo_of track, omap pedal_of track,
       omap instrument_of track, notes).
Proof.
  unfold _extract_track_data.
  destruct (extract_run_lists track extract_init) as (-> & -> & -> & ->).
  simpl. by eexists.
Qed.

(** ** The file written by [dict_to_midi] *)

Lemma omap_fmap_None {A B C} (f : B -> option C) (g : A -> B) (l : list A) :
  (forall x, f (g x) = None) -> omap f (g <$> l) = [].
Proof.
  intros Hf. induction l as [|x l IH]; [done|]. csimpl. by rewrite Hf.
Qed.

Lemma omap_fmap_Some {A B} (f : B -> option A) (g : A -> B) (l : list A) :
  (forall x, x ∈ l -> f (g x) = Some x) -> omap f (g <$> l) = l.
Proof.
  induction l as [|x l IH]; intros Hf; [done|]. csimpl.
  rewrite Hf by left. simpl. f_equal. apply IH. intros y Hy. apply Hf.
  by right.
Qed.

(** What the pairer reads from the events of a document. *)
Lemma omap_track_events md :
  omap meta_of (track_events md) = []
  /\ omap tempo_of (track_events md) = tempo_msgs md
  /\ (Forall (fun msg => data_byte (pedal_data msg * 127)) (pedal_msgs md) ->
      omap pedal_of (track_events md) = pedal_msgs md)
  /\ omap instrument_of (track_events md) = instrument_msgs md.
Proof.
  unfold track_events, end_messages. rewrite !omap_app.
  repeat split.
  - rewrite !omap_fmap_None; [simpl; by rewrite ?app_nil_r|by intros [[? ?] ?]|done..].
  - rewrite (omap_fmap_Some tempo_of) by (by intros []).
    rewrite !omap_fmap_None; [simpl; by rewrite ?app_nil_r|by intros [[? ?] ?]|done..].
  - intros Hpedal.
    rewrite (omap_fmap_Some pedal_of).
    + rewrite !omap_fmap_None; [simpl; by rewrite ?app_nil_r|by intros [[? ?] ?]|done..].
    + intros [data tick channel] Hin. rewrite Forall_forall in Hpedal.
      specialize (Hpedal _ Hin). unfold data_byte in Hpedal. simpl in *.
      destruct (Z.ltb_spec (data * 127) 64); do 2 f_equal; lia.
  - rewrite (omap_fmap_Some instrument_of) by (by intros []).
    rewrite !omap_fmap_None; [simpl; by rewrite ?app_nil_r|by intros [[? ?] ?]|done..].
Qed.

Lemma sort_fn_leb_tempo a a' b b' :
  tempo_of a = Some b -> tempo_of a' = Some b' ->
  sort_fn_leb a a' = by_tick tempo_tick b b'.
Proof.
  destruct a, a'; try done. intros [= <-] [= <-].
  unfold sort_fn_leb, pair_leb, by_tick. simpl. lia.
Qed.

Lemma sort_fn_leb_pedal a a' b b' :
  pedal_of a = Some b -> pedal_of a' = Some b' ->
  sort_fn_leb a a' = by_tick pedal_tick b b'.
Proof.
  destruct a as [| | |ctl v c t| | |], a' as [| | |ctl' v' c' t'| | |];
    try done. simpl.
  destruct (ctl =? 64), (ctl' =? 64); try done.
  intros [= <-] [= <-].
  unfold sort_fn_leb, pair_leb, by_tick. simpl. lia.
Qed.

Lemma sort_fn_leb_instrument a a' b b' :
  instrument_of a = Some b -> instrument_of a' = Some b' ->
  sort_fn_leb a a' = by_tick instrument_tick b b'.
Proof.
  destruct a, a'; try done. intros [= <-] [= <-].
  unfold sort_fn_leb, pair_leb, by_tick. simpl. lia.
Qed.

(** Reading back the track of [dict_to_midi] in absolute time gives the
    sorted events and the end-of-track marker. *)
Lemma to_absolute_written_track track :
  exists t,
    to_absolute 0
      (to_delta 0 track ++ [mido.Meta "end_of_track" EmptyString 0])
    = track ++ [mido.Meta "end_of_track" EmptyString t].
Proof.
  destruct (to_absolute_snoc (to_delta 0 track)
              (mido.Meta "end_of_track" EmptyString 0) 0) as [t ->].
  rewrite to_absolute_to_delta. by exists t.
Qed.

(** X11: for a document whose values are in the ranges of MIDI,
    [dict_to_midi] returns a file with one track, and reading that track
    back (absolute ticks, then [_extract_track_data]) gives the tempo, pedal
    and instrument messages of the document, each list stably sorted by
    tick, and no meta message: [dict_to_midi] never writes the meta
    messages. *)
Theorem dict_to_midi_round_trip_lists md :
  midi_ranges md ->
  exists mid track notes,
    dict_to_midi md = Ok mid
    /\ mido.tracks mid = [track]
    /\ _extract_track_data (to_absolute 0 track)
       = ([], sorted (by_tick tempo_tick) (tempo_msgs md),
          sorted (by_tick pedal_tick) (pedal_msgs md),
          sorted (by_tick instrument_tick) (instrument_msgs md), notes).
Proof.
  intros Hranges.
  destruct (to_absolute_written_track (sorted sort_fn_leb (track_events md)))
    as [t Ht].
  eexists _, _, _. split; [by apply dict_to_midi_Ok|].
  split; [done|]. rewrite Ht.
  unfold _extract_track_data.
  destruct (extract_run_lists
              (sorted sort_fn_leb (track_events md)
               ++ [mido.Meta "end_of_track" EmptyString t]) extract_init)
    as (-> & -> & -> & ->).
  simpl. rewrite !omap_app. csimpl. rewrite !app_nil_r.
  destruct (omap_track_events md) as (Hmeta & Htempo & Hpedal & Hinstrument).
  assert (Hmeta' : omap meta_of (sorted sort_fn_leb (track_events md)) = []).
  { apply Permutation_nil_r. rewrite <- Hmeta.
    apply omap_Permutation, sorted_perm. }
  rewrite Hmeta'.
  rewrite (omap_sorted sort_fn_leb (by_tick tempo_tick) tempo_of
             sort_fn_leb_total sort_fn_leb_trans sort_fn_leb_tempo).
  rewrite (omap_sorted sort_fn_leb (by_tick pedal_tick) pedal_of
             sort_fn_leb_total sort_fn_leb_trans sort_fn_leb_pedal).
  rewrite (omap_sorted sort_fn_leb (by_tick instrument_tick) instrument_of
             sort_fn_leb_total sort_fn_leb_trans sort_fn_leb_instrument).
  rewrite Htempo, Hinstrument, Hpedal; [done|].
  destruct Hranges as (_ & Hp & _).
  eapply Forall_impl; [exact Hp|]. simpl. tauto.
Qed.

Lemma dict_to_midi_round_trip_lists_witness :
  exists mid track notes,
    dict_to_midi unclosed_pedal_doc = Ok mid
    /\ mido.tracks mid = [track]
    /\ _extract_track_data (to_absolute 0 track)
       = ([], sorted (by_tick tempo_tick) (tempo_msgs unclosed_pedal_doc),
          sorted (by_tick pedal_tick) (pedal_msgs unclosed_pedal_doc),
          sorted (by_tick instrument_tick)
            (instrument_msgs unclosed_pedal_doc), notes).
Proof.
  apply dict_to_midi_round_trip_lists.
  unfold midi_ranges, data_byte, channel_ok. simpl.
  repeat split; repeat constructor; simpl; lia.
Defined.





(** X13: the loop of [dict_to_midi] that turns absolute times into delta
    times and the loop of [midi_to_dict] that turns delta times into
    absolute times undo one another, from any starting tick. *)
Theorem to_delta_to_absolute track tick :
  to_delta tick (to_absolute tick track) = track
  /\ to_absolute tick (to_delta tick track) = track.
Proof.
  split; [|apply to_absolute_to_delta].
  revert tick. induction track as [|message track IH]; intros tick; simpl;
    [done|].
  rewrite time_set_time, set_time_set_time.
  replace (mido.time message + tick - tick) with (mido.time message) by lia.
  replace (tick + mido.time message) with (mido.time message + tick) by lia.
  by rewrite set_time_time, IH.
Qed.


(** ** More on the pedal pruner *)

Lemma remove_idxs_sublist {A} (to_remove : list nat) (msgs : list A) :
  remove_idxs to_remove msgs `sublist_of` msgs.
Proof.
  unfold remove_idxs, enumerate.
  generalize (seq 0 (length msgs)) as idxs.
  induction msgs as [|x msgs IH]; intros [|i idxs]; simpl;
    try apply sublist_nil_l.
  rewrite filter_cons. destruct (decide _); simpl.
  - apply sublist_skip, IH.
  - apply sublist_cons, IH.
Qed.

(** A pass over one channel changes the pedal list only, and only by
    removing messages. *)
Lemma process_channel_pedals_frame channel md :
  exists md', _process_channel_pedals channel md = Ok md'
    /\ pedal_msgs md' `sublist_of` pedal_msgs md
    /\ set_pedal_msgs md' (pedal_msgs md) = md.
Proof.
  unfold _process_channel_pedals.
  destruct (filter _ (note_msgs md)) as [|msg notes] eqn:Hnotes.
  - eexists. split; [done|]. split; [apply remove_idxs_sublist|].
    by destruct md.
  - destruct (process_pedal_msgs_total channel (length (pedal_msgs md)) msg
                notes (enumerate (pedal_msgs md)) ([], None))
      as [[to_remove down] ->].
    eexists. split; [done|]. split; [apply remove_idxs_sublist|].
    by destruct md.
Qed.

Lemma process_channels_frame channels : forall md,
  exists md', process_channels channels md = Ok md'
    /\ pedal_msgs md' `sublist_of` pedal_msgs md
    /\ set_pedal_msgs md' (pedal_msgs md) = md.
Proof.
  induction channels as [|c channels IH]; intros md; simpl.
  - exists md. split; [done|]. split; [done|]. by destruct md.
  - destruct (process_channel_pedals_frame c md) as (md1 & -> & Hsub1 & Heq1).
    simpl. destruct (IH md1) as (md' & -> & Hsub & Heq).
    exists md'. split; [done|]. split; [by etrans|].
    rewrite <- Heq1, <- Heq. by destruct md'.
Qed.

(** X14: [remove_redundant_pedals] always returns, whatever the order in
    which the channels are visited; it changes nothing but the pedal list,
    which loses messages and keeps the others in their order; and it leaves
    no pedal message on a channel that has no note. *)
Theorem remove_redundant_pedals_frame set_iter md :
  is_set_iter set_iter ->
  exists md',
    remove_redundant_pedals set_iter md = Ok md'
    /\ pedal_msgs md' `sublist_of` pedal_msgs md
    /\ set_pedal_msgs md' (pedal_msgs md) = md
    /\ forall channel,
         filter (fun msg => note_channel msg = channel) (note_msgs md) = [] ->
         filter (fun msg => pedal_channel msg = channel) (pedal_msgs md') = [].
Proof.
  intros Hs. unfold remove_redundant_pedals.
  destruct (process_channels_frame
              (set_iter (pedal_channel <$> pedal_msgs md)) md)
    as (md' & Hok & Hsub & Heq).
  destruct (process_channels_spec
              (set_iter (pedal_channel <$> pedal_msgs md)) md)
    as (md'' & Hok' & Hn & Hin & Hc).
  rewrite Hok in Hok'. injection Hok' as <-.
  exists md'. split; [done|]. split; [done|]. split; [done|].
  intros channel Hnone. apply filter_none. intros x Hx Hch.
  apply (Hc channel) with x; try done.
  apply (Hs (pedal_channel <$> pedal_msgs md)).
  apply list_elem_of_fmap. exists x. split; [done|]. by apply Hin.
Qed.

Lemma remove_redundant_pedals_frame_witness :
  exists md',
    remove_redundant_pedals ascending_set unclosed_pedal_doc = Ok md'
    /\ pedal_msgs md' `sublist_of` pedal_msgs unclosed_pedal_doc.
Proof.
  destruct (remove_redundant_pedals_frame ascending_set unclosed_pedal_doc
              ascending_set_is_set_iter) as (md' & Hok & Hsub & _).
  by exists md'.
Defined.

Lemma useful_loop_complete pedal_start_tick pedal_end_tick rest :
  forall note_start,
  StronglySorted
    (fun a b => start (note_data a) <= start (note_data b)) rest ->
  Forall (fun msg => note_start <= start (note_data msg)) rest ->
  start_le_end rest ->
  (exists msg, msg ∈ rest
     /\ pedal_start_tick <= end_ (note_data msg) <= pedal_end_tick) ->
  useful_loop pedal_start_tick pedal_end_tick note_start rest = true.
Proof.
  induction rest as [|msg rest IH]; intros note_start Hs Hge Hse (w & Hw & Hin).
  - by apply elem_of_nil in Hw.
  - simpl.
    unfold start_le_end in Hse. rewrite Forall_forall in Hge, Hse.
    pose proof (Hge w Hw) as Hgw. pose proof (Hse w Hw) as Hsw. simpl in Hsw.
    destruct (Z.leb_spec note_start pedal_end_tick); [|lia].
    destruct (_ && _) eqn:Hhere; [done|].
    apply elem_of_cons in Hw as [->|Hw].
    { apply andb_false_iff in Hhere. lia. }
    apply StronglySorted_inv in Hs as [Hs Hhead].
    apply IH; [done|done| |by exists w].
    apply Forall_forall. intros m Hm. apply Hse. by right.
Qed.

(** X16: [_is_pedal_useful] raises IndexError on an empty note list.  On
    notes in the order of their starts, none ending before it starts, it
    tells exactly whether some note ends within the pedal interval, bounds
    included. *)
Theorem is_pedal_useful_spec pedal_start_tick pedal_end_tick notes :
  StronglySorted
    (fun a b => start (note_data a) <= start (note_data b)) notes ->
  start_le_end notes ->
  match _is_pedal_useful pedal_start_tick pedal_end_tick notes with
  | Ok useful =>
      notes ≠ []
      /\ (useful = true <->
          exists msg, msg ∈ notes
            /\ pedal_start_tick <= end_ (note_data msg) <= pedal_end_tick)
  | Raise e => e = IndexError /\ notes = []
  end.
Proof.
  intros Hs Hse. destruct notes as [|msg notes]; [done|].
  replace (_is_pedal_useful pedal_start_tick pedal_end_tick (msg :: notes))
    with (Ok (useful_loop pedal_start_tick pedal_end_tick
                (start (note_data msg)) (msg :: notes))) by done.
  split; [done|]. split.
  - apply (useful_loop_sound _ _ (msg :: notes)).
  - apply useful_loop_complete; [done| |done].
    constructor; [lia|]. by apply StronglySorted_inv in Hs as [_ Hs].
Qed.

Lemma is_pedal_useful_spec_witness :
  match _is_pedal_useful 5 30 [note 0 60 0 15 80; note 0 62 10 20 80] with
  | Ok useful =>
      [note 0 60 0 15 80; note 0 62 10 20 80] ≠ []
      /\ (useful = true <->
          exists msg, msg ∈ [note 0 60 0 15 80; note 0 62 10 20 80]
            /\ 5 <= end_ (note_data msg) <= 30)
  | Raise e => e = IndexError /\ [note 0 60 0 15 80; note 0 62 10 20 80] = []
  end.
Proof.
  apply is_pedal_useful_spec.
  - repeat constructor; simpl; lia.
  - unfold start_le_end. repeat constructor; simpl; lia.
Defined.

(** ** More on the pedal resolver *)

Lemma extend_note_forget e intervals msg :
  forget_end (extend_note e intervals msg) = forget_end msg.
Proof.
  induction intervals as [|[pedal_start pedal_end] intervals IH]; simpl;
    [done|].
  destruct (_ && _); [apply forget_end_set_end|done].
Qed.

(** Sustaining never shortens a note. *)
Lemma extend_note_end intervals msg :
  end_ (note_data msg)
  <= end_ (note_data (extend_note (end_ (note_data msg)) intervals msg)).
Proof.
  induction intervals as [|[pedal_start pedal_end] intervals IH]; simpl;
    [done|].
  destruct (Z.ltb_spec pedal_start (end_ (note_data msg))),
    (Z.ltb_spec (end_ (note_data msg)) pedal_end); simpl; (done || lia).
Qed.

Lemma ticks_nonneg_forget n1 n2 :
  forget_end <$> n1 = forget_end <$> n2 -> ticks_nonneg n2 -> ticks_nonneg n1.
Proof.
  unfold ticks_nonneg. intros Hf Hn.
  apply Forall_lookup. intros i msg Hi.
  assert (H : (forget_end <$> n2) !! i = Some (forget_end msg))
    by (by rewrite <- Hf, list_lookup_fmap, Hi).
  apply list_lookup_fmap_Some in H as (msg' & Heq & Hi').
  rewrite Forall_lookup in Hn. specialize (Hn i msg' Hi').
  apply forget_end_fields in Heq as (-> & _). done.
Qed.

(** X15: on a document with at least one note, whose notes start at ticks
    that are not negative, [resolve_pedal] returns: the flag
    [pedal_resolved] is set, the pedal list is stably sorted by tick, no two
    notes of a channel and pitch overlap, the notes keep their number and,
    position by position, everything but their end, and the other fields
    are not touched.  Without pedal messages it does what
    [resolve_overlaps] does. *)
Theorem resolve_pedal_spec md :
  ticks_nonneg (note_msgs md) -> note_msgs md ≠ [] ->
  exists md',
    resolve_pedal md = Ok md'
    /\ pedal_resolved md' = true
    /\ pedal_msgs md' = sorted (by_tick pedal_tick) (pedal_msgs md)
    /\ overlap_free (note_msgs md')
    /\ forget_end <$> note_msgs md' = forget_end <$> note_msgs md
    /\ meta_msgs md' = meta_msgs md
    /\ tempo_msgs md' = tempo_msgs md
    /\ instrument_msgs md' = instrument_msgs md
    /\ ticks_per_beat md' = ticks_per_beat md
    /\ metadata md' = metadata md
    /\ (pedal_msgs md = [] ->
        md' = set_pedal_resolved (resolve_overlaps md) true).
Proof.
  intros Hn Hne. unfold resolve_pedal, _build_pedal_intervals.
  destruct (pedal_scan _) as [pedal_status intervals] eqn:Hscan.
  destruct (last (note_msgs md)) as [last_note|] eqn:Hlast;
    [|by apply last_None in Hlast].
  cbn [note_msgs set_pedal_msgs].
  rewrite (getitem_last _ _ Hlast). simpl.
  set (table := close_unclosed _ _ _).
  set (notes := (fun msg => extend_note _ _ msg) <$> note_msgs md).
  assert (Hf : forget_end <$> notes = forget_end <$> note_msgs md).
  { subst notes. rewrite <- list_fmap_compose. apply list_fmap_ext.
    intros i msg _. apply extend_note_forget. }
  eexists. split; [done|]. simpl.
  split; [done|]. split; [done|].
  split.
  { apply resolve_overlaps_notes_overlap_free.
    by apply (ticks_nonneg_forget _ (note_msgs md)). }
  split; [by rewrite resolve_overlaps_notes_forget|].
  do 5 (split; [done|]).
  intros Hnil. rewrite Hnil in *. simpl in Hscan.
  unfold pedal_scan in Hscan. simpl in Hscan. injection Hscan as <- <-.
  assert (Hid : notes = note_msgs md).
  { subst notes table. rewrite <- (list_fmap_id (note_msgs md)) at 2.
    apply list_fmap_ext. intros i msg _. unfold close_unclosed.
    rewrite fmap_empty, lookup_union_with, !lookup_empty. done. }
  rewrite Hid. unfold resolve_overlaps, set_pedal_resolved. simpl.
  by rewrite Hnil.
Qed.

Lemma resolve_pedal_spec_witness :
  exists md',
    resolve_pedal held_pedal_doc = Ok md'
    /\ pedal_resolved md' = true.
Proof.
  destruct (resolve_pedal_spec held_pedal_doc) as (md' & Hok & Hres & _).
  - unfold ticks_nonneg. simpl. repeat constructor; simpl; lia.
  - done.
  - by exists md'.
Defined.

(** ** From a document to a file and back *)

Lemma sorted_by_tick_twice {A} (key : A -> Z) (l : list A) :
  sorted (by_tick key) (sorted (by_tick key) l) = sorted (by_tick key) l.
Proof. apply sorted_by_tick_id, sorted_by_tick_sorted. Qed.

Lemma extract_written_track track t :
  _extract_track_data (track ++ [mido.Meta "end_of_track" EmptyString t])
  = _extract_track_data track.
Proof. unfold _extract_track_data. by rewrite extract_run_snoc. Qed.

(** X17: a document whose values are in the ranges of MIDI is written by
    [dict_to_midi] to a file that [midi_to_dict] reads back, whatever the
    metadata functions return, as: no meta messages; the tempo, pedal and
    instrument messages of the document, each list stably sorted by tick;
    the ticks per beat of the document; and notes sorted by tick which,
    when the notes of the document have start < end and a positive velocity
    and no two of a channel and pitch overlap, are the notes of the
    document (pitch, channel, start, end, velocity) as a multiset. *)
Theorem midi_to_dict_dict_to_midi collect_metadata md :
  midi_ranges md ->
  exists mid,
    dict_to_midi md = Ok mid
    /\ forall mid' data,
         midi_to_dict collect_metadata mid = Ok (mid', data) ->
         data_meta_msgs data = []
         /\ data_tempo_msgs data = sorted (by_tick tempo_tick) (tempo_msgs md)
         /\ data_pedal_msgs data = sorted (by_tick pedal_tick) (pedal_msgs md)
         /\ data_instrument_msgs data
            = sorted (by_tick instrument_tick) (instrument_msgs md)
         /\ data_ticks_per_beat data = ticks_per_beat md
         /\ StronglySorted (fun a b => note_tick a <= note_tick b)
              (data_note_msgs data)
         /\ (overlap_free (note_msgs md) -> sounding (note_msgs md) ->
             note_tuple <$> data_note_msgs data
             ≡ₚ note_tuple <$> note_msgs md).
Proof.
  intros Hranges. eexists. split; [by apply dict_to_midi_Ok|].
  intros mid' data. unfold midi_to_dict. cbn [mido.tracks mido.type_of
    mido.file_ticks_per_beat fmap list_fmap].
  destruct (to_absolute_written_track (sorted sort_fn_leb (track_events md)))
    as [t ->].
  unfold compile_tracks. cbn [foldl]. rewrite extract_written_track.
  unfold _extract_track_data.
  destruct (extract_run_lists (sorted sort_fn_leb (track_events md))
              extract_init) as (-> & -> & -> & ->).
  cbn [x_meta_msgs x_tempo_msgs x_pedal_msgs x_instrument_msgs extract_init
       app].
  destruct (collect_metadata _ _) as [metadata|e]; simpl; [|done].
  intros [= <- <-]. simpl.
  destruct (omap_track_events md) as (Hmeta & Htempo & Hpedal & Hinstrument).
  rewrite (omap_sorted sort_fn_leb (by_tick tempo_tick) tempo_of
             sort_fn_leb_total sort_fn_leb_trans sort_fn_leb_tempo).
  rewrite (omap_sorted sort_fn_leb (by_tick pedal_tick) pedal_of
             sort_fn_leb_total sort_fn_leb_trans sort_fn_leb_pedal).
  rewrite (omap_sorted sort_fn_leb (by_tick instrument_tick) instrument_of
             sort_fn_leb_total sort_fn_leb_trans sort_fn_leb_instrument).
  rewrite Htempo, Hinstrument, Hpedal.
  2:{ destruct Hranges as (_ & Hp & _).
      eapply Forall_impl; [exact Hp|]. simpl. tauto. }
  rewrite !sorted_by_tick_twice.
  split.
  { apply Permutation_nil_r. rewrite <- Hmeta.
    apply omap_Permutation, sorted_perm. }
  do 4 (split; [done|]).
  split; [apply sorted_by_tick_sorted|].
  intros Hfree Hsound.
  rewrite sorted_perm, (repaired_notes_perm md Hfree Hsound).
  rewrite <- list_fmap_compose.
  apply reflexive_eq, list_fmap_ext. intros. apply note_tuple_paired.
Qed.

Lemma midi_to_dict_dict_to_midi_witness :
  exists mid,
    dict_to_midi touching_notes_doc = Ok mid
    /\ forall mid' data,
         midi_to_dict (fun _ _ => Ok []) mid = Ok (mid', data) ->
         data_meta_msgs data = []
         /\ data_tempo_msgs data
            = sorted (by_tick tempo_tick) (tempo_msgs touching_notes_doc)
         /\ data_pedal_msgs data
            = sorted (by_tick pedal_tick) (pedal_msgs touching_notes_doc)
         /\ data_instrument_msgs data
            = sorted (by_tick instrument_tick)
                (instrument_msgs touching_notes_doc)
         /\ data_ticks_per_beat data = ticks_per_beat touching_notes_doc
         /\ StronglySorted (fun a b => note_tick a <= note_tick b)
              (data_note_msgs data)
         /\ (overlap_free (note_msgs touching_notes_doc) ->
             sounding (note_msgs touching_notes_doc) ->
             note_tuple <$> data_note_msgs data
             ≡ₚ note_tuple <$> note_msgs touching_notes_doc).
Proof.
  apply midi_to_dict_dict_to_midi.
  unfold midi_ranges, data_byte, channel_ok. simpl.
  repeat split; repeat constructor; simpl; lia.
Defined.

(** ** More on the overlap resolver *)

(** Every write of the loop cuts a note at the start of its successor. *)
Lemma trim_loop_ends msgs rest : forall visited prev notes,
  msgs = visited ++ rest -> NoDup msgs ->
  (forall i, i ∈ msgs -> (i < length notes)%nat) ->
  match last visited with
  | Some d => prev = note_end notes d
  | None => forall r, head rest = Some r -> prev <= note_start notes r
  end ->
  (forall p q a b, (p < q)%nat -> msgs !! p = Some a -> msgs !! q = Some b ->
     note_start notes a <= note_start notes b) ->
  forall i,
    note_end (trim_loop msgs (length visited) rest prev notes) i
    = note_end notes i
    \/ exists r, r ∈ msgs /\ i ∈ msgs /\ r ≠ i
         /\ note_end (trim_loop msgs (length visited) rest prev notes) i
            = note_start notes r
         /\ note_start notes i <= note_start notes r < note_end notes i.
Proof.
  induction rest as [|r rest IH];
    intros visited prev notes Hmsgs Hnd Hval Hprev Hsorted i.
  - by left.
  - simpl.
    replace (S (length visited)) with (length (visited ++ [r]))
      by (rewrite length_app; simpl; lia).
    destruct visited as [|d visited0 _] using rev_ind.
    + simpl in Hprev. specialize (Hprev r eq_refl).
      destruct (_ <? _) eqn:?; [lia|].
      apply IH; try done.
    + rewrite last_snoc in Hprev.
      assert (Hk : msgs !!! prev_position (length msgs) (length (visited0 ++ [d])) = d).
      { rewrite length_app. simpl. rewrite Nat.add_1_r. simpl.
        rewrite Hmsgs, <- app_assoc. simpl.
        by rewrite list_lookup_total_middle. }
      rewrite Hk. clear Hk.
      set (notes' := if note_start notes r <? prev
                     then alter (set_end (note_start notes r)) d notes
                     else notes).
      assert (Hstart : forall j, note_start notes' j = note_start notes j).
      { intros j. subst notes'. destruct (_ <? _); [apply note_start_alter|done]. }
      assert (Hlen : length notes' = length notes).
      { subst notes'. destruct (_ <? _); [apply length_alter|done]. }
      assert (Hdm : d ∈ msgs) by (rewrite Hmsgs; set_solver).
      assert (Hrm : r ∈ msgs) by (rewrite Hmsgs; set_solver).
      assert (Hd : (d < length notes)%nat) by (by apply Hval).
      assert (Hdr : d ≠ r).
      { intros ->. rewrite Hmsgs, <- app_assoc in Hnd. simpl in Hnd.
        apply NoDup_app in Hnd as (_ & _ & Hnd1).
        apply NoDup_cons in Hnd1 as [Hd1 _]. apply Hd1. by left. }
      assert (Hend : forall j, j ≠ d -> note_end notes' j = note_end notes j).
      { intros j Hj. subst notes'.
        destruct (_ <? _); [by apply note_end_alter_ne|done]. }
      assert (Hdstart : note_start notes d <= note_start notes r).
      { apply (Hsorted (length visited0) (S (length visited0))); [lia|..].
        - rewrite Hmsgs, <- app_assoc. simpl. by rewrite list_lookup_middle.
        - rewrite Hmsgs. rewrite lookup_app_r;
            rewrite length_app; simpl; [|lia].
          by replace (S (length visited0) - (length visited0 + 1))%nat
            with 0%nat by lia. }
      destruct (IH (visited0 ++ [d] ++ [r]) (note_end notes r) notes') with i
        as [Hi|(r' & Hr' & Hi & Hne & Hcut & Hlo & Hhi)].
      * by rewrite <- !app_assoc in *.
      * done.
      * intros j Hj. rewrite Hlen. by apply Hval.
      * rewrite app_assoc, last_snoc. symmetry. apply Hend. congruence.
      * intros p q a b Hpq Ha Hb. rewrite !Hstart. by eapply Hsorted.
      * rewrite app_assoc in Hi. rewrite Hi.
        destruct (decide (i = d)) as [->|Hid]; [|left; by apply Hend].
        subst notes'. destruct (Z.ltb_spec (note_start notes r) prev) as [Hlt|Hlt];
          [|by left].
        right. exists r. rewrite note_end_alter_eq by done.
        split_and!; first [done|congruence|lia].
      * rewrite app_assoc in Hcut. rewrite Hcut. right. exists r'.
        rewrite !Hstart in *.
        assert (Hle : note_end notes' i <= note_end notes i).
        { destruct (decide (i = d)) as [->|Hid]; [|by rewrite Hend].
          subst notes'.
          destruct (Z.ltb_spec (note_start notes r) prev) as [Hlt|Hlt];
            [|done].
          rewrite note_end_alter_eq by done. lia. }
        split_and!; first [done|lia].
Qed.

Lemma resolve_group_ends notes group k :
  NoDup group ->
  (forall i, i ∈ group -> (i < length notes)%nat /\ key_of notes i = k) ->
  (forall i, -1 <= note_start notes i) ->
  forall i, cut_by notes (resolve_group notes group) i.
Proof.
  intros Hnd Hval Hge i. unfold resolve_group.
  set (msgs := sorted (start_end_leb notes) group).
  assert (Hperm : msgs ≡ₚ group) by apply sorted_perm.
  destruct (trim_loop_ends msgs msgs [] (-1) notes) with i
    as [Hi|(r & Hr & Hi & Hne & Hcut & Hlo)]; try done.
  - by rewrite Hperm.
  - intros j Hj. apply Hval. by rewrite <- Hperm.
  - simpl. intros r _. apply Hge.
  - intros p q a b Hpq Ha Hb.
    assert (Hle : start_end_leb notes a b = true).
    { eapply (StronglySorted_lookup
                (fun a b => start_end_leb notes a b = true) msgs p q);
        [|lia|done..].
      apply sorted_sorted;
        [apply start_end_leb_total|apply start_end_leb_trans]. }
    apply start_end_leb_spec in Hle. lia.
  - by left.
  - right. exists r. rewrite Hperm in Hr, Hi.
    destruct (Hval r Hr) as [Hlt Hkr]. destruct (Hval i Hi) as [_ Hki].
    split_and!; first [done|congruence|lia].
Qed.

Lemma cut_by_trans n0 n1 n2 i :
  forget_end <$> n1 = forget_end <$> n0 ->
  cut_by n0 n1 i -> cut_by n1 n2 i -> cut_by n0 n2 i.
Proof.
  intros Hf H01 H12.
  assert (Hs : forall j, note_start n1 j = note_start n0 j)
    by (intros j; by apply note_start_forget).
  assert (Hk : forall j, key_of n1 j = key_of n0 j)
    by (intros j; by apply key_of_forget).
  assert (Hl : length n1 = length n0) by (by apply length_forget).
  assert (Hle : note_end n1 i <= note_end n0 i).
  { destruct H01 as [->|(r & _ & _ & _ & -> & Hlo)]; lia. }
  destruct H12 as [H12|(r & Hr & Hne & Hkey & Hcut & Hlo)].
  - destruct H01 as [H01|(r & Hr & Hne & Hkey & Hcut & Hlo)].
    + left. congruence.
    + right. exists r. rewrite H12. split_and!; first [done|lia].
  - right. exists r. rewrite !Hs, !Hk, Hl in *.
    split_and!; first [done|lia].
Qed.

Lemma resolve_groups_ends gs : forall notes,
  keyed notes gs -> (forall i, -1 <= note_start notes i) ->
  forall i, cut_by notes (resolve_groups notes gs) i.
Proof.
  induction gs as [|[k0 g0] gs IH]; intros notes [Hnd Hg] Hge i.
  { by left. }
  simpl. csimpl in Hnd. apply NoDup_cons in Hnd as [Hk0 Hnd].
  destruct (Hg k0 g0) as [Hndg Hi]; [by left|].
  apply (cut_by_trans notes (resolve_group notes g0)).
  - apply resolve_group_forget.
  - by apply (resolve_group_ends notes g0 k0).
  - apply IH.
    + apply (keyed_forget notes); [by rewrite resolve_group_forget|].
      split; [done|]. intros k' g' Hin'. apply Hg. by right.
    + intros j. by rewrite resolve_group_start.
Qed.

(** X18: what [resolve_overlaps] does to an end tick, for a document whose
    notes start at ticks that are not negative: the end of a note stays, or
    it is cut to the start of another note of the same channel and pitch
    that starts no earlier than the note and before its end.  So no note
    gets longer, and a note that does not end before it starts still does
    not. *)
Theorem resolve_overlaps_ends md i msg msg' :
  ticks_nonneg (note_msgs md) ->
  note_msgs md !! i = Some msg ->
  note_msgs (resolve_overlaps md) !! i = Some msg' ->
  (end_ (note_data msg') = end_ (note_data msg)
   \/ exists j other,
        j ≠ i /\ note_msgs md !! j = Some other
        /\ same_channel_pitch msg other
        /\ end_ (note_data msg') = start (note_data other)
        /\ start (note_data msg) <= start (note_data other)
           < end_ (note_data msg))
  /\ end_ (note_data msg') <= end_ (note_data msg)
  /\ (start (note_data msg) <= end_ (note_data msg) ->
      start (note_data msg') <= end_ (note_data msg')).
Proof.
  intros Hn Hi Hi'. simpl in Hi'.
  pose proof (resolve_overlaps_notes_forget (note_msgs md)) as Hf.
  destruct (note_fields _ _ _ Hi) as (Hs & He & Hk).
  destruct (note_fields _ _ _ Hi') as (Hs' & He' & Hk').
  assert (Hss : start (note_data msg') = start (note_data msg)).
  { rewrite <- Hs, <- Hs'. by apply note_start_forget. }
  assert (Hcut : cut_by (note_msgs md) (resolve_overlaps_notes (note_msgs md)) i).
  { rewrite resolve_overlaps_notes_groups.
    apply resolve_groups_ends; [apply keyed_group_notes|].
    intros j. by apply note_start_nonneg. }
  rewrite <- He, <- He', Hss, <- Hs.
  destruct Hcut as [Hcut|(r & Hr & Hne & Hkey & Hcut & Hlo)].
  - split; [by left|]. rewrite Hcut. split; lia.
  - apply lookup_lt_is_Some_2 in Hr as [other Hother].
    destruct (note_fields _ _ _ Hother) as (Hso & Heo & Hko).
    split; [|rewrite Hcut; split; lia].
    right. exists r, other. rewrite <- Hso.
    rewrite Hk, Hko in Hkey. injection Hkey as Hc Hp.
    unfold same_channel_pitch. split_and!; first [done|lia].
Qed.

Lemma resolve_overlaps_ends_witness :
  exists msg',
    note_msgs (resolve_overlaps overlapping_doc) !! 0%nat = Some msg'
    /\ end_ (note_data msg') <= 100.
Proof.
  eexists. split; [reflexivity|].
  eapply (resolve_overlaps_ends overlapping_doc 0 (note 0 60 0 100 90)).
  - unfold ticks_nonneg. simpl. repeat constructor; simpl; lia.
  - reflexivity.
  - reflexivity.
Defined.

(** ** The pedal intervals of a channel *)








